(** * The two-tier task scheduler of node (node_threadpool.cc, node_platform.cc)

    A shallow embedding of the worker pool ([threadpool::TaskState],
    [threadpool::TaskQueue], [threadpool::Worker], [threadpool::Threadpool],
    [threadpool::LibuvExecutor]) and of the platform side
    ([node::TaskQueue<T>], the delayed task scheduler,
    [PerIsolatePlatformData], [NodePlatform]), followed by the properties
    checked against it.

    Conventions.
    - A [std::shared_ptr<TaskState>] is a handle (an index) into a heap of
      [TaskState] objects, so that the queue, a worker and any external
      holder alias the same object.
    - A function guarded by a mutex is one atomic step.  Threads are
      interleaved by a trace of actions.
    - A failed [CHECK] aborts the process: [Abort].  A thread that cannot
      proceed (condition wait, a mutex that is not free, or already
      returned) is [Wait].
    - The mutex of [NodePlatform] is free between two calls of the
      platform.  It matters inside [UnregisterIsolate], which runs the
      tasks of a runner while holding it: the code of a runner is told
      in which situation it runs. *)

From Stdlib Require Import ZArith QArith Qround Qabs Lia Lqa.
From Stdlib Require Import Floats.SpecFloat.
From stdpp Require Import base decidable option list gmap.

(** ** Part I: the program *)

(** Outcome of one atomic step of a thread. *)
Inductive Result (A : Type) : Type :=
| Ok (a : A)
| Abort
| Wait.
Arguments Ok {A} a.
Arguments Abort {A}.
Arguments Wait {A}.

(** Steps in sequence: the first that does not return decides. *)
#[global] Instance Result_bind : MBind Result := λ A B f r,
  match r with
  | Ok a => f a
  | Abort => Abort
  | Wait => Wait
  end.

#[global] Instance Result_fmap : FMap Result := λ A B f r,
  match r with
  | Ok a => Ok (f a)
  | Abort => Abort
  | Wait => Wait
  end.

(** A failed [CHECK], as an outcome. *)
Definition checked {A : Type} (r : option A) : Result A :=
  match r with
  | Some a => Ok a
  | None => Abort
  end.

Module threadpool.

(** *** TaskState *)

(** [enum TaskState::State]. *)
Inductive State : Set := INITIAL | QUEUED | ASSIGNED | CANCELLED | COMPLETED.

#[global] Instance State_eq_dec : EqDecision State.
Proof. solve_decision. Defined.

(** [TaskState::ValidStateTransition].  The [default: CHECK(0)] arm is
    unreachable for a value of the enumeration. *)
Definition ValidStateTransition (old_state new_state : State) : bool :=
  match old_state with
  | INITIAL => bool_decide (new_state = QUEUED) || bool_decide (new_state = CANCELLED)
  | QUEUED => bool_decide (new_state = ASSIGNED) || bool_decide (new_state = CANCELLED)
  | ASSIGNED => bool_decide (new_state = COMPLETED) || bool_decide (new_state = CANCELLED)
  | CANCELLED => bool_decide (new_state = COMPLETED)
  | COMPLETED => false
  end.

(** The object: its only data member is [state_] (the mutex is the
    atomicity of the functions below). *)
Record TaskState : Set := { state_ : State }.

(** [TaskState::TaskState() : state_(INITIAL)]. *)
Definition TaskState_new : TaskState := {| state_ := INITIAL |}.

(** [TaskState::GetState]. *)
Definition GetState (ts : TaskState) : State := state_ ts.

(** [TaskState::TryUpdateState]: the object afterwards, and the value
    returned. *)
Definition TryUpdateState (new_state : State) (ts : TaskState) : TaskState * State :=
  let ts' :=
    if ValidStateTransition (state_ ts) new_state
    then {| state_ := new_state |}
    else ts in
  (ts', state_ ts').

(** [TaskState::Cancel]. *)
Definition Cancel (ts : TaskState) : TaskState * bool :=
  let '(ts', s) := TryUpdateState CANCELLED ts in
  (ts', bool_decide (s = CANCELLED)).

(** A sequence of [TryUpdateState] calls on one object, in the order in
    which they take the lock: the object at the end and the values
    returned, oldest first. *)
Fixpoint TryUpdateState_seq (requests : list State) (ts : TaskState)
  : TaskState * list State :=
  match requests with
  | [] => (ts, [])
  | new_state :: rest =>
      let '(ts1, r) := TryUpdateState new_state ts in
      let '(ts2, rs) := TryUpdateState_seq rest ts1 in
      (ts2, r :: rs)
  end.

(** *** Task *)

(** A task: its opaque [Run()] action, named by a number, and its
    [task_state_], null until [SetTaskState]. *)
Record Task : Set := { Run_ : nat; task_state_ : option nat }.

#[global] Instance Task_eq_dec : EqDecision Task.
Proof. solve_decision. Defined.

(** [Task::Task() : task_state_()]. *)
Definition Task_new (run : nat) : Task := {| Run_ := run; task_state_ := None |}.

(** [Task::SetTaskState]. *)
Definition SetTaskState (task_state : nat) (task : Task) : Task :=
  {| Run_ := Run_ task; task_state_ := Some task_state |}.

(** [Task::TryUpdateState]: dereferences [task_state_]; [None] when the
    pointer is null or names no object. *)
Definition Task_TryUpdateState (task : Task) (new_state : State)
    (heap : list TaskState) : option (list TaskState * State) :=
  h ← task_state_ task;
  ts ← heap !! h;
  let '(ts', s) := TryUpdateState new_state ts in
  Some (<[h := ts']> heap, s).

(** *** TaskQueue *)

(** A notification on a condition variable. *)
Inductive CondEvent : Set := Signal | Broadcast.

(** [threadpool::TaskQueue].  The two condition variables are the
    notifications issued on them so far, oldest first. *)
Record TaskQueue : Set := {
  queue_ : list Task;
  outstanding_tasks_ : Z;
  stopped_ : bool;
  task_available_ : list CondEvent;
  tasks_drained_ : list CondEvent
}.

(** [TaskQueue::TaskQueue]. *)
Definition TaskQueue_new : TaskQueue :=
  {| queue_ := []; outstanding_tasks_ := 0; stopped_ := false;
     task_available_ := []; tasks_drained_ := [] |}.

(** [TaskQueue::Push].  [None]: the [CHECK] on the task's state fails (or
    the task has no state). *)
Definition Push (task : Task) (heap : list TaskState) (q : TaskQueue)
  : option (list TaskState * TaskQueue * bool) :=
  if stopped_ q then Some (heap, q, false)
  else
    '(heap', task_state) ← Task_TryUpdateState task QUEUED heap;
    if bool_decide (task_state = QUEUED) || bool_decide (task_state = CANCELLED)
    then Some (heap',
               {| queue_ := queue_ q ++ [task];
                  outstanding_tasks_ := outstanding_tasks_ q + 1;
                  stopped_ := stopped_ q;
                  task_available_ := task_available_ q ++ [Signal];
                  tasks_drained_ := tasks_drained_ q |},
               true)
    else None.

(** [TaskQueue::Pop]: the task at the front, or null. *)
Definition Pop (q : TaskQueue) : option Task * TaskQueue :=
  match queue_ q with
  | [] => (None, q)
  | task :: rest =>
      (Some task,
       {| queue_ := rest; outstanding_tasks_ := outstanding_tasks_ q;
          stopped_ := stopped_ q; task_available_ := task_available_ q;
          tasks_drained_ := tasks_drained_ q |})
  end.

(** [TaskQueue::BlockingPop].  [Wait] while the queue is empty and not
    stopped; otherwise the front task, or null when the queue is empty. *)
Definition BlockingPop (q : TaskQueue) : Result (option Task * TaskQueue) :=
  if bool_decide (queue_ q = []) && negb (stopped_ q) then Wait
  else Ok (Pop q).

(** [TaskQueue::NotifyOfCompletion].  [None]: [CHECK_GE] fails. *)
Definition NotifyOfCompletion (q : TaskQueue) : option TaskQueue :=
  let n := (outstanding_tasks_ q - 1)%Z in
  if bool_decide (0 ≤ n)%Z then
    Some {| queue_ := queue_ q; outstanding_tasks_ := n;
            stopped_ := stopped_ q; task_available_ := task_available_ q;
            tasks_drained_ :=
              if bool_decide (n = 0%Z) then tasks_drained_ q ++ [Broadcast]
              else tasks_drained_ q |}
  else None.

(** [TaskQueue::BlockingDrain]: returns once nothing is outstanding. *)
Definition BlockingDrain (q : TaskQueue) : Result unit :=
  if bool_decide (outstanding_tasks_ q = 0%Z) then Ok tt else Wait.

(** [TaskQueue::Stop]. *)
Definition Stop (q : TaskQueue) : TaskQueue :=
  {| queue_ := queue_ q; outstanding_tasks_ := outstanding_tasks_ q;
     stopped_ := true;
     task_available_ := task_available_ q ++ [Broadcast];
     tasks_drained_ := tasks_drained_ q |}.

(** [TaskQueue::Length]. *)
Definition Length (q : TaskQueue) : Z := Z.of_nat (length (queue_ q)).

(** *** Worker *)

(** Where a worker thread stands in [Worker::_Run]: at the loop head
    (about to call [BlockingPop]), holding a popped task before
    [TryUpdateState(ASSIGNED)], before [task->Run()], before
    [TryUpdateState(COMPLETED)], before [NotifyOfCompletion], or
    returned. *)
Inductive Worker : Set :=
| AtBlockingPop
| AtTryAssign (task : Task)
| AtRun (task : Task)
| AtTryComplete (task : Task)
| AtNotify
| Returned.

#[global] Instance Worker_eq_dec : EqDecision Worker.
Proof. solve_decision. Defined.

(** One atomic step of [Worker::_Run].  [ran] lists the tasks whose
    [Run()] was invoked, oldest first. *)
Definition Worker_Run_step (w : Worker) (heap : list TaskState)
    (q : TaskQueue) (ran : list Task)
  : Result (Worker * list TaskState * TaskQueue * list Task) :=
  match w with
  | AtBlockingPop =>
      match BlockingPop q with
      | Ok (Some task, q') => Ok (AtTryAssign task, heap, q', ran)
      | Ok (None, q') => Ok (Returned, heap, q', ran)
      | Abort => Abort
      | Wait => Wait
      end
  | AtTryAssign task =>
      match Task_TryUpdateState task ASSIGNED heap with
      | Some (heap', task_state) =>
          if bool_decide (task_state = ASSIGNED)
          then Ok (AtRun task, heap', q, ran)
          else if bool_decide (task_state = CANCELLED)
               then Ok (AtTryComplete task, heap', q, ran)
               else Abort
      | None => Abort
      end
  | AtRun task => Ok (AtTryComplete task, heap, q, ran ++ [task])
  | AtTryComplete task =>
      match Task_TryUpdateState task COMPLETED heap with
      | Some (heap', task_state) =>
          if bool_decide (task_state = COMPLETED)
          then Ok (AtNotify, heap', q, ran)
          else Abort
      | None => Abort
      end
  | AtNotify =>
      match NotifyOfCompletion q with
      | Some q' => Ok (AtBlockingPop, heap, q', ran)
      | None => Abort
      end
  | Returned => Wait
  end.

(** *** Threadpool *)

(** [threadpool::Threadpool] with the [TaskState] objects it made
    ([heap]) and the record of the runs ([ran]). *)
Record Threadpool : Set := {
  heap : list TaskState;
  Threadpool_queue_ : TaskQueue;
  workers_ : list Worker;
  ran : list Task
}.

(** [Threadpool::Threadpool] and [Threadpool::Initialize] for a resolved
    size: that many started workers on one empty queue. *)
Definition Threadpool_new (threadpool_size : nat) : Threadpool :=
  {| heap := []; Threadpool_queue_ := TaskQueue_new;
     workers_ := replicate threadpool_size AtBlockingPop; ran := [] |}.

(** [Threadpool::GoodThreadpoolSize].  [cpu_count] is the count
    [uv_cpu_info] reports, [None] when the call fails. *)
Definition GoodThreadpoolSize (cpu_count : option Z) : Z :=
  match cpu_count with
  | None => 4
  | Some count => count
  end.

(** [Threadpool::Initialize]: one started worker for each [i] with
    [0 <= i < threadpool_size_]. *)
Definition Initialize (threadpool_size_ : Z) : list Worker :=
  replicate (Z.to_nat threadpool_size_) AtBlockingPop.

(** [Threadpool::Threadpool(int threadpool_size)].  [UV_THREADPOOL_SIZE]
    is what [atoi] makes of the environment variable, [None] when
    [uv_os_getenv] fails.  [Abort]: [CHECK_GT(threadpool_size_, 0)]
    fails. *)
Definition Threadpool_Threadpool (threadpool_size : Z)
    (UV_THREADPOOL_SIZE cpu_count : option Z) : Result Threadpool :=
  let threadpool_size_1 :=
    if (threadpool_size <=? 0)%Z
    then match UV_THREADPOOL_SIZE with
         | Some n => n
         | None => threadpool_size
         end
    else threadpool_size in
  let threadpool_size_2 :=
    if (threadpool_size_1 <=? 0)%Z
    then GoodThreadpoolSize cpu_count
    else threadpool_size_1 in
  if (0 <? threadpool_size_2)%Z
  then Ok {| heap := []; Threadpool_queue_ := TaskQueue_new;
             workers_ := Initialize threadpool_size_2; ran := [] |}
  else Abort.

(** [Threadpool::Post]: the pool afterwards and the handle returned (a
    [shared_ptr], so possibly null in principle).  The result of [Push]
    is dropped, as in the source. *)
Definition Post (task : Task) (tp : Threadpool)
  : Result (Threadpool * option nat) :=
  let task_state := length (heap tp) in
  let heap1 := heap tp ++ [TaskState_new] in
  let task1 := SetTaskState task_state task in
  match Push task1 heap1 (Threadpool_queue_ tp) with
  | Some (heap2, q2, _) =>
      Ok ({| heap := heap2; Threadpool_queue_ := q2;
             workers_ := workers_ tp; ran := ran tp |},
          Some task_state)
  | None => Abort
  end.

(** [Threadpool::QueueLength]. *)
Definition QueueLength (tp : Threadpool) : Z := Length (Threadpool_queue_ tp).

(** [Threadpool::NWorkers]. *)
Definition NWorkers (tp : Threadpool) : Z := Z.of_nat (length (workers_ tp)).

(** Worker [i] takes its next step. *)
Definition Worker_step (i : nat) (tp : Threadpool) : Result Threadpool :=
  match workers_ tp !! i with
  | None => Wait
  | Some w =>
      match Worker_Run_step w (heap tp) (Threadpool_queue_ tp) (ran tp) with
      | Ok (w', heap', q', ran') =>
          Ok {| heap := heap'; Threadpool_queue_ := q';
                workers_ := <[i := w']> (workers_ tp); ran := ran' |}
      | Abort => Abort
      | Wait => Wait
      end
  end.

(** What the threads around the pool may do: post a task, cancel through
    a handle, start the teardown ([queue_.Stop()]), and let worker [i]
    take a step. *)
Inductive Action : Set :=
| CallPost (task : Task)
| CallCancel (task_state : nat)
| CallStop
| WorkerStep (i : nat).

#[global] Instance Action_eq_dec : EqDecision Action.
Proof. solve_decision. Defined.

(** One action.  A cancel through a handle that names no object cannot
    happen (nobody holds such a handle). *)
Definition step (a : Action) (tp : Threadpool) : Result Threadpool :=
  match a with
  | CallPost task =>
      match Post task tp with
      | Ok (tp', _) => Ok tp'
      | Abort => Abort
      | Wait => Wait
      end
  | CallCancel h =>
      match heap tp !! h with
      | Some ts =>
          Ok {| heap := <[h := (Cancel ts).1]> (heap tp);
                Threadpool_queue_ := Threadpool_queue_ tp;
                workers_ := workers_ tp; ran := ran tp |}
      | None => Wait
      end
  | CallStop =>
      Ok {| heap := heap tp; Threadpool_queue_ := Stop (Threadpool_queue_ tp);
            workers_ := workers_ tp; ran := ran tp |}
  | WorkerStep i => Worker_step i tp
  end.

(** An interleaving: the actions in the order in which they happen. *)
Fixpoint exec (trace : list Action) (tp : Threadpool) : Result Threadpool :=
  match trace with
  | [] => Ok tp
  | a :: rest =>
      match step a tp with
      | Ok tp' => exec rest tp'
      | Abort => Abort
      | Wait => Wait
      end
  end.

(** [Worker::Join] when nothing else interferes: worker [i] runs until
    [_Run] returns. *)
Fixpoint Join (fuel : nat) (i : nat) (tp : Threadpool) : Result Threadpool :=
  match workers_ tp !! i with
  | Some Returned => Ok tp
  | _ =>
      match fuel with
      | O => Wait
      | S fuel' =>
          match Worker_step i tp with
          | Ok tp' => Join fuel' i tp'
          | Abort => Abort
          | Wait => Wait
          end
      end
  end.

(** [Threadpool::~Threadpool]: stop the queue, then join the workers in
    order.  A worker takes at most five steps for each task still in the
    queue, and at most five more to finish its current task and return. *)
Definition Threadpool_destroy (tp : Threadpool) : Result Threadpool :=
  let tp1 := {| heap := heap tp; Threadpool_queue_ := Stop (Threadpool_queue_ tp);
                workers_ := workers_ tp; ran := ran tp |} in
  let fuel := 5 * length (queue_ (Threadpool_queue_ tp)) + 5 in
  foldl (λ r i, match r with
                | Ok tp' => Join fuel i tp'
                | Abort => Abort
                | Wait => Wait
                end)
        (Ok tp1) (seq 0 (length (workers_ tp))).

(** *** LibuvExecutor *)

(** [LibuvTaskData]: the cookie kept in [req->reserved[0]]. *)
Record LibuvTaskData : Set := { LibuvTaskData_state_ : nat }.

(** The part of [uv_work_t] the executor uses: the work callback (named
    by a number) and [reserved[0]]. *)
Record uv_work_t : Set := { work_cb : nat; reserved0 : option LibuvTaskData }.

Section LibuvExecutor.
(** libuv's error codes; their values are libuv's and differ between
    platforms. *)
Variables UV_EINVAL UV_EBUSY : Z.

(** [LibuvExecutor::Cancel]. *)
Definition LibuvExecutor_Cancel (task_state : nat) (heap : list TaskState)
  : option (list TaskState * bool) :=
  ts ← heap !! task_state;
  let '(ts', ok) := Cancel ts in
  Some (<[task_state := ts']> heap, ok).

(** [LibuvExecutor::uv_executor_cancel].  [req] is a pointer, [None]
    when null.  The outer [None]: the cookie names no object. *)
Definition uv_executor_cancel (req : option uv_work_t)
    (heap : list TaskState) : option (list TaskState * Z) :=
  match req with
  | None => Some (heap, UV_EINVAL)
  | Some r =>
      match reserved0 r with
      | None => Some (heap, UV_EINVAL)
      | Some task_data =>
          '(heap', ok) ← LibuvExecutor_Cancel (LibuvTaskData_state_ task_data) heap;
          Some (heap', if ok : bool then 0%Z else UV_EBUSY)
      end
  end.
End LibuvExecutor.

(** [LibuvExecutor::uv_executor_submit]: wrap the request in a task (its
    action is the request's callback), post it, and keep the handle in
    the request's cookie.  [Abort]: [CHECK(task_state)] fails. *)
Definition uv_executor_submit (req : uv_work_t) (tp : Threadpool)
  : Result (Threadpool * uv_work_t) :=
  match Post (Task_new (work_cb req)) tp with
  | Ok (tp', Some task_state) =>
      Ok (tp', {| work_cb := work_cb req;
                  reserved0 := Some {| LibuvTaskData_state_ := task_state |} |})
  | Ok (_, None) => Abort
  | Abort => Abort
  | Wait => Wait
  end.

End threadpool.

Module platform.

(** *** Doubles *)

(** A [double] is an IEEE 754 binary64 value. *)
Definition prec : Z := 53.
Definition emax : Z := 1024.

(** [x + y] on doubles, rounded to nearest (ties to even). *)
Definition double_add (x y : spec_float) : spec_float := SFadd prec emax x y.

(** The literal [0.5]. *)
Definition double_0_5 : spec_float := S754_finite false 4503599627370496 (-53).

(** The value of a finite double as a rational number. *)
Definition SF2Q (x : spec_float) : Q :=
  match x with
  | S754_finite s m e =>
      let magnitude :=
        if (0 <=? e)%Z then inject_Z (Z.pos m * 2 ^ e)
        else Z.pos m # Pos.pow 2 (Z.to_pos (- e)) in
      if s then (- magnitude)%Q else magnitude
  | _ => 0%Q
  end.

(** [static_cast<uint64_t>(x)]: the value truncated toward zero.  [None]
    when the truncated value is not a [uint64_t], where C++ leaves the
    conversion undefined. *)
Definition static_cast_uint64 (x : spec_float) : option Z :=
  match x with
  | S754_zero _ => Some 0%Z
  | S754_finite s m e =>
      let magnitude := Z.shiftl (Z.pos m) e in
      if s then (if (magnitude =? 0)%Z then Some 0%Z else None)
      else if (magnitude <? 2 ^ 64)%Z then Some magnitude else None
  | _ => None
  end.

(** [static_cast<uint64_t>(delay + 0.5) * 1000], the expression of
    [ScheduleTask::Run] and of [FlushForegroundTasksInternal].  The
    product is a [uint64_t] product. *)
Definition delay_millis (delay_in_seconds : spec_float) : option Z :=
  n ← static_cast_uint64 (double_add delay_in_seconds double_0_5);
  Some ((n * 1000) mod 2 ^ 64)%Z.

(** *** Tasks and timers *)

(** A [v8::Task].  Its [Run()] is the engine's; what the scheduler can
    see of it is which task ran ([id]) and what it posted back to the
    runner of its isolate while running: further tasks and further
    delayed tasks, in order.  A task posts in one of two ways:
    - [MkTask]: through the runner itself, the [v8::TaskRunner] that
      [GetForegroundTaskRunner] gave it, that is with
      [PerIsolatePlatformData::PostTask] and [PostDelayedTask];
    - [MkPlatformTask]: through the platform, with
      [NodePlatform::CallOnForegroundThread] and
      [CallDelayedOnForegroundThread] for its isolate, which look the
      runner up with [ForIsolate] at every call. *)
#[local] Set Warnings "-register-all".
Inductive Task : Type :=
| MkTask (id : nat) (posts : list Task) (delayed_posts : list (Task * spec_float))
| MkPlatformTask (id : nat) (posts : list Task)
    (delayed_posts : list (Task * spec_float)).

Definition Task_id (task : Task) : nat :=
  match task with MkTask id _ _ | MkPlatformTask id _ _ => id end.
Definition Task_posts (task : Task) : list Task :=
  match task with MkTask _ posts _ | MkPlatformTask _ posts _ => posts end.
Definition Task_delayed_posts (task : Task) : list (Task * spec_float) :=
  match task with
  | MkTask _ _ delayed_posts | MkPlatformTask _ _ delayed_posts => delayed_posts
  end.

(** Whether the [Run()] of a task calls the platform: it posts through
    it, and has something to post. *)
Definition posts_through_platform (task : Task) : bool :=
  match task with
  | MkTask _ _ _ => false
  | MkPlatformTask _ [] [] => false
  | MkPlatformTask _ _ _ => true
  end.

(** The size of a task with all it will ever post. *)
Fixpoint Task_weight (task : Task) : nat :=
  match task with
  | MkTask _ posts delayed_posts | MkPlatformTask _ posts delayed_posts =>
      S (list_sum (List.map Task_weight posts)
         + list_sum (List.map (λ p, let '(t, _) := p in Task_weight t) delayed_posts))
  end.

(** A started [uv_timer_t]: the timeout and repeat given to
    [uv_timer_start].  The timeout is [None] where the conversion that
    computed it is undefined. *)
Record uv_timer_t : Set := { timer_timeout : option Z; timer_repeat : Z }.

(** [struct DelayedTask] (the back reference to the runner is the runner
    that holds it).  [timer] is [None] until the timer is started. *)
Record DelayedTask : Type := {
  task : Task;
  timeout : spec_float;
  timer : option uv_timer_t
}.

(** *** TaskQueue<T> *)

(** [node::TaskQueue<T>]. *)
Record TaskQueue (T : Type) : Type := {
  task_queue_ : list T;
  outstanding_tasks_ : Z;
  stopped_ : bool
}.
Arguments task_queue_ {T} _.
Arguments outstanding_tasks_ {T} _.
Arguments stopped_ {T} _.

(** [TaskQueue<T>::TaskQueue]. *)
Definition TaskQueue_new {T : Type} : TaskQueue T :=
  {| task_queue_ := []; outstanding_tasks_ := 0; stopped_ := false |}.

(** [TaskQueue<T>::Push]. *)
Definition Push {T : Type} (x : T) (q : TaskQueue T) : TaskQueue T :=
  {| task_queue_ := task_queue_ q ++ [x];
     outstanding_tasks_ := outstanding_tasks_ q + 1;
     stopped_ := stopped_ q |}.

(** [TaskQueue<T>::Pop]. *)
Definition Pop {T : Type} (q : TaskQueue T) : option T * TaskQueue T :=
  match task_queue_ q with
  | [] => (None, q)
  | x :: rest =>
      (Some x, {| task_queue_ := rest; outstanding_tasks_ := outstanding_tasks_ q;
                  stopped_ := stopped_ q |})
  end.

(** [TaskQueue<T>::BlockingPop]: null once stopped, whatever is queued. *)
Definition BlockingPop {T : Type} (q : TaskQueue T) : Result (option T * TaskQueue T) :=
  if bool_decide (task_queue_ q = []) && negb (stopped_ q) then Wait
  else if stopped_ q then Ok (None, q)
  else Ok (Pop q).

(** [TaskQueue<T>::NotifyOfCompletion]. *)
Definition NotifyOfCompletion {T : Type} (q : TaskQueue T) : TaskQueue T :=
  {| task_queue_ := task_queue_ q;
     outstanding_tasks_ := outstanding_tasks_ q - 1;
     stopped_ := stopped_ q |}.

(** [TaskQueue<T>::BlockingDrain]. *)
Definition BlockingDrain {T : Type} (q : TaskQueue T) : Result unit :=
  if bool_decide (0 < outstanding_tasks_ q)%Z then Wait else Ok tt.

(** [TaskQueue<T>::Stop]. *)
Definition Stop {T : Type} (q : TaskQueue T) : TaskQueue T :=
  {| task_queue_ := task_queue_ q; outstanding_tasks_ := outstanding_tasks_ q;
     stopped_ := true |}.

(** [TaskQueue<T>::PopAll]: the whole content, and the queue left empty. *)
Definition PopAll {T : Type} (q : TaskQueue T) : list T * TaskQueue T :=
  (task_queue_ q,
   {| task_queue_ := []; outstanding_tasks_ := outstanding_tasks_ q;
      stopped_ := stopped_ q |}).

(** *** WorkerThreadsTaskRunner::DelayedTaskScheduler *)

(** The commands queued for the scheduler's thread: [StopTask] and
    [ScheduleTask]. *)
Inductive SchedulerTask : Type :=
| StopTask
| ScheduleTask (task : Task) (delay_in_seconds : spec_float).

(** The scheduler: its command queue, the started timers with the task
    each carries in [data], the number of [uv_async_send] calls on
    [flush_tasks_], and whether that handle was closed. *)
Record DelayedTaskScheduler : Type := {
  tasks_ : TaskQueue SchedulerTask;
  timers_ : list (uv_timer_t * Task);
  scheduler_wakeups : nat;
  scheduler_closed : bool
}.

(** [DelayedTaskScheduler::PostDelayedTask]. *)
Definition DelayedTaskScheduler_PostDelayedTask (task : Task)
    (delay_in_seconds : spec_float) (s : DelayedTaskScheduler)
  : DelayedTaskScheduler :=
  {| tasks_ := Push (ScheduleTask task delay_in_seconds) (tasks_ s);
     timers_ := timers_ s;
     scheduler_wakeups := S (scheduler_wakeups s);
     scheduler_closed := scheduler_closed s |}.

(** [DelayedTaskScheduler::Stop]. *)
Definition DelayedTaskScheduler_Stop (s : DelayedTaskScheduler)
  : DelayedTaskScheduler :=
  {| tasks_ := Push StopTask (tasks_ s);
     timers_ := timers_ s;
     scheduler_wakeups := S (scheduler_wakeups s);
     scheduler_closed := scheduler_closed s |}.

(** [ScheduleTask::Run]: start a one-shot timer that carries the task. *)
Definition ScheduleTask_Run (task : Task) (delay_in_seconds : spec_float)
    (s : DelayedTaskScheduler) : DelayedTaskScheduler :=
  let delay_millis := delay_millis delay_in_seconds in
  let timer := {| timer_timeout := delay_millis; timer_repeat := 0 |} in
  {| tasks_ := tasks_ s;
     timers_ := timers_ s ++ [(timer, task)];
     scheduler_wakeups := scheduler_wakeups s;
     scheduler_closed := scheduler_closed s |}.

(** [StopTask::Run]: every timer is taken and its task dropped; the async
    handle is closed. *)
Definition StopTask_Run (s : DelayedTaskScheduler) : DelayedTaskScheduler :=
  {| tasks_ := tasks_ s; timers_ := [];
     scheduler_wakeups := scheduler_wakeups s;
     scheduler_closed := true |}.

(** The loop of [DelayedTaskScheduler::FlushTasks] over the commands
    still to pop. *)
Fixpoint FlushTasks_loop (commands : list SchedulerTask)
    (s : DelayedTaskScheduler) : DelayedTaskScheduler :=
  match commands with
  | [] => s
  | command :: rest =>
      let s1 := {| tasks_ := (Pop (tasks_ s)).2; timers_ := timers_ s;
                   scheduler_wakeups := scheduler_wakeups s;
                   scheduler_closed := scheduler_closed s |} in
      let s2 := match command with
                | StopTask => StopTask_Run s1
                | ScheduleTask task delay => ScheduleTask_Run task delay s1
                end in
      FlushTasks_loop rest s2
  end.

(** [DelayedTaskScheduler::FlushTasks]. *)
Definition FlushTasks (s : DelayedTaskScheduler) : DelayedTaskScheduler :=
  FlushTasks_loop (task_queue_ (tasks_ s)) s.

(** *** PerIsolatePlatformData *)

(** The runner of one loop.  [flush_tasks_] is [false] once the pointer
    is null; [wakeups] counts the [uv_async_send] calls; [executed] lists
    the tasks run on the loop's thread, oldest first. *)
Record PerIsolatePlatformData : Type := {
  ref_count_ : Z;
  loop_ : nat;
  flush_tasks_ : bool;
  wakeups : nat;
  foreground_tasks_ : TaskQueue Task;
  foreground_delayed_tasks_ : TaskQueue DelayedTask;
  scheduled_delayed_tasks_ : list DelayedTask;
  executed : list nat
}.

(** Modelled from the spec: the initial value of [ref_count_], whose
    declaration (node_platform.h) is not among the sources.  The runner
    is created by the first registration, every further registration
    increments the count, and the unregistration that brings it to zero
    shuts the runner down: a new runner counts one registration. *)
Definition ref_count_initial : Z := 1.

(** [PerIsolatePlatformData::PerIsolatePlatformData]. *)
Definition PerIsolatePlatformData_new (loop : nat) : PerIsolatePlatformData :=
  {| ref_count_ := ref_count_initial; loop_ := loop; flush_tasks_ := true;
     wakeups := 0; foreground_tasks_ := TaskQueue_new;
     foreground_delayed_tasks_ := TaskQueue_new;
     scheduled_delayed_tasks_ := []; executed := [] |}.

(** [PerIsolatePlatformData::event_loop]. *)
Definition event_loop (d : PerIsolatePlatformData) : nat := loop_ d.

(** [PerIsolatePlatformData::ref]. *)
Definition ref (d : PerIsolatePlatformData) : PerIsolatePlatformData :=
  {| ref_count_ := ref_count_ d + 1; loop_ := loop_ d;
     flush_tasks_ := flush_tasks_ d; wakeups := wakeups d;
     foreground_tasks_ := foreground_tasks_ d;
     foreground_delayed_tasks_ := foreground_delayed_tasks_ d;
     scheduled_delayed_tasks_ := scheduled_delayed_tasks_ d;
     executed := executed d |}.

(** [PerIsolatePlatformData::unref]: the runner and the value returned. *)
Definition unref (d : PerIsolatePlatformData) : PerIsolatePlatformData * Z :=
  let n := (ref_count_ d - 1)%Z in
  ({| ref_count_ := n; loop_ := loop_ d;
      flush_tasks_ := flush_tasks_ d; wakeups := wakeups d;
      foreground_tasks_ := foreground_tasks_ d;
      foreground_delayed_tasks_ := foreground_delayed_tasks_ d;
      scheduled_delayed_tasks_ := scheduled_delayed_tasks_ d;
      executed := executed d |}, n).

(** [PerIsolatePlatformData::PostTask].  [None]: [CHECK_NE] fails. *)
Definition PostTask (t : Task) (d : PerIsolatePlatformData)
  : option PerIsolatePlatformData :=
  if flush_tasks_ d then
    Some {| ref_count_ := ref_count_ d; loop_ := loop_ d;
            flush_tasks_ := flush_tasks_ d; wakeups := S (wakeups d);
            foreground_tasks_ := Push t (foreground_tasks_ d);
            foreground_delayed_tasks_ := foreground_delayed_tasks_ d;
            scheduled_delayed_tasks_ := scheduled_delayed_tasks_ d;
            executed := executed d |}
  else None.

(** [PerIsolatePlatformData::PostDelayedTask].  [None]: [CHECK_NE] fails. *)
Definition PostDelayedTask (t : Task) (delay_in_seconds : spec_float)
    (d : PerIsolatePlatformData) : option PerIsolatePlatformData :=
  if flush_tasks_ d then
    let delayed := {| task := t; timeout := delay_in_seconds; timer := None |} in
    Some {| ref_count_ := ref_count_ d; loop_ := loop_ d;
            flush_tasks_ := flush_tasks_ d; wakeups := S (wakeups d);
            foreground_tasks_ := foreground_tasks_ d;
            foreground_delayed_tasks_ := Push delayed (foreground_delayed_tasks_ d);
            scheduled_delayed_tasks_ := scheduled_delayed_tasks_ d;
            executed := executed d |}
  else None.

(** What a running task posts back: its tasks, then its delayed tasks. *)
Fixpoint PostTask_each (tasks : list Task) (d : PerIsolatePlatformData)
  : option PerIsolatePlatformData :=
  match tasks with
  | [] => Some d
  | t :: rest => d' ← PostTask t d; PostTask_each rest d'
  end.

Fixpoint PostDelayedTask_each (tasks : list (Task * spec_float))
    (d : PerIsolatePlatformData) : option PerIsolatePlatformData :=
  match tasks with
  | [] => Some d
  | (t, delay) :: rest => d' ← PostDelayedTask t delay d; PostDelayedTask_each rest d'
  end.

(** A task that posts through the platform calls
    [NodePlatform::ForIsolate] for its isolate, on the thread that runs
    it.  [ForIsolate] takes [per_isolate_mutex_], which is not recursive,
    and looks the isolate up.  Where the code of a runner runs decides
    what such a call comes to:
    - [Registered]: the thread does not hold the mutex, and the isolate
      is registered with this runner; the call returns this runner;
    - [NotRegistered]: the thread does not hold the mutex, and the
      isolate has no runner; [CHECK(data)] fails;
    - [MutexHeld]: the thread holds the mutex, as it does where
      [NodePlatform::UnregisterIsolate] calls [Shutdown]; the call never
      returns. *)
Inductive Situation : Set := Registered | NotRegistered | MutexHeld.

(** [NodePlatform::ForIsolate], called by a running task for its
    isolate. *)
Definition ForIsolate_by_task (c : Situation) : Result unit :=
  match c with
  | Registered => Ok tt
  | NotRegistered => Abort
  | MutexHeld => Wait
  end.

(** [NodePlatform::CallOnForegroundThread] and
    [CallDelayedOnForegroundThread], called by a running task for its
    isolate, once for each task it posts. *)
Fixpoint CallOnForegroundThread_each (c : Situation) (tasks : list Task)
    (d : PerIsolatePlatformData) : Result PerIsolatePlatformData :=
  match tasks with
  | [] => Ok d
  | t :: rest =>
      _ ← ForIsolate_by_task c;
      d' ← checked (PostTask t d);
      CallOnForegroundThread_each c rest d'
  end.

Fixpoint CallDelayedOnForegroundThread_each (c : Situation)
    (tasks : list (Task * spec_float)) (d : PerIsolatePlatformData)
  : Result PerIsolatePlatformData :=
  match tasks with
  | [] => Ok d
  | (t, delay) :: rest =>
      _ ← ForIsolate_by_task c;
      d' ← checked (PostDelayedTask t delay d);
      CallDelayedOnForegroundThread_each c rest d'
  end.

(** [PerIsolatePlatformData::RunForegroundTask(std::unique_ptr<Task>)]:
    [task->Run()] on this thread. *)
Definition RunForegroundTask (c : Situation) (t : Task) (d : PerIsolatePlatformData)
  : Result PerIsolatePlatformData :=
  let d1 := {| ref_count_ := ref_count_ d; loop_ := loop_ d;
               flush_tasks_ := flush_tasks_ d; wakeups := wakeups d;
               foreground_tasks_ := foreground_tasks_ d;
               foreground_delayed_tasks_ := foreground_delayed_tasks_ d;
               scheduled_delayed_tasks_ := scheduled_delayed_tasks_ d;
               executed := executed d ++ [Task_id t] |} in
  match t with
  | MkTask _ posts delayed_posts =>
      checked (d2 ← PostTask_each posts d1; PostDelayedTask_each delayed_posts d2)
  | MkPlatformTask _ posts delayed_posts =>
      d2 ← CallOnForegroundThread_each c posts d1;
      CallDelayedOnForegroundThread_each c delayed_posts d2
  end.

(** [PerIsolatePlatformData::CancelPendingDelayedTasks]. *)
Definition CancelPendingDelayedTasks (d : PerIsolatePlatformData)
  : PerIsolatePlatformData :=
  {| ref_count_ := ref_count_ d; loop_ := loop_ d;
     flush_tasks_ := flush_tasks_ d; wakeups := wakeups d;
     foreground_tasks_ := foreground_tasks_ d;
     foreground_delayed_tasks_ := foreground_delayed_tasks_ d;
     scheduled_delayed_tasks_ := []; executed := executed d |}.

(** The first loop of [FlushForegroundTasksInternal], over the delayed
    tasks still to pop: start a timer for each and keep it in
    [scheduled_delayed_tasks_]. *)
Fixpoint Flush_delayed_loop (pending : list DelayedTask) (did_work : bool)
    (d : PerIsolatePlatformData) : bool * PerIsolatePlatformData :=
  match pending with
  | [] => (did_work, d)
  | delayed :: rest =>
      let delay_millis := delay_millis (timeout delayed) in
      let started :=
        {| task := task delayed; timeout := timeout delayed;
           timer := Some {| timer_timeout := delay_millis; timer_repeat := 0 |} |} in
      Flush_delayed_loop rest true
        {| ref_count_ := ref_count_ d; loop_ := loop_ d;
           flush_tasks_ := flush_tasks_ d; wakeups := wakeups d;
           foreground_tasks_ := foreground_tasks_ d;
           foreground_delayed_tasks_ := (Pop (foreground_delayed_tasks_ d)).2;
           scheduled_delayed_tasks_ := scheduled_delayed_tasks_ d ++ [started];
           executed := executed d |}
  end.

(** The second loop, over the tasks moved out by [PopAll]. *)
Fixpoint Flush_tasks_loop (c : Situation) (tasks : list Task) (did_work : bool)
    (d : PerIsolatePlatformData) : Result (bool * PerIsolatePlatformData) :=
  match tasks with
  | [] => Ok (did_work, d)
  | t :: rest => d' ← RunForegroundTask c t d; Flush_tasks_loop c rest true d'
  end.

(** [PerIsolatePlatformData::FlushForegroundTasksInternal].  [Abort]: a
    [CHECK] fails in a task that posts to a runner without its handle, or
    for an isolate that is not registered.  [Wait]: a task waits for
    [per_isolate_mutex_]. *)
Definition FlushForegroundTasksInternal (c : Situation) (d : PerIsolatePlatformData)
  : Result (bool * PerIsolatePlatformData) :=
  let '(did_work, d1) :=
    Flush_delayed_loop (task_queue_ (foreground_delayed_tasks_ d)) false d in
  let '(tasks, q) := PopAll (foreground_tasks_ d1) in
  Flush_tasks_loop c tasks did_work
    {| ref_count_ := ref_count_ d1; loop_ := loop_ d1;
       flush_tasks_ := flush_tasks_ d1; wakeups := wakeups d1;
       foreground_tasks_ := q;
       foreground_delayed_tasks_ := foreground_delayed_tasks_ d1;
       scheduled_delayed_tasks_ := scheduled_delayed_tasks_ d1;
       executed := executed d1 |}.

(** What is still to run or to start: the queued tasks and delayed tasks
    with all they will post. *)
Definition pending_weight (d : PerIsolatePlatformData) : nat :=
  list_sum (List.map Task_weight (task_queue_ (foreground_tasks_ d)))
  + list_sum (List.map (λ x, Task_weight (task x))
                (task_queue_ (foreground_delayed_tasks_ d))).

(** [while (FlushForegroundTasksInternal()) {}]. *)
Fixpoint Flush_until_idle (c : Situation) (fuel : nat) (d : PerIsolatePlatformData)
  : Result PerIsolatePlatformData :=
  match fuel with
  | O => Wait
  | S fuel' =>
      match FlushForegroundTasksInternal c d with
      | Ok (true, d') => Flush_until_idle c fuel' d'
      | Ok (false, d') => Ok d'
      | Abort => Abort
      | Wait => Wait
      end
  end.

(** [PerIsolatePlatformData::Shutdown].  Every pass that did work leaves
    less to run, so one pass more than [pending_weight] is enough. *)
Definition Shutdown (c : Situation) (d : PerIsolatePlatformData)
  : Result PerIsolatePlatformData :=
  if flush_tasks_ d then
    match Flush_until_idle c (S (pending_weight d)) d with
    | Ok d1 =>
        let d2 := CancelPendingDelayedTasks d1 in
        Ok {| ref_count_ := ref_count_ d2; loop_ := loop_ d2;
              flush_tasks_ := false; wakeups := wakeups d2;
              foreground_tasks_ := foreground_tasks_ d2;
              foreground_delayed_tasks_ := foreground_delayed_tasks_ d2;
              scheduled_delayed_tasks_ := scheduled_delayed_tasks_ d2;
              executed := executed d2 |}
    | Abort => Abort
    | Wait => Wait
    end
  else Ok d.

(** *** NodePlatform *)

(** The platform: the [PerIsolatePlatformData] objects made so far, by
    address, and [per_isolate_], from an isolate to a shared pointer
    ([None] when null). *)
Record NodePlatform : Type := {
  runners : list PerIsolatePlatformData;
  per_isolate_ : gmap nat (option nat)
}.

(** [NodePlatform::NodePlatform]. *)
Definition NodePlatform_new : NodePlatform :=
  {| runners := []; per_isolate_ := ∅ |}.

(** [per_isolate_[isolate]]: an absent key is inserted with a null
    pointer. *)
Definition per_isolate_index (isolate : nat) (m : gmap nat (option nat))
  : gmap nat (option nat) * option nat :=
  match m !! isolate with
  | Some existing => (m, existing)
  | None => (<[isolate := None]> m, None)
  end.

(** [NodePlatform::RegisterIsolate]. *)
Definition RegisterIsolate (isolate loop : nat) (p : NodePlatform)
  : Result NodePlatform :=
  let '(m, existing) := per_isolate_index isolate (per_isolate_ p) in
  match existing with
  | Some a =>
      match runners p !! a with
      | Some d =>
          if bool_decide (loop = event_loop d)
          then Ok {| runners := <[a := ref d]> (runners p); per_isolate_ := m |}
          else Abort
      | None => Abort
      end
  | None =>
      Ok {| runners := runners p ++ [PerIsolatePlatformData_new loop];
            per_isolate_ := <[isolate := Some (length (runners p))]> m |}
  end.

(** [NodePlatform::UnregisterIsolate].  The [ScopedLock] on
    [per_isolate_mutex_] lives to the end of the function: [Shutdown],
    and with it the tasks still queued, run while this thread holds the
    mutex. *)
Definition UnregisterIsolate (isolate : nat) (p : NodePlatform)
  : Result NodePlatform :=
  let '(m, existing) := per_isolate_index isolate (per_isolate_ p) in
  match existing with
  | Some a =>
      match runners p !! a with
      | Some d =>
          let '(d1, n) := unref d in
          if bool_decide (n = 0%Z) then
            match Shutdown MutexHeld d1 with
            | Ok d2 => Ok {| runners := <[a := d2]> (runners p);
                             per_isolate_ := delete isolate m |}
            | Abort => Abort
            | Wait => Wait
            end
          else Ok {| runners := <[a := d1]> (runners p); per_isolate_ := m |}
      | None => Abort
      end
  | None => Abort
  end.

(** [NodePlatform::ForIsolate].  [Abort]: [CHECK(data)] fails.  The
    [ScopedLock] ends with the function: the mutex is free again when
    the caller uses the runner. *)
Definition ForIsolate (isolate : nat) (p : NodePlatform)
  : Result (NodePlatform * nat) :=
  let '(m, data) := per_isolate_index isolate (per_isolate_ p) in
  match data with
  | Some a => Ok ({| runners := runners p; per_isolate_ := m |}, a)
  | None => Abort
  end.

(** What [ForIsolate] comes to for a task that runs on the runner at
    address [a], on a thread that does not hold the mutex: whether an
    isolate is registered with that runner. *)
Definition Situation_of (a : nat) (p : NodePlatform) : Situation :=
  if bool_decide (map_Exists (λ _ existing, existing = Some a) (per_isolate_ p))
  then Registered else NotRegistered.

(** [NodePlatform::FlushForegroundTasks].  The runner is the one
    [ForIsolate] has just found for the isolate. *)
Definition FlushForegroundTasks (isolate : nat) (p : NodePlatform)
  : Result (NodePlatform * bool) :=
  match ForIsolate isolate p with
  | Ok (p1, a) =>
      match runners p1 !! a with
      | Some d =>
          match FlushForegroundTasksInternal Registered d with
          | Ok (did_work, d') =>
              Ok ({| runners := <[a := d']> (runners p1);
                     per_isolate_ := per_isolate_ p1 |}, did_work)
          | Abort => Abort
          | Wait => Wait
          end
      | None => Abort
      end
  | Abort => Abort
  | Wait => Wait
  end.

(** *** The worker runner, timers and the calls of the platform *)

(** [V8Task]: a [v8::Task] wrapped for the pool; its [Run()] runs the
    wrapped task. *)
Definition V8Task (task : Task) : threadpool.Task :=
  threadpool.Task_new (Task_id task).

(** [DelayedTaskScheduler::TakeTimerTask]: the timer (the [i]-th of
    [timers_]) is stopped, closed and erased; its task comes back wrapped
    in a [V8Task].  [None]: there is no such timer. *)
Definition TakeTimerTask (i : nat) (s : DelayedTaskScheduler)
  : option (threadpool.Task * DelayedTaskScheduler) :=
  '(_, task) ← timers_ s !! i;
  Some (V8Task task,
        {| tasks_ := tasks_ s; timers_ := delete i (timers_ s);
           scheduler_wakeups := scheduler_wakeups s;
           scheduler_closed := scheduler_closed s |}).

(** [DelayedTaskScheduler::RunTask], the callback of a timer: the task is
    taken from the timer and posted to the pool [tp_].  [Wait]: the
    timer does not exist, so that it cannot fire. *)
Definition RunTask (i : nat) (s : DelayedTaskScheduler) (tp : threadpool.Threadpool)
  : Result (DelayedTaskScheduler * threadpool.Threadpool) :=
  match TakeTimerTask i s with
  | Some (v8task, s') =>
      match threadpool.Post v8task tp with
      | Ok (tp', _) => Ok (s', tp')
      | Abort => Abort
      | Wait => Wait
      end
  | None => Wait
  end.

(** [WorkerThreadsTaskRunner]: the pool it posts to and its scheduler of
    delayed tasks. *)
Record WorkerThreadsTaskRunner : Type := {
  tp_ : threadpool.Threadpool;
  delayed_task_scheduler_ : DelayedTaskScheduler
}.

(** [WorkerThreadsTaskRunner::WorkerThreadsTaskRunner]. *)
Definition WorkerThreadsTaskRunner_new (tp : threadpool.Threadpool)
  : WorkerThreadsTaskRunner :=
  {| tp_ := tp;
     delayed_task_scheduler_ :=
       {| tasks_ := TaskQueue_new; timers_ := []; scheduler_wakeups := 0;
          scheduler_closed := false |} |}.

(** [WorkerThreadsTaskRunner::PostTask]. *)
Definition WorkerThreadsTaskRunner_PostTask (task : Task)
    (w : WorkerThreadsTaskRunner) : Result WorkerThreadsTaskRunner :=
  match threadpool.Post (V8Task task) (tp_ w) with
  | Ok (tp', _) =>
      Ok {| tp_ := tp'; delayed_task_scheduler_ := delayed_task_scheduler_ w |}
  | Abort => Abort
  | Wait => Wait
  end.

(** [WorkerThreadsTaskRunner::PostDelayedTask]. *)
Definition WorkerThreadsTaskRunner_PostDelayedTask (task : Task)
    (delay_in_seconds : spec_float) (w : WorkerThreadsTaskRunner)
  : WorkerThreadsTaskRunner :=
  {| tp_ := tp_ w;
     delayed_task_scheduler_ :=
       DelayedTaskScheduler_PostDelayedTask task delay_in_seconds
         (delayed_task_scheduler_ w) |}.

(** [WorkerThreadsTaskRunner::BlockingDrain]: its body is a comment. *)
Definition WorkerThreadsTaskRunner_BlockingDrain (w : WorkerThreadsTaskRunner)
  : WorkerThreadsTaskRunner := w.

(** [WorkerThreadsTaskRunner::Shutdown]. *)
Definition WorkerThreadsTaskRunner_Shutdown (w : WorkerThreadsTaskRunner)
  : WorkerThreadsTaskRunner :=
  {| tp_ := tp_ w;
     delayed_task_scheduler_ := DelayedTaskScheduler_Stop (delayed_task_scheduler_ w) |}.

(** [WorkerThreadsTaskRunner::NumberOfWorkerThreads]. *)
Definition WorkerThreadsTaskRunner_NumberOfWorkerThreads
    (w : WorkerThreadsTaskRunner) : Z :=
  threadpool.NWorkers (tp_ w).

(** The scheduler's thread handles a wakeup ([FlushTasks]), and the
    [i]-th timer fires ([RunTask]). *)
Definition WorkerThreadsTaskRunner_FlushTasks (w : WorkerThreadsTaskRunner)
  : WorkerThreadsTaskRunner :=
  {| tp_ := tp_ w;
     delayed_task_scheduler_ := FlushTasks (delayed_task_scheduler_ w) |}.

Definition WorkerThreadsTaskRunner_RunTask (i : nat) (w : WorkerThreadsTaskRunner)
  : Result WorkerThreadsTaskRunner :=
  match RunTask i (delayed_task_scheduler_ w) (tp_ w) with
  | Ok (s', tp') => Ok {| tp_ := tp'; delayed_task_scheduler_ := s' |}
  | Abort => Abort
  | Wait => Wait
  end.

(** [PerIsolatePlatformData::DeleteFromScheduledTasks]: the task is the
    [i]-th of [scheduled_delayed_tasks_].  [None]: [CHECK_NE] fails, the
    task is not in the list. *)
Definition DeleteFromScheduledTasks (i : nat) (d : PerIsolatePlatformData)
  : option PerIsolatePlatformData :=
  if decide (i < length (scheduled_delayed_tasks_ d)) then
    Some {| ref_count_ := ref_count_ d; loop_ := loop_ d;
            flush_tasks_ := flush_tasks_ d; wakeups := wakeups d;
            foreground_tasks_ := foreground_tasks_ d;
            foreground_delayed_tasks_ := foreground_delayed_tasks_ d;
            scheduled_delayed_tasks_ := delete i (scheduled_delayed_tasks_ d);
            executed := executed d |}
  else None.

(** [PerIsolatePlatformData::RunForegroundTask] on a [uv_timer_t], the
    callback of the timer of the [i]-th scheduled delayed task: run the
    task, then erase it from the list.  [Wait]: there is no such timer,
    so that it cannot fire. *)
Definition RunForegroundTask_timer (c : Situation) (i : nat)
    (d : PerIsolatePlatformData) : Result PerIsolatePlatformData :=
  match scheduled_delayed_tasks_ d !! i with
  | Some delayed =>
      d1 ← RunForegroundTask c (task delayed) d;
      checked (DeleteFromScheduledTasks i d1)
  | None => Wait
  end.

(** The runner of an isolate takes a step [f]; the other runners stay. *)
Definition on_runner (isolate : nat)
    (f : PerIsolatePlatformData → Result PerIsolatePlatformData)
    (p : NodePlatform) : Result NodePlatform :=
  match ForIsolate isolate p with
  | Ok (p1, a) =>
      match runners p1 !! a with
      | Some d =>
          match f d with
          | Ok d' => Ok {| runners := <[a := d']> (runners p1);
                           per_isolate_ := per_isolate_ p1 |}
          | Abort => Abort
          | Wait => Wait
          end
      | None => Abort
      end
  | Abort => Abort
  | Wait => Wait
  end.

(** [NodePlatform::CallOnForegroundThread]. *)
Definition CallOnForegroundThread (isolate : nat) (task : Task) (p : NodePlatform)
  : Result NodePlatform :=
  on_runner isolate (λ d, checked (PostTask task d)) p.

(** [NodePlatform::CallDelayedOnForegroundThread]. *)
Definition CallDelayedOnForegroundThread (isolate : nat) (task : Task)
    (delay_in_seconds : spec_float) (p : NodePlatform) : Result NodePlatform :=
  on_runner isolate (λ d, checked (PostDelayedTask task delay_in_seconds d)) p.

(** [NodePlatform::CancelPendingDelayedTasks]. *)
Definition NodePlatform_CancelPendingDelayedTasks (isolate : nat) (p : NodePlatform)
  : Result NodePlatform :=
  on_runner isolate (λ d, Ok (CancelPendingDelayedTasks d)) p.

(** [NodePlatform::DrainTasks]: the call of
    [WorkerThreadsTaskRunner::BlockingDrain] in the loop does nothing, so
    that the loop is [FlushForegroundTasksInternal] repeated until it
    returns false.  The runner is the one [ForIsolate] has found, and
    the mutex is free again while its tasks run. *)
Definition DrainTasks (isolate : nat) (p : NodePlatform) : Result NodePlatform :=
  on_runner isolate (λ d, Flush_until_idle Registered (S (pending_weight d)) d) p.

(** [NodePlatform::IdleTasksEnabled]. *)
Definition IdleTasksEnabled (isolate : nat) : bool := false.

End platform.

(** ** Part II: the specification's notions, the invariants, sample states *)

Module spec.
Import threadpool.

(** The table of legal transitions of a [TaskState]. *)
Inductive legal : State → State → Prop :=
| legal_INITIAL_QUEUED : legal INITIAL QUEUED
| legal_INITIAL_CANCELLED : legal INITIAL CANCELLED
| legal_QUEUED_ASSIGNED : legal QUEUED ASSIGNED
| legal_QUEUED_CANCELLED : legal QUEUED CANCELLED
| legal_ASSIGNED_COMPLETED : legal ASSIGNED COMPLETED
| legal_ASSIGNED_CANCELLED : legal ASSIGNED CANCELLED
| legal_CANCELLED_COMPLETED : legal CANCELLED COMPLETED.

(** A state path from [s]: every observed state is the one before it (a
    request that was not legal) or one legal transition away from it. *)
Fixpoint walk (s : State) (path : list State) : Prop :=
  match path with
  | [] => True
  | s' :: rest => (s' = s ∨ legal s s') ∧ walk s' rest
  end.

(** Rounding a rational to an integer, halves to the even neighbour. *)
Definition round_half_even (q : Q) : Z :=
  let f := Qfloor q in
  match (q - inject_Z f ?= 1 # 2)%Q with
  | Lt => f
  | Gt => (f + 1)%Z
  | Eq => if Z.even f then f else (f + 1)%Z
  end.

(** Rounding a rational to an integer, halves upwards. *)
Definition round_half_up (q : Q) : Z :=
  let f := Qfloor q in
  match (q - inject_Z f ?= 1 # 2)%Q with
  | Lt => f
  | _ => (f + 1)%Z
  end.

(** The state of the [TaskState] a task points to. *)
Definition handle_state (heap : list TaskState) (task : Task) : option State :=
  h ← task_state_ task;
  ts ← heap !! h;
  Some (state_ ts).

(** The states of a task that waits in the queue or was just popped, and
    of a task a worker owns after [TryUpdateState(ASSIGNED)]. *)
Definition waiting (s : State) : Prop := s = QUEUED ∨ s = CANCELLED.
Definition in_hand (s : State) : Prop := s = ASSIGNED ∨ s = CANCELLED.

(** The task points to an object whose state satisfies [P]. *)
Definition task_in (heap : list TaskState) (P : State → Prop) (task : Task) : Prop :=
  ∃ s, handle_state heap task = Some s ∧ P s.

(** The task a worker owns, if any. *)
Definition held (w : Worker) : option Task :=
  match w with
  | AtTryAssign task | AtRun task | AtTryComplete task => Some task
  | AtBlockingPop | AtNotify | Returned => None
  end.

(** Whether the task, or the worker's task, points to object [h]. *)
Definition names (h : nat) (task : Task) : nat :=
  if decide (task_state_ task = Some h) then 1 else 0.
Definition Worker_names (h : nat) (w : Worker) : nat :=
  match held w with Some task => names h task | None => 0 end.

(** A worker between a pop and its [NotifyOfCompletion]. *)
Definition busy (w : Worker) : nat :=
  match w with
  | AtBlockingPop | Returned => 0
  | AtTryAssign _ | AtRun _ | AtTryComplete _ | AtNotify => 1
  end.

(** How many owners (queue slots and workers) the object [h] has. *)
Definition owners (h : nat) (tp : Threadpool) : nat :=
  sum_list_with (names h) (queue_ (Threadpool_queue_ tp))
  + sum_list_with (Worker_names h) (workers_ tp).

(** What a worker's position says about its task. *)
Definition Worker_ok (heap : list TaskState) (w : Worker) : Prop :=
  match w with
  | AtTryAssign task => task_in heap waiting task
  | AtRun task | AtTryComplete task => task_in heap in_hand task
  | AtBlockingPop | AtNotify | Returned => True
  end.

(** The invariant of the pool: queued tasks are QUEUED or CANCELLED, a
    worker's task is in the state its position implies, a [TaskState] has
    at most one owner (tasks are [unique_ptr]s and each gets a fresh
    state), [outstanding_tasks_] counts the queued tasks and the busy
    workers, the tasks that ran have a state, there is a worker, and a
    worker has returned only from a stopped and empty queue. *)
Record Inv (tp : Threadpool) : Prop := {
  inv_queue : Forall (task_in (heap tp) waiting) (queue_ (Threadpool_queue_ tp));
  inv_workers : Forall (Worker_ok (heap tp)) (workers_ tp);
  inv_unique : ∀ h, owners h tp ≤ 1;
  inv_outstanding :
    outstanding_tasks_ (Threadpool_queue_ tp)
    = Z.of_nat (length (queue_ (Threadpool_queue_ tp))
                + sum_list_with busy (workers_ tp));
  inv_ran : Forall (task_in (heap tp) (λ _, True)) (ran tp);
  inv_size : 0 < length (workers_ tp);
  inv_returned :
    (∃ j, workers_ tp !! j = Some Returned) →
    stopped_ (Threadpool_queue_ tp) = true ∧ queue_ (Threadpool_queue_ tp) = []
}.

(** The pool states that can arise: from a new pool of at least one
    worker ([CHECK_GT(threadpool_size_, 0)]), by any interleaving. *)
Definition reachable (tp : Threadpool) : Prop :=
  ∃ (threadpool_size : nat) (trace : list Action),
    0 < threadpool_size ∧ exec trace (Threadpool_new threadpool_size) = Ok tp.

(** The steps a worker has left before it can return, when the queue
    holds no more tasks. *)
Definition Worker_cost (w : Worker) : nat :=
  match w with
  | Returned => 0
  | AtBlockingPop => 1
  | AtNotify => 2
  | AtTryComplete _ => 3
  | AtRun _ => 4
  | AtTryAssign _ => 5
  end.

(** The object [h] belongs to a task that was dropped: nothing owns it,
    no task that ran points to it, and it is INITIAL or CANCELLED. *)
Definition dropped (h : nat) (tp : Threadpool) : Prop :=
  owners h tp = 0
  ∧ sum_list_with (names h) (ran tp) = 0
  ∧ (heap tp !! h = Some {| state_ := INITIAL |}
     ∨ heap tp !! h = Some {| state_ := CANCELLED |}).

(** The object [h] has an owner that will complete it, or is already
    COMPLETED. *)
Definition settled (h : nat) (tp : Threadpool) : Prop :=
  1 ≤ owners h tp ∨ heap tp !! h = Some {| state_ := COMPLETED |}.

(** Counting a given task in the queue, among the workers that have
    popped it and not yet tried to assign it, among those about to run
    it, and among the tasks that ran. *)
Definition is_task (t x : Task) : nat := if decide (x = t) then 1 else 0.
Definition popped (t : Task) (w : Worker) : nat :=
  match w with AtTryAssign x => is_task t x | _ => 0 end.
Definition running (t : Task) (w : Worker) : nat :=
  match w with AtRun x => is_task t x | _ => 0 end.

(** The task [t], of state [h], will run or has run: it is QUEUED and
    in the queue or just popped, or a worker is about to run it, or it
    ran. *)
Definition will_run (t : Task) (h : nat) (tp : Threadpool) : Prop :=
  (1 ≤ sum_list_with (is_task t) (queue_ (Threadpool_queue_ tp))
       + sum_list_with (popped t) (workers_ tp)
   ∧ heap tp !! h = Some {| state_ := QUEUED |})
  ∨ 1 ≤ sum_list_with (running t) (workers_ tp)
  ∨ 1 ≤ sum_list_with (is_task t) (ran tp).

(** Every worker has returned: the joins of the destructor are over. *)
Definition all_returned (tp : Threadpool) : Prop :=
  Forall (λ w, w = Returned) (workers_ tp).

(** An interleaving made of worker steps only. *)
Definition worker_steps (trace : list Action) : Prop :=
  Forall (λ a, ∃ i, a = WorkerStep i) trace.

(** A pool of one worker, one task posted, the queue then stopped: the
    task is still queued and no worker has popped it. *)
Definition stopped_with_one_queued : Threadpool :=
  {| heap := [{| state_ := QUEUED |}];
     Threadpool_queue_ :=
       {| queue_ := [{| Run_ := 7; task_state_ := Some 0 |}];
          outstanding_tasks_ := 1; stopped_ := true;
          task_available_ := [Signal; Broadcast]; tasks_drained_ := [] |};
     workers_ := [AtBlockingPop]; ran := [] |}.

(** A worker that ran its task while a holder cancelled it. *)
Definition cancelled_while_running : Threadpool :=
  {| heap := [{| state_ := CANCELLED |}];
     Threadpool_queue_ :=
       {| queue_ := []; outstanding_tasks_ := 1; stopped_ := false;
          task_available_ := [Signal]; tasks_drained_ := [] |};
     workers_ := [AtTryComplete {| Run_ := 7; task_state_ := Some 0 |}];
     ran := [{| Run_ := 7; task_state_ := Some 0 |}] |}.

(** How far a state is along the life of a task. *)
Definition rank (s : State) : nat :=
  match s with
  | INITIAL => 0
  | QUEUED => 1
  | ASSIGNED => 2
  | CANCELLED => 3
  | COMPLETED => 4
  end.

(** The number of state changes along a path of observed states that
    starts from [s]. *)
Fixpoint changes (s : State) (path : list State) : nat :=
  match path with
  | [] => 0
  | s' :: rest => (if decide (s' = s) then 0 else 1) + changes s' rest
  end.

(** Whether a worker holds a task of state [h] that it has not run yet,
    and whether it is about to run one. *)
Definition before_run (h : nat) (w : Worker) : nat :=
  match w with
  | AtTryAssign task | AtRun task => names h task
  | _ => 0
  end.
Definition at_run (h : nat) (w : Worker) : nat :=
  match w with
  | AtRun task => names h task
  | _ => 0
  end.

(** A worker that holds nothing and owes no [NotifyOfCompletion]. *)
Definition idle (w : Worker) : Prop := w = AtBlockingPop ∨ w = Returned.

(** The steps a worker needs to finish what it has popped, and the steps
    the workers need to finish everything popped or queued. *)
Definition busy_cost (w : Worker) : nat :=
  match w with
  | AtTryAssign _ => 4
  | AtRun _ => 3
  | AtTryComplete _ => 2
  | AtNotify => 1
  | AtBlockingPop | Returned => 0
  end.
Definition drain_cost (tp : Threadpool) : nat :=
  sum_list_with busy_cost (workers_ tp)
  + 5 * length (queue_ (Threadpool_queue_ tp)).

(** The pool with worker [i] at position [w]. *)
Definition with_worker (i : nat) (w : Worker) (tp : Threadpool) : Threadpool :=
  {| heap := heap tp; Threadpool_queue_ := Threadpool_queue_ tp;
     workers_ := <[i := w]> (workers_ tp); ran := ran tp |}.

(** The pool with the object [h] in state [s]. *)
Definition with_state (h : nat) (s : State) (tp : Threadpool) : Threadpool :=
  {| heap := <[h := {| state_ := s |}]> (heap tp);
     Threadpool_queue_ := Threadpool_queue_ tp;
     workers_ := workers_ tp; ran := ran tp |}.

(** The steps of a worker that return, in a pool that keeps its
    invariant: one for each path through the loop of [Worker::_Run]. *)
Inductive Worker_move (i : nat) (tp : Threadpool) : Threadpool → Prop :=
| move_pop task rest :
    workers_ tp !! i = Some AtBlockingPop →
    queue_ (Threadpool_queue_ tp) = task :: rest →
    Worker_move i tp
      {| heap := heap tp; Threadpool_queue_ := (Pop (Threadpool_queue_ tp)).2;
         workers_ := <[i := AtTryAssign task]> (workers_ tp); ran := ran tp |}
| move_return :
    workers_ tp !! i = Some AtBlockingPop →
    queue_ (Threadpool_queue_ tp) = [] →
    stopped_ (Threadpool_queue_ tp) = true →
    Worker_move i tp (with_worker i Returned tp)
| move_assign task h :
    workers_ tp !! i = Some (AtTryAssign task) →
    task_state_ task = Some h →
    heap tp !! h = Some {| state_ := QUEUED |} →
    Worker_move i tp (with_state h ASSIGNED (with_worker i (AtRun task) tp))
| move_skip task h :
    workers_ tp !! i = Some (AtTryAssign task) →
    task_state_ task = Some h →
    heap tp !! h = Some {| state_ := CANCELLED |} →
    Worker_move i tp (with_worker i (AtTryComplete task) tp)
| move_run task :
    workers_ tp !! i = Some (AtRun task) →
    Worker_move i tp
      {| heap := heap tp; Threadpool_queue_ := Threadpool_queue_ tp;
         workers_ := <[i := AtTryComplete task]> (workers_ tp);
         ran := ran tp ++ [task] |}
| move_complete task h s :
    workers_ tp !! i = Some (AtTryComplete task) →
    task_state_ task = Some h →
    heap tp !! h = Some {| state_ := s |} → in_hand s →
    Worker_move i tp (with_state h COMPLETED (with_worker i AtNotify tp))
| move_notify q' :
    workers_ tp !! i = Some AtNotify →
    NotifyOfCompletion (Threadpool_queue_ tp) = Some q' →
    queue_ q' = queue_ (Threadpool_queue_ tp) →
    stopped_ q' = stopped_ (Threadpool_queue_ tp) →
    outstanding_tasks_ q' = (outstanding_tasks_ (Threadpool_queue_ tp) - 1)%Z →
    Worker_move i tp
      {| heap := heap tp; Threadpool_queue_ := q';
         workers_ := <[i := AtBlockingPop]> (workers_ tp); ran := ran tp |}.

(** No two tasks that wait, are held before their run, or ran, share a
    [TaskState]. *)
Definition run_once (tp : Threadpool) : Prop :=
  ∀ h, sum_list_with (names h) (queue_ (Threadpool_queue_ tp))
       + sum_list_with (before_run h) (workers_ tp)
       + sum_list_with (names h) (ran tp) ≤ 1.

(** The task of state [h] was cancelled before any worker could run it. *)
Definition never_runs (h : nat) (tp : Threadpool) : Prop :=
  sum_list_with (names h) (ran tp) = 0
  ∧ sum_list_with (at_run h) (workers_ tp) = 0
  ∧ (heap tp !! h = Some {| state_ := CANCELLED |}
     ∨ heap tp !! h = Some {| state_ := COMPLETED |}).

(** What the workers have left to do before all of them can return. *)
Definition pool_cost (tp : Threadpool) : nat :=
  sum_list_with Worker_cost (workers_ tp)
  + 5 * length (queue_ (Threadpool_queue_ tp)).

(** A pool of one worker with one task posted and not yet popped. *)
Definition one_queued : Threadpool :=
  {| heap := [{| state_ := QUEUED |}];
     Threadpool_queue_ :=
       {| queue_ := [{| Run_ := 7; task_state_ := Some 0 |}];
          outstanding_tasks_ := 1; stopped_ := false;
          task_available_ := [Signal]; tasks_drained_ := [] |};
     workers_ := [AtBlockingPop]; ran := [] |}.

(** A task that a worker has popped: it is in a worker's hands, or it
    ran. *)
Definition taken (tp : Threadpool) (t : Task) : Prop :=
  t ∈ ran tp ∨ ∃ i w, workers_ tp !! i = Some w ∧ held w = Some t.

(** The queue is in the order of the posts: the handles grow along the
    queue, and a task already popped has a smaller handle than every
    queued task. *)
Record fifo (tp : Threadpool) : Prop := {
  fifo_queue :
    ∀ i j t t' h h', i < j →
      queue_ (Threadpool_queue_ tp) !! i = Some t →
      queue_ (Threadpool_queue_ tp) !! j = Some t' →
      task_state_ t = Some h → task_state_ t' = Some h' → h < h';
  fifo_taken :
    ∀ t t' h h', taken tp t → t' ∈ queue_ (Threadpool_queue_ tp) →
      task_state_ t = Some h → task_state_ t' = Some h' → h < h'
}.

(** A pool of one worker after two posts and a pop: the worker holds the
    first task, the second waits. *)
Definition one_taken_one_queued : Threadpool :=
  {| heap := [{| state_ := QUEUED |}; {| state_ := QUEUED |}];
     Threadpool_queue_ :=
       {| queue_ := [{| Run_ := 8; task_state_ := Some 1 |}];
          outstanding_tasks_ := 2; stopped_ := false;
          task_available_ := [Signal; Signal]; tasks_drained_ := [] |};
     workers_ := [AtTryAssign {| Run_ := 7; task_state_ := Some 0 |}];
     ran := [] |}.

End spec.

Module platform_spec.
Import platform.

(** The doubles written 0.4, 1.499, 1.5 and 2.5 (0.5 is
    [platform.double_0_5]): mantissa and exponent of the binary64 value
    nearest to each. *)
Definition double_0_4 : spec_float := S754_finite false 7205759403792794 (-54).
Definition double_1_499 : spec_float := S754_finite false 6750895841428374 (-52).
Definition double_1_5 : spec_float := S754_finite false 6755399441055744 (-52).
Definition double_2_5 : spec_float := S754_finite false 5629499534213120 (-51).

(** The doubles written 0.1 and 1.7. *)
Definition double_0_1 : spec_float := S754_finite false 7205759403792794 (-56).
Definition double_1_7 : spec_float := S754_finite false 7656119366529843 (-52).

(** A delay that is a number and is not negative: zero or a positive
    finite double. *)
Definition nonnegative (d : spec_float) : bool :=
  match d with
  | S754_zero _ | S754_finite false _ _ => true
  | _ => false
  end.

(** The delayed task a running task posts, as [PostDelayedTask] queues
    it, and a queued delayed task once its timer is started. *)
Definition delayed_post (p : Task * spec_float) : DelayedTask :=
  {| task := p.1; timeout := p.2; timer := None |}.

Definition started (x : DelayedTask) : DelayedTask :=
  {| task := task x; timeout := timeout x;
     timer := Some {| timer_timeout := delay_millis (timeout x); timer_repeat := 0 |} |}.

(** What the properties observe of a runner. *)
Definition runner_view (r : PerIsolatePlatformData) :=
  (ref_count_ r, loop_ r, flush_tasks_ r,
   task_queue_ (foreground_tasks_ r),
   task_queue_ (foreground_delayed_tasks_ r),
   scheduled_delayed_tasks_ r, executed r).

(** Whether a list has an element. *)
Definition nonempty {A : Type} (l : list A) : bool :=
  match l with [] => false | _ :: _ => true end.

(** A scheduler with nothing queued and no timer, and a runner with one
    delayed task of half a second queued. *)
Definition idle_scheduler : DelayedTaskScheduler :=
  {| tasks_ := TaskQueue_new; timers_ := []; scheduler_wakeups := 0;
     scheduler_closed := false |}.

Definition runner_with_half_a_second : PerIsolatePlatformData :=
  {| ref_count_ := 1; loop_ := 0; flush_tasks_ := true; wakeups := 1;
     foreground_tasks_ := TaskQueue_new;
     foreground_delayed_tasks_ :=
       {| task_queue_ := [{| task := MkTask 1 [] []; timeout := double_0_5;
                             timer := None |}];
          outstanding_tasks_ := 1; stopped_ := false |};
     scheduled_delayed_tasks_ := []; executed := [] |}.

(** A runner with two tasks queued, the first of which posts a task and
    a delayed task when it runs, and one delayed task of 2.5 s queued. *)
Definition busy_runner : PerIsolatePlatformData :=
  {| ref_count_ := 1; loop_ := 0; flush_tasks_ := true; wakeups := 3;
     foreground_tasks_ :=
       {| task_queue_ := [MkTask 1 [MkTask 3 [] []] [(MkTask 4 [] [], double_0_5)];
                          MkTask 2 [] []];
          outstanding_tasks_ := 2; stopped_ := false |};
     foreground_delayed_tasks_ :=
       {| task_queue_ := [{| task := MkTask 5 [] []; timeout := double_2_5;
                             timer := None |}];
          outstanding_tasks_ := 1; stopped_ := false |};
     scheduled_delayed_tasks_ := []; executed := [] |}.

(** The largest double below 0.5. *)
Definition double_below_0_5 : spec_float := S754_finite false 9007199254740991 (-54).

(** Pushing the elements of a list in order, and popping [n] times: the
    values returned, oldest first, and the queue afterwards. *)
Definition Push_each {T : Type} (xs : list T) (q : TaskQueue T) : TaskQueue T :=
  foldl (λ q x, Push x q) q xs.

Fixpoint Pop_each {T : Type} (n : nat) (q : TaskQueue T)
  : list (option T) * TaskQueue T :=
  match n with
  | O => ([], q)
  | S n' =>
      let '(x, q1) := Pop q in
      let '(xs, q2) := Pop_each n' q1 in
      (x :: xs, q2)
  end.

(** The timer a scheduler command starts. *)
Definition armed (command : SchedulerTask) : list (uv_timer_t * Task) :=
  match command with
  | StopTask => []
  | ScheduleTask task delay_in_seconds =>
      [({| timer_timeout := delay_millis delay_in_seconds; timer_repeat := 0 |}, task)]
  end.

(** A command that schedules a task. *)
Definition schedules (command : SchedulerTask) : Prop :=
  ∃ task delay_in_seconds, command = ScheduleTask task delay_in_seconds.

(** The tasks that repeated flushes run: the queued tasks, then the
    tasks these post when they run, and so on for [fuel] rounds; and the
    delayed tasks posted along the way. *)
Fixpoint generations (fuel : nat) (tasks : list Task) : list Task :=
  match fuel with
  | O => []
  | S fuel' => tasks ++ generations fuel' (concat (map Task_posts tasks))
  end.

Fixpoint delayed_generations (fuel : nat) (tasks : list Task) : list DelayedTask :=
  match fuel with
  | O => []
  | S fuel' =>
      concat (map (λ t, map delayed_post (Task_delayed_posts t)) tasks)
      ++ delayed_generations fuel' (concat (map Task_posts tasks))
  end.

(** Whether one of the tasks posts through the platform, and the tasks
    that repeated flushes run in all. *)
Definition reach_the_platform (tasks : list Task) : bool :=
  existsb posts_through_platform tasks.

Definition all_generations (tasks : list Task) : list Task :=
  generations (list_sum (map Task_weight tasks)) tasks.

(** Whether [Shutdown] of a runner comes to run a task that posts
    through the platform: the runner has its handle, and one of the
    tasks queued, or posted by a task that [Shutdown] runs, does. *)
Definition Shutdown_reaches_the_platform (r : PerIsolatePlatformData) : bool :=
  flush_tasks_ r
  && reach_the_platform (all_generations (task_queue_ (foreground_tasks_ r))).

(** What the embedder, the engine and the loops do with the platform:
    the calls of [NodePlatform] that concern foreground tasks, and the
    firing of the timer of the [i]-th scheduled delayed task of the
    runner at address [a]. *)
Inductive Call : Type :=
| CallRegister (isolate loop : nat)
| CallUnregister (isolate : nat)
| CallForeground (isolate : nat) (task : Task)
| CallDelayedForeground (isolate : nat) (task : Task) (delay_in_seconds : spec_float)
| CallFlush (isolate : nat)
| CallDrain (isolate : nat)
| CallCancelDelayed (isolate : nat)
| TimerFires (a i : nat).

(** One call.  A timer that does not exist cannot fire ([Wait]); the
    callback of a timer runs on the thread of the loop, which does not
    hold the mutex of the platform. *)
Definition call (c : Call) (p : NodePlatform) : Result NodePlatform :=
  match c with
  | CallRegister isolate loop => RegisterIsolate isolate loop p
  | CallUnregister isolate => UnregisterIsolate isolate p
  | CallForeground isolate task => CallOnForegroundThread isolate task p
  | CallDelayedForeground isolate task delay_in_seconds =>
      CallDelayedOnForegroundThread isolate task delay_in_seconds p
  | CallFlush isolate =>
      match FlushForegroundTasks isolate p with
      | Ok (p', _) => Ok p'
      | Abort => Abort
      | Wait => Wait
      end
  | CallDrain isolate => DrainTasks isolate p
  | CallCancelDelayed isolate => NodePlatform_CancelPendingDelayedTasks isolate p
  | TimerFires a i =>
      match runners p !! a with
      | Some d =>
          match RunForegroundTask_timer (Situation_of a p) i d with
          | Ok d' => Ok {| runners := <[a := d']> (runners p);
                           per_isolate_ := per_isolate_ p |}
          | Abort => Abort
          | Wait => Wait
          end
      | None => Wait
      end
  end.

(** A sequence of calls, in the order in which they happen. *)
Fixpoint calls (cs : list Call) (p : NodePlatform) : Result NodePlatform :=
  match cs with
  | [] => Ok p
  | c :: rest =>
      match call c p with
      | Ok p' => calls rest p'
      | Abort => Abort
      | Wait => Wait
      end
  end.

(** The isolate a call names. *)
Definition isolate_of (c : Call) : option nat :=
  match c with
  | CallRegister isolate _ | CallUnregister isolate | CallForeground isolate _
  | CallDelayedForeground isolate _ _ | CallFlush isolate | CallDrain isolate
  | CallCancelDelayed isolate => Some isolate
  | TimerFires _ _ => None
  end.

(** The invariant of the platform: every entry of [per_isolate_] points
    to a runner that has its handle and a positive reference count, and
    no two isolates share a runner. *)
Record platform_ok (p : NodePlatform) : Prop := {
  ok_registered :
    ∀ isolate v, per_isolate_ p !! isolate = Some v →
      ∃ a d, v = Some a ∧ runners p !! a = Some d
             ∧ flush_tasks_ d = true ∧ (0 < ref_count_ d)%Z;
  ok_distinct :
    ∀ isolate1 isolate2 a,
      per_isolate_ p !! isolate1 = Some (Some a) →
      per_isolate_ p !! isolate2 = Some (Some a) → isolate1 = isolate2
}.

(** A run of the platform: two isolates registered on two loops, a task
    posted to the first, a delayed task posted to the second and
    flushed.  [platform_after] is the state a run leaves. *)
Definition sample_calls : list Call :=
  [CallRegister 5 1; CallRegister 6 2; CallForeground 5 (MkTask 1 [] []);
   CallDelayedForeground 6 (MkTask 2 [] []) double_0_5; CallFlush 6].

Definition platform_after (cs : list Call) : NodePlatform :=
  match calls cs NodePlatform_new with
  | Ok p => p
  | _ => NodePlatform_new
  end.

(** A shorter run: one isolate registered once, and a task posted that
    will post another task when it runs. *)
Definition one_isolate_calls : list Call :=
  [CallRegister 5 1; CallForeground 5 (MkTask 1 [MkTask 2 [] []] [])].

(** The same run with a task that posts through the platform. *)
Definition platform_post_calls : list Call :=
  [CallRegister 5 1; CallForeground 5 (MkPlatformTask 1 [MkTask 2 [] []] [])].

(** A worker runner on a new pool of one worker. *)
Definition new_worker_runner : WorkerThreadsTaskRunner :=
  WorkerThreadsTaskRunner_new (threadpool.Threadpool_new 1).

End platform_spec.

(** ** Part III: properties *)

(** *** TaskState *)

Section TaskState_facts.
Import threadpool spec.

Lemma ValidStateTransition_legal (a b : State) :
  ValidStateTransition a b = true ↔ legal a b.
Proof.
  split.
  - destruct a, b; simpl; intros H; try discriminate H; constructor.
  - destruct 1; reflexivity.
Qed.

Lemma legal_irrefl (a b : State) : legal a b → a ≠ b.
Proof. destruct 1; discriminate. Qed.

Lemma TryUpdateState_legal (ts : TaskState) (new_state : State) :
  legal (state_ ts) new_state →
  TryUpdateState new_state ts = ({| state_ := new_state |}, new_state).
Proof.
  intros H. apply ValidStateTransition_legal in H.
  unfold TryUpdateState. rewrite H. reflexivity.
Qed.

Lemma TryUpdateState_not_legal (ts : TaskState) (new_state : State) :
  ¬ legal (state_ ts) new_state →
  TryUpdateState new_state ts = (ts, state_ ts).
Proof.
  intros H. unfold TryUpdateState.
  destruct (ValidStateTransition (state_ ts) new_state) eqn:E; [|reflexivity].
  apply ValidStateTransition_legal in E. contradiction.
Qed.

Lemma legal_dec (a b : State) : {legal a b} + {¬ legal a b}.
Proof.
  destruct (ValidStateTransition a b) eqn:E.
  - left. by apply ValidStateTransition_legal.
  - right. intros H. apply ValidStateTransition_legal in H. congruence.
Qed.

Lemma TryUpdateState_seq_walk (requests : list State) :
  ∀ ts : TaskState, walk (state_ ts) (TryUpdateState_seq requests ts).2.
Proof.
  induction requests as [|new_state rest IH]; intros ts;
    cbn [TryUpdateState_seq]; [exact I|].
  destruct (legal_dec (state_ ts) new_state) as [Hl|Hn].
  - rewrite (TryUpdateState_legal _ _ Hl).
    specialize (IH {| state_ := new_state |}).
    destruct (TryUpdateState_seq rest _) as [ts2 rs]. simpl in *.
    split; [right; exact Hl | exact IH].
  - rewrite (TryUpdateState_not_legal _ _ Hn).
    specialize (IH ts).
    destruct (TryUpdateState_seq rest ts) as [ts2 rs]. simpl in *.
    split; [left; reflexivity | exact IH].
Qed.

Lemma TryUpdateState_seq_last (requests : list State) :
  ∀ ts : TaskState,
    state_ (TryUpdateState_seq requests ts).1
    = default (state_ ts) (last (TryUpdateState_seq requests ts).2).
Proof.
  induction requests as [|new_state rest IH]; intros ts;
    cbn [TryUpdateState_seq]; [reflexivity|].
  destruct (TryUpdateState new_state ts) as [ts1 r] eqn:E1.
  assert (Hr : r = state_ ts1).
  { unfold TryUpdateState in E1. by injection E1 as <- <-. }
  specialize (IH ts1).
  destruct (TryUpdateState_seq rest ts1) as [ts2 rs]. simpl in *.
  rewrite IH, last_cons. destruct (last rs); simpl; congruence.
Qed.

(** C1.  A [TryUpdateState(new_state)] call writes [new_state] exactly
    when the pair (current state, [new_state]) is in the table of legal
    transitions, and returns the state after the call: [new_state] for a
    legal request, the unchanged current state otherwise.  Nothing leaves
    [COMPLETED].  Hence the states returned by any sequence of calls, in
    the order in which they take the lock, form a walk on the table,
    which ends in the state of the object. *)
Theorem TaskState_transitions_walk (ts : TaskState) (requests : list State) :
  (∀ new_state : State,
      (TryUpdateState new_state ts).2 = state_ (TryUpdateState new_state ts).1
      ∧ (legal (state_ ts) new_state →
         TryUpdateState new_state ts = ({| state_ := new_state |}, new_state))
      ∧ (¬ legal (state_ ts) new_state →
         TryUpdateState new_state ts = (ts, state_ ts))
      ∧ (state_ (TryUpdateState new_state ts).1 ≠ state_ ts ↔
         legal (state_ ts) new_state))
  ∧ (∀ new_state : State, ¬ legal COMPLETED new_state)
  ∧ walk (state_ ts) (TryUpdateState_seq requests ts).2
  ∧ state_ (TryUpdateState_seq requests ts).1
    = default (state_ ts) (last (TryUpdateState_seq requests ts).2).
Proof.
  split; [|split; [|split; [|apply TryUpdateState_seq_last]]].
  - intros new_state. split; [reflexivity|].
    split; [apply TryUpdateState_legal|].
    split; [apply TryUpdateState_not_legal|].
    destruct (legal_dec (state_ ts) new_state) as [Hl|Hn].
    + rewrite (TryUpdateState_legal _ _ Hl). simpl.
      split; [intros _; exact Hl|].
      intros _ E. by apply (legal_irrefl _ _ Hl).
    + rewrite (TryUpdateState_not_legal _ _ Hn). simpl.
      split; [intros E; by destruct E | intros Hl; contradiction].
  - intros new_state H. inversion H.
  - apply TryUpdateState_seq_walk.
Qed.

End TaskState_facts.

(** *** The pool: invariant, workers, teardown *)

Section Threadpool_facts.
Import threadpool spec.

#[local] Arguments Worker_names h !w /.

Lemma sum_list_with_insert {A : Type} (f : A → nat) (l : list A) (i : nat) (x y : A) :
  l !! i = Some x →
  sum_list_with f (<[i := y]> l) + f x = sum_list_with f l + f y.
Proof.
  revert i. induction l as [|a l IH]; intros [|i] H; simpl in *; try discriminate.
  - injection H as ->. lia.
  - specialize (IH i H). lia.
Qed.

Lemma sum_list_with_0 {A : Type} (f : A → nat) (l : list A) :
  sum_list_with f l = 0 ↔ Forall (λ x, f x = 0) l.
Proof.
  induction l as [|a l IH]; simpl.
  - split; [constructor | reflexivity].
  - rewrite Forall_cons, <- IH. lia.
Qed.

Lemma handle_state_Some (heap : list TaskState) (t : Task) (s : State) :
  handle_state heap t = Some s ↔
  ∃ h ts, task_state_ t = Some h ∧ heap !! h = Some ts ∧ state_ ts = s.
Proof.
  unfold handle_state. split.
  - destruct (task_state_ t) as [h|]; simpl; [|discriminate].
    destruct (heap !! h) as [ts|] eqn:Hh; simpl; [|discriminate].
    intros [= <-]. exists h, ts. auto.
  - intros (h & ts & -> & Hh & <-). simpl. rewrite Hh. reflexivity.
Qed.

Lemma handle_state_app (heap extra : list TaskState) (t : Task) (s : State) :
  handle_state heap t = Some s → handle_state (heap ++ extra) t = Some s.
Proof.
  rewrite !handle_state_Some. intros (h & ts & Ht & Hh & Hs).
  exists h, ts. split; [done|]. split; [|done].
  by apply lookup_app_l_Some.
Qed.

Lemma handle_state_insert_other (heap : list TaskState) (h : nat)
    (ts : TaskState) (t : Task) :
  names h t = 0 → handle_state (<[h := ts]> heap) t = handle_state heap t.
Proof.
  unfold names, handle_state. destruct (task_state_ t) as [h'|]; simpl; [|done].
  case_decide as E; [discriminate|]. intros _.
  rewrite list_lookup_insert_ne; [done|]. congruence.
Qed.

Lemma handle_state_insert_same (heap : list TaskState) (h : nat)
    (ts ts' : TaskState) (t : Task) :
  task_state_ t = Some h → heap !! h = Some ts →
  handle_state (<[h := ts']> heap) t = Some (state_ ts').
Proof.
  intros Ht Hh. unfold handle_state. rewrite Ht. simpl.
  rewrite list_lookup_insert_eq; [done|]. by eapply lookup_lt_Some.
Qed.

Lemma task_in_app (heap extra : list TaskState) (P : State → Prop) (t : Task) :
  task_in heap P t → task_in (heap ++ extra) P t.
Proof. intros (s & Hs & HP). exists s. split; [by apply handle_state_app | done]. Qed.

Lemma task_in_insert_other (heap : list TaskState) (h : nat) (ts : TaskState)
    (P : State → Prop) (t : Task) :
  names h t = 0 → task_in heap P t → task_in (<[h := ts]> heap) P t.
Proof.
  intros Hn (s & Hs & HP). exists s. split; [|done].
  by rewrite handle_state_insert_other.
Qed.

Lemma task_in_names_fresh (heap : list TaskState) (P : State → Prop) (t : Task) (h : nat) :
  task_in heap P t → length heap ≤ h → names h t = 0.
Proof.
  intros (s & Hs & _) Hle. apply handle_state_Some in Hs as (h' & ts & Ht & Hh & _).
  unfold names. case_decide as E; [|done].
  rewrite Ht in E. injection E as ->. apply lookup_lt_Some in Hh. lia.
Qed.

Lemma Worker_ok_app (heap extra : list TaskState) (w : Worker) :
  Worker_ok heap w → Worker_ok (heap ++ extra) w.
Proof. destruct w; simpl; auto using task_in_app. Qed.

Lemma Worker_ok_insert_other (heap : list TaskState) (h : nat) (ts : TaskState) (w : Worker) :
  Worker_names h w = 0 → Worker_ok heap w → Worker_ok (<[h := ts]> heap) w.
Proof.
  destruct w; unfold Worker_names; simpl; auto using task_in_insert_other.
Qed.

Lemma Worker_ok_names_fresh (heap : list TaskState) (w : Worker) (h : nat) :
  Worker_ok heap w → length heap ≤ h → Worker_names h w = 0.
Proof.
  destruct w; unfold Worker_names; simpl; intros H Hle;
    solve [reflexivity | by eapply task_in_names_fresh].
Qed.


Lemma task_in_impl (heap : list TaskState) (P Q : State → Prop) (t : Task) :
  (∀ s, P s → Q s) → task_in heap P t → task_in heap Q t.
Proof. intros HPQ (s & Hs & HP). exists s. auto. Qed.

Lemma task_in_insert_closed (heap : list TaskState) (h : nat) (ts ts' : TaskState)
    (P : State → Prop) (t : Task) :
  heap !! h = Some ts → (P (state_ ts) → P (state_ ts')) →
  task_in heap P t → task_in (<[h := ts']> heap) P t.
Proof.
  intros Hh Hcl (s & Hs & HP).
  destruct (decide (task_state_ t = Some h)) as [E|E].
  - exists (state_ ts'). split; [by eapply handle_state_insert_same|].
    apply Hcl. apply handle_state_Some in Hs as (h' & ts0 & Ht & Hh' & <-).
    rewrite Ht in E. injection E as ->. congruence.
  - exists s. split; [|done]. rewrite handle_state_insert_other; [done|].
    unfold names. by rewrite decide_False.
Qed.

Lemma Forall_task_in_insert_other (heap : list TaskState) (h : nat) (ts : TaskState)
    (P : State → Prop) (l : list Task) :
  sum_list_with (names h) l = 0 →
  Forall (task_in heap P) l → Forall (task_in (<[h := ts]> heap) P) l.
Proof.
  intros H0 HF. apply sum_list_with_0 in H0.
  induction HF as [|t l Ht HF IH]; [constructor|].
  apply Forall_cons in H0 as [H1 H2].
  constructor; [by apply task_in_insert_other | by apply IH].
Qed.

Lemma Forall_insert_others {A : Type} (f : A → nat) (P Q : A → Prop)
    (l : list A) (i : nat) (w w' : A) :
  l !! i = Some w → sum_list_with f l ≤ f w →
  (∀ x, f x = 0 → P x → Q x) →
  Forall P l → Q w' → Forall Q (<[i := w']> l).
Proof.
  intros Hi Hsum HPQ HF HQ. revert i Hi Hsum.
  induction HF as [|a l Ha HF IH]; intros [|i] Hi Hsum; simpl in *; try discriminate.
  - injection Hi as ->. constructor; [done|].
    assert (H0 : sum_list_with f l = 0) by lia.
    apply sum_list_with_0 in H0.
    clear -H0 HF HPQ. induction HF; [constructor|].
    apply Forall_cons in H0 as [? ?]. constructor; auto.
  - assert (Hw : f w ≤ sum_list_with f l).
    { apply sum_list_with_in. by eapply list_elem_of_lookup_2. }
    constructor; [apply HPQ; [lia|done]|].
    apply IH; [done|lia].
Qed.

Lemma sum_list_with_replicate {A : Type} (f : A → nat) (n : nat) (x : A) :
  sum_list_with f (replicate n x) = n * f x.
Proof. induction n as [|n IH]; simpl; [done|]. rewrite IH. lia. Qed.

Lemma Inv_new (threadpool_size : nat) :
  0 < threadpool_size → Inv (Threadpool_new threadpool_size).
Proof.
  intros Hn. split; simpl.
  - constructor.
  - apply Forall_replicate. exact I.
  - intros h. unfold owners. simpl. rewrite sum_list_with_replicate.
    simpl. lia.
  - rewrite sum_list_with_replicate. simpl. lia.
  - constructor.
  - by rewrite length_replicate.
  - intros [j Hj]. apply lookup_replicate in Hj as [? _]. discriminate.
Qed.

(** The two outcomes of [Post]. *)
Lemma Post_stopped (task : Task) (tp : Threadpool) :
  stopped_ (Threadpool_queue_ tp) = true →
  Post task tp
  = Ok ({| heap := heap tp ++ [TaskState_new];
           Threadpool_queue_ := Threadpool_queue_ tp;
           workers_ := workers_ tp; ran := ran tp |},
        Some (length (heap tp))).
Proof. intros Hs. unfold Post, Push. rewrite Hs. reflexivity. Qed.

Lemma Post_accepted (task : Task) (tp : Threadpool) :
  stopped_ (Threadpool_queue_ tp) = false →
  Post task tp
  = Ok ({| heap := heap tp ++ [{| state_ := QUEUED |}];
           Threadpool_queue_ :=
             {| queue_ := queue_ (Threadpool_queue_ tp)
                          ++ [SetTaskState (length (heap tp)) task];
                outstanding_tasks_ := outstanding_tasks_ (Threadpool_queue_ tp) + 1;
                stopped_ := false;
                task_available_ := task_available_ (Threadpool_queue_ tp) ++ [Signal];
                tasks_drained_ := tasks_drained_ (Threadpool_queue_ tp) |};
           workers_ := workers_ tp; ran := ran tp |},
        Some (length (heap tp))).
Proof.
  intros Hs. unfold Post, Push, Task_TryUpdateState. rewrite Hs. simpl.
  rewrite list_lookup_middle by reflexivity. simpl.
  replace (length (heap tp)) with (length (heap tp) + 0) at 1 by lia.
  rewrite insert_app_r. reflexivity.
Qed.

(** A handle that is not yet in the heap has no owner. *)
Lemma owners_fresh (tp : Threadpool) (h : nat) :
  Inv tp → length (heap tp) ≤ h → owners h tp = 0.
Proof.
  intros [Hq Hw _ _ _ _ _] Hle. unfold owners.
  assert (sum_list_with (names h) (queue_ (Threadpool_queue_ tp)) = 0) as ->.
  { apply sum_list_with_0. eapply Forall_impl; [exact Hq|].
    intros t Ht. by eapply task_in_names_fresh. }
  assert (sum_list_with (Worker_names h) (workers_ tp) = 0) as ->.
  { apply sum_list_with_0. eapply Forall_impl; [exact Hw|].
    intros w Hok. by eapply Worker_ok_names_fresh. }
  reflexivity.
Qed.

Lemma Inv_Post (task : Task) (tp : Threadpool) :
  Inv tp → ∃ tp', Post task tp = Ok (tp', Some (length (heap tp))) ∧ Inv tp'.
Proof.
  intros HI. pose proof (owners_fresh tp _ HI (le_n _)) as Hfresh.
  destruct HI as [Hq Hw Hu Ho Hr Hn Hret].
  destruct (stopped_ (Threadpool_queue_ tp)) eqn:Hs.
  - eexists. split; [by apply Post_stopped|].
    split; simpl.
    + eapply Forall_impl; [exact Hq|]. intros t. apply task_in_app.
    + eapply Forall_impl; [exact Hw|]. intros w. apply Worker_ok_app.
    + exact Hu.
    + exact Ho.
    + eapply Forall_impl; [exact Hr|]. intros t. apply task_in_app.
    + exact Hn.
    + intros Hj. destruct (Hret Hj) as [_ Hq0]. by rewrite Hs.
  - eexists. split; [by apply Post_accepted|].
    split; simpl.
    + apply Forall_app. split.
      * eapply Forall_impl; [exact Hq|]. intros t. apply task_in_app.
      * constructor; [|constructor]. exists QUEUED. split; [|by left].
        apply handle_state_Some. exists (length (heap tp)), {| state_ := QUEUED |}.
        split; [reflexivity|]. split; [|reflexivity]. by apply list_lookup_middle.
    + eapply Forall_impl; [exact Hw|]. intros w. apply Worker_ok_app.
    + intros h. unfold owners. simpl. rewrite sum_list_with_app. simpl.
      unfold names at 2. simpl. case_decide as E.
      * injection E as <-. unfold owners in Hfresh. lia.
      * specialize (Hu h). unfold owners in Hu. lia.
    + rewrite Ho, length_app. simpl. lia.
    + eapply Forall_impl; [exact Hr|]. intros t. apply task_in_app.
    + exact Hn.
    + intros Hj. destruct (Hret Hj) as [Hs' _]. congruence.
Qed.

Lemma Cancel_closed (ts : TaskState) (P : State → Prop) :
  P CANCELLED → P (state_ ts) → P (state_ (Cancel ts).1).
Proof. intros HC HP. destruct ts as [[]]; simpl in *; auto. Qed.

Lemma Inv_Cancel (h : nat) (ts : TaskState) (tp : Threadpool) :
  Inv tp → heap tp !! h = Some ts →
  Inv {| heap := <[h := (Cancel ts).1]> (heap tp);
         Threadpool_queue_ := Threadpool_queue_ tp;
         workers_ := workers_ tp; ran := ran tp |}.
Proof.
  intros [Hq Hw Hu Ho Hr Hn Hret] Hh.
  split; simpl; [| |exact Hu|exact Ho| |exact Hn|exact Hret].
  - eapply Forall_impl; [exact Hq|]. intros t.
    apply task_in_insert_closed with ts; [done|].
    apply Cancel_closed. by right.
  - eapply Forall_impl; [exact Hw|]. intros w.
    destruct w; simpl; try done;
      (apply task_in_insert_closed with ts; [done|]);
      apply Cancel_closed; by right.
  - eapply Forall_impl; [exact Hr|]. intros t.
    by apply task_in_insert_closed with ts.
Qed.

Lemma Inv_Stop (tp : Threadpool) :
  Inv tp →
  Inv {| heap := heap tp; Threadpool_queue_ := Stop (Threadpool_queue_ tp);
         workers_ := workers_ tp; ran := ran tp |}.
Proof.
  intros [Hq Hw Hu Ho Hr Hn Hret].
  split; simpl; try done.
  intros Hj. destruct (Hret Hj) as [_ Hq0]. done.
Qed.

Lemma busy_le_sum (ws : list Worker) (i : nat) (w : Worker) :
  ws !! i = Some w → busy w ≤ sum_list_with busy ws.
Proof. intros H. apply sum_list_with_in. by eapply list_elem_of_lookup_2. Qed.

(** What the next step of worker [i] is, in a pool that satisfies the
    invariant: no [CHECK] fails, and the worker waits only at an empty
    queue that is not stopped, or once returned. *)
Lemma Worker_step_cases (i : nat) (tp : Threadpool) (w : Worker) :
  Inv tp → workers_ tp !! i = Some w →
  match w with
  | AtBlockingPop =>
      match queue_ (Threadpool_queue_ tp) with
      | [] =>
          if stopped_ (Threadpool_queue_ tp)
          then Worker_step i tp
               = Ok {| heap := heap tp; Threadpool_queue_ := Threadpool_queue_ tp;
                       workers_ := <[i := Returned]> (workers_ tp); ran := ran tp |}
          else Worker_step i tp = Wait
      | task :: rest =>
          Worker_step i tp
          = Ok {| heap := heap tp;
                  Threadpool_queue_ := (Pop (Threadpool_queue_ tp)).2;
                  workers_ := <[i := AtTryAssign task]> (workers_ tp);
                  ran := ran tp |}
      end
  | AtTryAssign task =>
      ∃ h ts, task_state_ task = Some h ∧ heap tp !! h = Some ts ∧
        ((state_ ts = QUEUED ∧
          Worker_step i tp
          = Ok {| heap := <[h := {| state_ := ASSIGNED |}]> (heap tp);
                  Threadpool_queue_ := Threadpool_queue_ tp;
                  workers_ := <[i := AtRun task]> (workers_ tp); ran := ran tp |})
         ∨ (state_ ts = CANCELLED ∧
            Worker_step i tp
            = Ok {| heap := heap tp; Threadpool_queue_ := Threadpool_queue_ tp;
                    workers_ := <[i := AtTryComplete task]> (workers_ tp);
                    ran := ran tp |}))
  | AtRun task =>
      Worker_step i tp
      = Ok {| heap := heap tp; Threadpool_queue_ := Threadpool_queue_ tp;
              workers_ := <[i := AtTryComplete task]> (workers_ tp);
              ran := ran tp ++ [task] |}
  | AtTryComplete task =>
      ∃ h ts, task_state_ task = Some h ∧ heap tp !! h = Some ts ∧
        in_hand (state_ ts) ∧
        Worker_step i tp
        = Ok {| heap := <[h := {| state_ := COMPLETED |}]> (heap tp);
                Threadpool_queue_ := Threadpool_queue_ tp;
                workers_ := <[i := AtNotify]> (workers_ tp); ran := ran tp |}
  | AtNotify =>
      ∃ q', NotifyOfCompletion (Threadpool_queue_ tp) = Some q' ∧
        queue_ q' = queue_ (Threadpool_queue_ tp) ∧
        stopped_ q' = stopped_ (Threadpool_queue_ tp) ∧
        outstanding_tasks_ q' = (outstanding_tasks_ (Threadpool_queue_ tp) - 1)%Z ∧
        Worker_step i tp
        = Ok {| heap := heap tp; Threadpool_queue_ := q';
                workers_ := <[i := AtBlockingPop]> (workers_ tp); ran := ran tp |}
  | Returned => Worker_step i tp = Wait
  end.
Proof.
  intros [Hq Hw Hu Ho Hr Hn Hret] Hi.
  pose proof (Forall_lookup_1 _ _ _ _ Hw Hi) as Hok.
  unfold Worker_step. rewrite Hi.
  destruct w as [|task|task|task| |]; simpl in *.
  - unfold BlockingPop, Pop.
    destruct (queue_ (Threadpool_queue_ tp)) as [|task rest]; simpl.
    + destruct (stopped_ (Threadpool_queue_ tp)); reflexivity.
    + reflexivity.
  - destruct Hok as (s & Hs & Hwait).
    apply handle_state_Some in Hs as (h & ts & Ht & Hh & Hst).
    exists h, ts. split; [done|]. split; [done|].
    unfold Task_TryUpdateState, TryUpdateState. rewrite Ht. simpl. rewrite Hh. simpl.
    destruct Hwait as [-> | ->]; rewrite Hst; simpl.
    + left. done.
    + right. split; [done|]. rewrite Hst. simpl.
      rewrite (list_insert_id _ _ _ Hh). reflexivity.
  - reflexivity.
  - destruct Hok as (s & Hs & Hhand).
    apply handle_state_Some in Hs as (h & ts & Ht & Hh & Hst).
    exists h, ts. split; [done|]. split; [done|]. split; [by rewrite Hst|].
    unfold Task_TryUpdateState, TryUpdateState. rewrite Ht. simpl. rewrite Hh. simpl.
    destruct Hhand as [-> | ->]; rewrite Hst; reflexivity.
  - pose proof (busy_le_sum _ _ _ Hi) as Hb. simpl in Hb.
    unfold NotifyOfCompletion.
    rewrite bool_decide_true by lia. eexists. repeat split; reflexivity.
  - reflexivity.
Qed.

Lemma Worker_step_Ok_lookup (i : nat) (tp tp' : Threadpool) :
  Worker_step i tp = Ok tp' → ∃ w, workers_ tp !! i = Some w.
Proof.
  unfold Worker_step. destruct (workers_ tp !! i) as [w|]; [eauto|discriminate].
Qed.

Lemma Worker_step_not_Abort (i : nat) (tp : Threadpool) :
  Inv tp → Worker_step i tp = Abort → False.
Proof.
  intros HI. destruct (workers_ tp !! i) as [w|] eqn:Hi.
  - pose proof (Worker_step_cases i tp w HI Hi) as Hc.
    destruct w; try congruence.
    + destruct (queue_ (Threadpool_queue_ tp)); [|congruence].
      destruct (stopped_ (Threadpool_queue_ tp)); congruence.
    + destruct Hc as (h & ts & _ & _ & [[_ Hc] | [_ Hc]]); congruence.
    + destruct Hc as (h & ts & _ & _ & _ & Hc); congruence.
    + destruct Hc as (q' & _ & _ & _ & _ & Hc); congruence.
  - unfold Worker_step. rewrite Hi. discriminate.
Qed.

Lemma task_in_True_insert (heap : list TaskState) (h : nat) (ts ts' : TaskState)
    (t : Task) :
  heap !! h = Some ts →
  task_in heap (λ _, True) t → task_in (<[h := ts']> heap) (λ _, True) t.
Proof. intros Hh. by apply task_in_insert_closed with ts. Qed.

Lemma returned_insert (ws : list Worker) (i j : nat) (w' : Worker) :
  <[i := w']> ws !! j = Some Returned →
  (j = i ∧ w' = Returned) ∨ ws !! j = Some Returned.
Proof.
  intros H. apply list_lookup_insert_Some in H as [(-> & -> & _) | [_ H]]; auto.
Qed.

(** The effect on the sums of replacing worker [i]. *)
Ltac replace_worker Hi w' :=
  let Hn := fresh "Hnames" in
  let Hb := fresh "Hbusy" in
  pose proof (λ h, sum_list_with_insert (Worker_names h) _ _ _ w' Hi) as Hn;
  pose proof (sum_list_with_insert busy _ _ _ w' Hi) as Hb;
  simpl in Hn, Hb.

(** A worker whose position changes to a position other than [Returned]
    keeps the last part of the invariant. *)
Lemma returned_kept (tp : Threadpool) (i : nat) (w' : Worker) (st : bool)
    (qu : list Task) :
  Inv tp → w' ≠ Returned →
  st = stopped_ (Threadpool_queue_ tp) →
  length qu ≤ length (queue_ (Threadpool_queue_ tp)) →
  (∃ j, <[i := w']> (workers_ tp) !! j = Some Returned) →
  st = true ∧ qu = [].
Proof.
  intros HI Hne -> Hlen [j Hj].
  apply returned_insert in Hj as [[_ ?] | Hj]; [done|].
  destruct (inv_returned _ HI (ex_intro _ j Hj)) as [Hs Hq0].
  split; [done|]. rewrite Hq0 in Hlen. simpl in Hlen.
  destruct qu; [done|simpl in Hlen; lia].
Qed.

(** A worker's step keeps the invariant, the stop flag, the number of
    [TaskState] objects, touches only its own position, and brings that
    worker closer to its return. *)
Lemma Inv_Worker_step (i : nat) (tp tp' : Threadpool) :
  Inv tp → Worker_step i tp = Ok tp' →
  Inv tp'
  ∧ stopped_ (Threadpool_queue_ tp') = stopped_ (Threadpool_queue_ tp)
  ∧ length (heap tp') = length (heap tp)
  ∧ ∃ w w', workers_ tp !! i = Some w
      ∧ workers_ tp' = <[i := w']> (workers_ tp)
      ∧ Worker_cost w' + 5 * length (queue_ (Threadpool_queue_ tp'))
        < Worker_cost w + 5 * length (queue_ (Threadpool_queue_ tp)).
Proof.
  intros HI Hstep.
  destruct (Worker_step_Ok_lookup _ _ _ Hstep) as [w Hi].
  pose proof (Worker_step_cases i tp w HI Hi) as Hc.
  pose proof (λ w' st qu, returned_kept tp i w' st qu HI) as Hkeep.
  destruct HI as [Hq Hw Hu Ho Hr Hn Hret].
  pose proof (Forall_lookup_1 _ _ _ _ Hw Hi) as Hok.
  destruct w as [|task|task|task| |]; simpl in Hok.
  - (* BlockingPop *)
    destruct (queue_ (Threadpool_queue_ tp)) as [|task rest] eqn:Hqu.
    + destruct (stopped_ (Threadpool_queue_ tp)) eqn:Hs; [|congruence].
      rewrite Hc in Hstep. injection Hstep as <-. simpl.
      replace_worker Hi Returned.
      split; [split; simpl|].
      * by rewrite Hqu.
      * by apply Forall_insert.
      * intros h. unfold owners. simpl. specialize (Hu h). unfold owners in Hu.
        specialize (Hnames h). lia.
      * rewrite Ho, Hqu. simpl. lia.
      * done.
      * by rewrite length_insert.
      * done.
      * repeat split; try done. exists AtBlockingPop, Returned.
        rewrite ?Hqu, ?Hs. repeat split; try done. simpl. lia.
    + rewrite Hc in Hstep. injection Hstep as <-.
      unfold Pop. rewrite Hqu. simpl.
      replace_worker Hi (AtTryAssign task).
      apply Forall_cons in Hq as [Htask Hrest].
      split; [split; simpl|].
      * done.
      * by apply Forall_insert.
      * intros h. unfold owners. simpl. specialize (Hu h). unfold owners in Hu.
        specialize (Hnames h). rewrite Hqu in Hu. simpl in Hu. lia.
      * rewrite Ho. simpl. lia.
      * done.
      * by rewrite length_insert.
      * intros Hj. apply (Hkeep (AtTryAssign task)); [done|done| |done].
        rewrite ?Hqu. simpl. lia.
      * repeat split; try done. exists AtBlockingPop, (AtTryAssign task).
        repeat split; try done. simpl. lia.
  - (* TryUpdateState(ASSIGNED) *)
    destruct Hc as (h & ts & Ht & Hh & [[Hst Hc] | [Hst Hc]]);
      rewrite Hc in Hstep; injection Hstep as <-; simpl.
    + replace_worker Hi (AtRun task).
      assert (Hone : names h task = 1) by (unfold names; by rewrite decide_True).
      pose proof (Hu h) as Huh. unfold owners in Huh.
      pose proof (sum_list_with_insert (Worker_names h) _ _ _ Returned Hi) as Hx.
      simpl in Hx.
      split; [split; simpl|].
      * apply Forall_task_in_insert_other; [lia|done].
      * apply Forall_insert_others
          with (f := Worker_names h) (P := Worker_ok (heap tp)) (w := AtTryAssign task).
        -- done.
        -- simpl. lia.
        -- intros x. apply Worker_ok_insert_other.
        -- done.
        -- simpl. exists ASSIGNED. split; [|by left].
           by eapply (handle_state_insert_same _ _ _ {| state_ := ASSIGNED |}).
      * intros h'. unfold owners. simpl. specialize (Hu h'). unfold owners in Hu.
        specialize (Hnames h'). lia.
      * rewrite Ho. lia.
      * eapply Forall_impl; [exact Hr|]. intros t. by apply task_in_True_insert with ts.
      * by rewrite length_insert.
      * intros Hj. by apply (Hkeep (AtRun task)).
      * split; [done|]. split; [by rewrite length_insert|].
        exists (AtTryAssign task), (AtRun task). repeat split; try done. simpl. lia.
    + replace_worker Hi (AtTryComplete task).
      split; [split; simpl|].
      * done.
      * apply Forall_insert; [done|]. simpl.
        exists CANCELLED. split; [|by right].
        apply handle_state_Some. by exists h, ts.
      * intros h'. unfold owners. simpl. specialize (Hu h'). unfold owners in Hu.
        specialize (Hnames h'). lia.
      * rewrite Ho. lia.
      * done.
      * by rewrite length_insert.
      * intros Hj. by apply (Hkeep (AtTryComplete task)).
      * repeat split; try done.
        exists (AtTryAssign task), (AtTryComplete task). repeat split; try done.
        simpl. lia.
  - (* Run *)
    rewrite Hc in Hstep. injection Hstep as <-. simpl.
    replace_worker Hi (AtTryComplete task).
    split; [split; simpl|].
    + done.
    + by apply Forall_insert.
    + intros h'. unfold owners. simpl. specialize (Hu h'). unfold owners in Hu.
      specialize (Hnames h'). lia.
    + rewrite Ho. lia.
    + apply Forall_app. split; [done|]. constructor; [|constructor].
      by apply task_in_impl with in_hand.
    + by rewrite length_insert.
    + intros Hj. by apply (Hkeep (AtTryComplete task)).
    + repeat split; try done.
      exists (AtRun task), (AtTryComplete task). repeat split; try done. simpl. lia.
  - (* TryUpdateState(COMPLETED) *)
    destruct Hc as (h & ts & Ht & Hh & Hhand & Hc).
    rewrite Hc in Hstep. injection Hstep as <-. simpl.
    replace_worker Hi AtNotify.
    assert (Hone : names h task = 1) by (unfold names; by rewrite decide_True).
    pose proof (Hu h) as Huh. unfold owners in Huh.
    split; [split; simpl|].
    + apply Forall_task_in_insert_other; [|done].
      specialize (Hnames h). lia.
    + apply Forall_insert_others
        with (f := Worker_names h) (P := Worker_ok (heap tp)) (w := AtTryComplete task).
      * done.
      * simpl. specialize (Hnames h). lia.
      * intros x. apply Worker_ok_insert_other.
      * done.
      * exact I.
    + intros h'. unfold owners. simpl. specialize (Hu h'). unfold owners in Hu.
      specialize (Hnames h'). lia.
    + rewrite Ho. lia.
    + eapply Forall_impl; [exact Hr|]. intros t. by apply task_in_True_insert with ts.
    + by rewrite length_insert.
    + intros Hj. by apply (Hkeep AtNotify).
    + split; [done|]. split; [by rewrite length_insert|].
      exists (AtTryComplete task), AtNotify. repeat split; try done. simpl. lia.
  - (* NotifyOfCompletion *)
    destruct Hc as (q' & Hn' & Hq' & Hs' & Ho' & Hc).
    rewrite Hc in Hstep. injection Hstep as <-. simpl.
    replace_worker Hi AtBlockingPop.
    split; [split; simpl|].
    + by rewrite Hq'.
    + by apply Forall_insert.
    + intros h'. unfold owners. simpl. specialize (Hu h'). unfold owners in Hu.
      specialize (Hnames h'). rewrite Hq'. lia.
    + rewrite Ho', Ho, Hq'. lia.
    + done.
    + by rewrite length_insert.
    + intros Hj. apply (Hkeep AtBlockingPop); [done|done| |done]. by rewrite Hq'.
    + repeat split; try done.
      exists AtNotify, AtBlockingPop. rewrite Hq'. repeat split; try done. simpl. lia.
  - congruence.
Qed.

(** No action makes a [CHECK] fail, and every action keeps the
    invariant. *)
Lemma Inv_step (a : Action) (tp : Threadpool) :
  Inv tp →
  match step a tp with
  | Ok tp' => Inv tp'
  | Abort => False
  | Wait => True
  end.
Proof.
  intros HI. destruct a as [task|h| |i]; simpl.
  - destruct (Inv_Post task tp HI) as (tp' & -> & HI'). exact HI'.
  - destruct (heap tp !! h) as [ts|] eqn:Hh; [|exact I]. by apply Inv_Cancel.
  - by apply Inv_Stop.
  - destruct (Worker_step i tp) as [tp'| |] eqn:Hstep.
    + by apply (Inv_Worker_step i tp tp').
    + by apply (Worker_step_not_Abort i tp).
    + exact I.
Qed.

Lemma Inv_exec (trace : list Action) :
  ∀ tp, Inv tp →
    match exec trace tp with
    | Ok tp' => Inv tp'
    | Abort => False
    | Wait => True
    end.
Proof.
  induction trace as [|a trace IH]; intros tp HI; simpl; [exact HI|].
  pose proof (Inv_step a tp HI) as Hs.
  destruct (step a tp) as [tp'| |]; [by apply IH | done | done].
Qed.

Lemma reachable_Inv (tp : Threadpool) : reachable tp → Inv tp.
Proof.
  intros (n & trace & Hn & Hex).
  pose proof (Inv_exec trace _ (Inv_new n Hn)) as H. by rewrite Hex in H.
Qed.


Lemma Task_TryUpdateState_COMPLETED (heap : list TaskState) (task : Task) :
  task_in heap in_hand task →
  ∃ heap', Task_TryUpdateState task COMPLETED heap = Some (heap', COMPLETED).
Proof.
  intros (s & Hs & Hhand).
  apply handle_state_Some in Hs as (h & [s0] & Ht & Hh & Hst). simpl in Hst. subst s0.
  unfold Task_TryUpdateState, TryUpdateState. rewrite Ht. simpl. rewrite Hh. simpl.
  destruct Hhand as [-> | ->]; simpl; eauto.
Qed.

Lemma Task_TryUpdateState_ASSIGNED (heap : list TaskState) (task : Task) :
  task_in heap waiting task →
  ∃ heap' s, Task_TryUpdateState task ASSIGNED heap = Some (heap', s)
             ∧ (s = ASSIGNED ∨ s = CANCELLED).
Proof.
  intros (s & Hs & Hwait).
  apply handle_state_Some in Hs as (h & [s0] & Ht & Hh & Hst). simpl in Hst. subst s0.
  unfold Task_TryUpdateState, TryUpdateState. rewrite Ht. simpl. rewrite Hh. simpl.
  destruct Hwait as [-> | ->]; simpl; eauto.
Qed.

(** C3.  In every pool state that an interleaving of posts, cancels, the
    stop and worker steps can reach: a worker about to make its final
    [TryUpdateState(COMPLETED)] holds a task that is ASSIGNED or
    CANCELLED, and the call returns COMPLETED; a worker about to call
    [TryUpdateState(ASSIGNED)] gets ASSIGNED or CANCELLED back; no
    action makes a [CHECK] fail; and both ASSIGNED and CANCELLED have a
    legal transition to COMPLETED. *)
Theorem Worker_checks_never_fail (tp : Threadpool) (i : nat) (task : Task) :
  reachable tp →
  (workers_ tp !! i = Some (AtTryComplete task) →
   (handle_state (heap tp) task = Some ASSIGNED
    ∨ handle_state (heap tp) task = Some CANCELLED)
   ∧ ∃ heap', Task_TryUpdateState task COMPLETED (heap tp) = Some (heap', COMPLETED))
  ∧ (workers_ tp !! i = Some (AtTryAssign task) →
     ∃ heap' s, Task_TryUpdateState task ASSIGNED (heap tp) = Some (heap', s)
                ∧ (s = ASSIGNED ∨ s = CANCELLED))
  ∧ (∀ a, step a tp ≠ Abort)
  ∧ legal ASSIGNED COMPLETED ∧ legal CANCELLED COMPLETED.
Proof.
  intros Hreach. pose proof (reachable_Inv tp Hreach) as HI.
  split; [|split; [|split; [|split; constructor]]].
  - intros Hi.
    pose proof (Forall_lookup_1 _ _ _ _ (inv_workers _ HI) Hi) as Hok. simpl in Hok.
    split; [|by apply Task_TryUpdateState_COMPLETED].
    destruct Hok as (s & Hs & [-> | ->]); auto.
  - intros Hi.
    pose proof (Forall_lookup_1 _ _ _ _ (inv_workers _ HI) Hi) as Hok. simpl in Hok.
    by apply Task_TryUpdateState_ASSIGNED.
  - intros a Ha. pose proof (Inv_step a tp HI) as Hs. by rewrite Ha in Hs.
Qed.

(** *** A task rejected by a stopped queue *)


Lemma Worker_names_le_sum (h : nat) (ws : list Worker) (i : nat) (w : Worker) :
  ws !! i = Some w → Worker_names h w ≤ sum_list_with (Worker_names h) ws.
Proof.
  intros H. apply (sum_list_with_in _ (Worker_names h)).
  by eapply list_elem_of_lookup_2.
Qed.

Lemma names_0_ne (h h' : nat) (task : Task) :
  task_state_ task = Some h' → names h task = 0 → h' ≠ h.
Proof.
  unfold names. intros Ht. case_decide as E; [discriminate|].
  intros _ ->. contradiction.
Qed.

Lemma dropped_step (a : Action) (tp tp' : Threadpool) (h : nat) :
  Inv tp → dropped h tp → step a tp = Ok tp' →
  dropped h tp'
  ∧ (a ≠ CallCancel h → heap tp !! h = Some {| state_ := INITIAL |} →
     heap tp' !! h = Some {| state_ := INITIAL |}).
Proof.
  intros HI (Ho & Hr & Hst) Hstep.
  assert (Hlt : h < length (heap tp)).
  { destruct Hst as [Hst | Hst]; by apply lookup_lt_Some in Hst. }
  unfold dropped, owners in *.
  destruct a as [task|h'| |i]; simpl in Hstep.
  - (* Post *)
    assert (Hkeep : ∀ x ts, heap tp !! h = Some ts → (heap tp ++ [x]) !! h = Some ts).
    { intros x ts. apply lookup_app_l_Some. }
    destruct (stopped_ (Threadpool_queue_ tp)) eqn:Hs.
    + rewrite Post_stopped in Hstep by done. injection Hstep as <-. simpl.
      split; [split; [|split] |]; [done|done| |by auto].
      destruct Hst as [Hst | Hst]; [left | right]; by apply Hkeep.
    + rewrite Post_accepted in Hstep by done. injection Hstep as <-. simpl.
      rewrite sum_list_with_app. simpl.
      assert (names h (SetTaskState (length (heap tp)) task) = 0) as ->.
      { unfold names. simpl. case_decide as E; [|done]. injection E as E. lia. }
      split; [split; [|split] |]; [lia|done| |by auto].
      destruct Hst as [Hst | Hst]; [left | right]; by apply Hkeep.
  - (* Cancel *)
    destruct (heap tp !! h') as [ts|] eqn:Hh'; [|discriminate].
    injection Hstep as <-. simpl.
    destruct (decide (h' = h)) as [->|Hne].
    + split; [split; [|split] |]; [done|done| |by intros []].
      right. rewrite list_lookup_insert_eq by done.
      destruct Hst as [Hst | Hst]; rewrite Hst in Hh'; by injection Hh' as <-.
    + rewrite list_lookup_insert_ne by done. done.
  - (* Stop *)
    injection Hstep as <-. simpl. done.
  - (* a worker *)
    destruct (Worker_step_Ok_lookup _ _ _ Hstep) as [w Hi].
    pose proof (Worker_step_cases i tp w HI Hi) as Hc.
    pose proof (Worker_names_le_sum h _ _ _ Hi) as Hle.
    destruct w as [|task|task|task| |]; simpl in Hle.
    + destruct (queue_ (Threadpool_queue_ tp)) as [|task rest] eqn:Hqu.
      * destruct (stopped_ (Threadpool_queue_ tp)); [|congruence].
        rewrite Hc in Hstep. injection Hstep as <-. simpl.
        replace_worker Hi Returned. specialize (Hnames h).
        rewrite ?Hqu. simpl in *.
        split; [split; [|split] |]; [lia|done|done|done].
      * rewrite Hc in Hstep. injection Hstep as <-.
        unfold Pop. rewrite ?Hqu. simpl.
        replace_worker Hi (AtTryAssign task). specialize (Hnames h).
        simpl in Ho.
        split; [split; [|split] |]; [lia|done|done|done].
    + destruct Hc as (h' & ts & Ht & Hh & [[Hs Hc] | [Hs Hc]]);
        rewrite Hc in Hstep; injection Hstep as <-; simpl.
      * replace_worker Hi (AtRun task). specialize (Hnames h).
        assert (h' ≠ h) by (apply (names_0_ne _ _ task); [done|lia]).
        rewrite list_lookup_insert_ne by done.
        split; [split; [|split] |]; [lia|done|done|done].
      * replace_worker Hi (AtTryComplete task). specialize (Hnames h).
        split; [split; [|split] |]; [lia|done|done|done].
    + rewrite Hc in Hstep. injection Hstep as <-. simpl.
      replace_worker Hi (AtTryComplete task). specialize (Hnames h).
      rewrite sum_list_with_app. simpl.
      split; [split; [|split] |]; [lia|lia|done|done].
    + destruct Hc as (h' & ts & Ht & Hh & Hhand & Hc).
      rewrite Hc in Hstep. injection Hstep as <-. simpl.
      replace_worker Hi AtNotify. specialize (Hnames h).
      assert (h' ≠ h) by (apply (names_0_ne _ _ task); [done|lia]).
      rewrite list_lookup_insert_ne by done.
      split; [split; [|split] |]; [lia|done|done|done].
    + destruct Hc as (q' & Hn' & Hq' & Hs' & Ho' & Hc).
      rewrite Hc in Hstep. injection Hstep as <-. simpl.
      replace_worker Hi AtBlockingPop. specialize (Hnames h).
      rewrite Hq'.
      split; [split; [|split] |]; [lia|done|done|done].
    + congruence.
Qed.


(** *** Tasks still queued when the queue is stopped *)


Lemma settled_step (a : Action) (tp tp' : Threadpool) (h : nat) :
  Inv tp → settled h tp → step a tp = Ok tp' → settled h tp'.
Proof.
  intros HI Hset Hstep. unfold settled, owners in *.
  destruct a as [task|h'| |i]; simpl in Hstep.
  - (* Post *)
    destruct (stopped_ (Threadpool_queue_ tp)) eqn:Hs.
    + rewrite Post_stopped in Hstep by done. injection Hstep as <-. simpl.
      destruct Hset as [Hown | Hdone]; [by left | right; by apply lookup_app_l_Some].
    + rewrite Post_accepted in Hstep by done. injection Hstep as <-. simpl.
      rewrite sum_list_with_app.
      destruct Hset as [Hown | Hdone]; [left; lia | right; by apply lookup_app_l_Some].
  - (* Cancel *)
    destruct (heap tp !! h') as [ts|] eqn:Hh'; [|discriminate].
    injection Hstep as <-. simpl.
    destruct Hset as [Hown | Hdone]; [by left | right].
    destruct (decide (h' = h)) as [->|Hne].
    + rewrite Hdone in Hh'. injection Hh' as <-. simpl.
      by rewrite list_insert_id.
    + by rewrite list_lookup_insert_ne.
  - (* Stop *)
    injection Hstep as <-. simpl. done.
  - (* a worker *)
    destruct (Worker_step_Ok_lookup _ _ _ Hstep) as [w Hi].
    pose proof (Worker_step_cases i tp w HI Hi) as Hc.
    destruct w as [|task|task|task| |].
    + destruct (queue_ (Threadpool_queue_ tp)) as [|task rest] eqn:Hqu.
      * destruct (stopped_ (Threadpool_queue_ tp)); [|congruence].
        rewrite Hc in Hstep. injection Hstep as <-. simpl.
        replace_worker Hi Returned. specialize (Hnames h).
        rewrite ?Hqu. simpl in *.
        destruct Hset as [Hown | Hdone]; [left; lia | by right].
      * rewrite Hc in Hstep. injection Hstep as <-.
        unfold Pop. rewrite ?Hqu. simpl.
        replace_worker Hi (AtTryAssign task). specialize (Hnames h).
        simpl in Hset.
        destruct Hset as [Hown | Hdone]; [left; lia | by right].
    + destruct Hc as (h' & ts & Ht & Hh & [[Hs Hc] | [Hs Hc]]);
        rewrite Hc in Hstep; injection Hstep as <-; simpl.
      * replace_worker Hi (AtRun task). specialize (Hnames h).
        destruct Hset as [Hown | Hdone]; [left; lia | right].
        rewrite list_lookup_insert_ne; [done|].
        intros ->. rewrite Hdone in Hh. injection Hh as <-. discriminate.
      * replace_worker Hi (AtTryComplete task). specialize (Hnames h).
        destruct Hset as [Hown | Hdone]; [left; lia | by right].
    + rewrite Hc in Hstep. injection Hstep as <-. simpl.
      replace_worker Hi (AtTryComplete task). specialize (Hnames h).
      destruct Hset as [Hown | Hdone]; [left; lia | by right].
    + destruct Hc as (h' & ts & Ht & Hh & Hhand & Hc).
      rewrite Hc in Hstep. injection Hstep as <-. simpl.
      replace_worker Hi AtNotify. specialize (Hnames h).
      destruct (decide (h' = h)) as [->|Hne].
      * right. apply list_lookup_insert_eq. by eapply lookup_lt_Some.
      * rewrite list_lookup_insert_ne by done.
        assert (names h task = 0) as Hz.
        { unfold names. rewrite decide_False; [done|]. congruence. }
        destruct Hset as [Hown | Hdone]; [left; lia | by right].
    + destruct Hc as (q' & Hn' & Hq' & Hs' & Ho' & Hc).
      rewrite Hc in Hstep. injection Hstep as <-. simpl.
      replace_worker Hi AtBlockingPop. specialize (Hnames h).
      rewrite Hq'.
      destruct Hset as [Hown | Hdone]; [left; lia | by right].
    + congruence.
Qed.

Lemma settled_exec (trace : list Action) (h : nat) :
  ∀ tp tp', Inv tp → settled h tp → exec trace tp = Ok tp' → settled h tp'.
Proof.
  induction trace as [|a trace IH]; intros tp tp' HI Hset Hex; simpl in Hex.
  - by injection Hex as <-.
  - pose proof (Inv_step a tp HI) as HI1.
    destruct (step a tp) as [tp1| |] eqn:Hstep; [|done|done].
    apply (IH tp1); [done| |done]. by apply (settled_step a tp).
Qed.



Lemma sum_list_with_le {A : Type} (f g : A → nat) (l : list A) :
  (∀ x, f x ≤ g x) → sum_list_with f l ≤ sum_list_with g l.
Proof.
  intros Hfg. induction l as [|a l IH]; simpl; [done|].
  specialize (Hfg a). lia.
Qed.

Lemma is_task_names (t : Task) (h : nat) (x : Task) :
  task_state_ t = Some h → is_task t x ≤ names h x.
Proof.
  intros Ht. unfold is_task, names. case_decide as E; [|lia].
  subst x. rewrite decide_True; done.
Qed.

Lemma popped_names (t : Task) (h : nat) (w : Worker) :
  task_state_ t = Some h → popped t w ≤ Worker_names h w.
Proof.
  intros Ht. destruct w; simpl; try lia. by apply is_task_names.
Qed.

Lemma is_task_1 (t x : Task) : is_task t x = 1 → x = t.
Proof. unfold is_task. case_decide; [done|discriminate]. Qed.

Lemma is_task_cases (t x : Task) : is_task t x = 0 ∨ is_task t x = 1.
Proof. unfold is_task. case_decide; auto. Qed.

(** The sums that follow the task [t] when worker [i] changes position. *)
Ltac follow_task t Hi w' :=
  let Hp := fresh "Hpopped" in
  let Hr := fresh "Hrunning" in
  pose proof (sum_list_with_insert (popped t) _ _ _ w' Hi) as Hp;
  pose proof (sum_list_with_insert (running t) _ _ _ w' Hi) as Hr;
  simpl in Hp, Hr.

Lemma will_run_step (a : Action) (tp tp' : Threadpool) (t : Task) (h : nat) :
  Inv tp → task_state_ t = Some h → will_run t h tp →
  a ≠ CallCancel h → step a tp = Ok tp' → will_run t h tp'.
Proof.
  intros HI Hth Hwill Hna Hstep. unfold will_run in *.
  destruct a as [task|h'| |i]; simpl in Hstep.
  - (* Post *)
    destruct (stopped_ (Threadpool_queue_ tp)) eqn:Hs.
    + rewrite Post_stopped in Hstep by done. injection Hstep as <-. simpl.
      destruct Hwill as [[Hin Hst] | Hrest]; [left | by right].
      split; [done | by apply lookup_app_l_Some].
    + rewrite Post_accepted in Hstep by done. injection Hstep as <-. simpl.
      rewrite sum_list_with_app.
      destruct Hwill as [[Hin Hst] | Hrest]; [left | by right].
      split; [lia | by apply lookup_app_l_Some].
  - (* Cancel *)
    destruct (heap tp !! h') as [ts|] eqn:Hh'; [|discriminate].
    injection Hstep as <-. simpl.
    rewrite list_lookup_insert_ne; [done|]. congruence.
  - (* Stop *)
    injection Hstep as <-. simpl. done.
  - (* a worker *)
    destruct (Worker_step_Ok_lookup _ _ _ Hstep) as [w Hi].
    pose proof (Worker_step_cases i tp w HI Hi) as Hc.
    destruct w as [|task|task|task| |].
    + destruct (queue_ (Threadpool_queue_ tp)) as [|task rest] eqn:Hqu.
      * destruct (stopped_ (Threadpool_queue_ tp)); [|congruence].
        rewrite Hc in Hstep. injection Hstep as <-. simpl.
        follow_task t Hi Returned. rewrite ?Hqu. simpl in *.
        destruct Hwill as [[Hin Hst] | [Hrun | Hran]];
          [left; split; [lia|done] | right; left; lia | by right; right].
      * rewrite Hc in Hstep. injection Hstep as <-.
        unfold Pop. rewrite ?Hqu. simpl.
        follow_task t Hi (AtTryAssign task). simpl in Hwill.
        destruct Hwill as [[Hin Hst] | [Hrun | Hran]];
          [left; split; [lia|done] | right; left; lia | by right; right].
    + destruct Hc as (h' & ts & Ht & Hh & [[Hs Hc] | [Hs Hc]]);
        rewrite Hc in Hstep; injection Hstep as <-; simpl.
      * follow_task t Hi (AtRun task).
        destruct Hwill as [[Hin Hst] | [Hrun | Hran]];
          [| right; left; lia | by right; right].
        destruct (is_task_cases t task) as [Hz | Hone]; [|right; left; lia].
        left. split; [lia|].
        rewrite list_lookup_insert_ne; [done|]. intros ->.
        (* another task with the state of [t]: excluded, a state has one owner *)
        pose proof (inv_unique _ HI h) as Hu. unfold owners in Hu.
        pose proof (sum_list_with_insert (Worker_names h) _ _ _ Returned Hi) as Hx.
        pose proof (sum_list_with_insert (popped t) _ _ _ Returned Hi) as Hy.
        simpl in Hx, Hy.
        assert (names h task = 1) as Hone by (unfold names; by rewrite decide_True).
        pose proof (sum_list_with_le (is_task t) (names h)
                      (queue_ (Threadpool_queue_ tp))
                      (λ x, is_task_names t h x Hth)) as Hle1.
        pose proof (sum_list_with_le (popped t) (Worker_names h)
                      (<[i := Returned]> (workers_ tp))
                      (λ w, popped_names t h w Hth)) as Hle2.
        lia.
      * follow_task t Hi (AtTryComplete task).
        destruct Hwill as [[Hin Hst] | [Hrun | Hran]];
          [| right; left; lia | by right; right].
        destruct (is_task_cases t task) as [Hz | Hone]; [left; split; [lia|done]|].
        apply is_task_1 in Hone. subst task.
        rewrite Hth in Ht. injection Ht as <-.
        rewrite Hst in Hh. injection Hh as <-. discriminate.
    + rewrite Hc in Hstep. injection Hstep as <-. simpl.
      follow_task t Hi (AtTryComplete task).
      rewrite sum_list_with_app. simpl.
      destruct Hwill as [[Hin Hst] | [Hrun | Hran]];
        [left; split; [lia|done] | | right; right; lia].
      destruct (is_task_cases t task) as [Hz | Hone];
        [right; left; lia | right; right; lia].
    + destruct Hc as (h' & ts & Ht & Hh & Hhand & Hc).
      rewrite Hc in Hstep. injection Hstep as <-. simpl.
      follow_task t Hi AtNotify.
      destruct Hwill as [[Hin Hst] | [Hrun | Hran]];
        [left; split; [lia|] | right; left; lia | by right; right].
      rewrite list_lookup_insert_ne; [done|]. intros ->.
      rewrite Hst in Hh. injection Hh as <-.
      destruct Hhand as [Hhand | Hhand]; discriminate.
    + destruct Hc as (q' & Hn' & Hq' & Hs' & Ho' & Hc).
      rewrite Hc in Hstep. injection Hstep as <-. simpl.
      follow_task t Hi AtBlockingPop. rewrite Hq'.
      destruct Hwill as [[Hin Hst] | [Hrun | Hran]];
        [left; split; [lia|done] | right; left; lia | by right; right].
    + congruence.
Qed.

Lemma will_run_exec (trace : list Action) (t : Task) (h : nat) :
  ∀ tp tp', Inv tp → task_state_ t = Some h → will_run t h tp →
    CallCancel h ∉ trace → exec trace tp = Ok tp' → will_run t h tp'.
Proof.
  induction trace as [|a trace IH]; intros tp tp' HI Hth Hwill Hnc Hex; simpl in Hex.
  - by injection Hex as <-.
  - pose proof (Inv_step a tp HI) as HI1.
    destruct (step a tp) as [tp1| |] eqn:Hstep; [|done|done].
    apply not_elem_of_cons in Hnc as [Hna Hnc].
    apply (IH tp1); try done. by apply (will_run_step a tp).
Qed.


(** *** The teardown terminates *)


Lemma exec_app (t1 t2 : list Action) (tp tp1 : Threadpool) :
  exec t1 tp = Ok tp1 → exec (t1 ++ t2) tp = exec t2 tp1.
Proof.
  revert tp. induction t1 as [|a t1 IH]; intros tp H; simpl in *.
  - by injection H as ->.
  - destruct (step a tp) as [tp'| |]; [by apply IH | discriminate | discriminate].
Qed.

Lemma exec_Inv_Ok (trace : list Action) (tp tp' : Threadpool) :
  Inv tp → exec trace tp = Ok tp' → Inv tp'.
Proof. intros HI Hex. pose proof (Inv_exec trace tp HI) as H. by rewrite Hex in H. Qed.

(** Once the queue is stopped, a worker that has not returned can take
    its next step. *)
Lemma Worker_step_progress (i : nat) (tp : Threadpool) (w : Worker) :
  Inv tp → stopped_ (Threadpool_queue_ tp) = true →
  workers_ tp !! i = Some w → w ≠ Returned →
  ∃ tp', Worker_step i tp = Ok tp'.
Proof.
  intros HI Hs Hi Hne.
  pose proof (Worker_step_cases i tp w HI Hi) as Hc.
  destruct w; try done; eauto.
  - destruct (queue_ (Threadpool_queue_ tp)); [|eauto].
    rewrite Hs in Hc. eauto.
  - destruct Hc as (h & ts & _ & _ & [[_ Hc] | [_ Hc]]); eauto.
  - destruct Hc as (h & ts & _ & _ & _ & Hc); eauto.
  - destruct Hc as (q' & _ & _ & _ & _ & Hc); eauto.
Qed.

Lemma Worker_cost_0 (w : Worker) : Worker_cost w = 0 → w = Returned.
Proof. destruct w; simpl; intros H; try discriminate H; reflexivity. Qed.

Lemma Worker_cost_le (w : Worker) : Worker_cost w ≤ 5.
Proof. destruct w; simpl; lia. Qed.

Lemma Join_unfold (fuel : nat) (i : nat) (tp : Threadpool) (w : Worker) :
  workers_ tp !! i = Some w → w ≠ Returned →
  Join (S fuel) i tp
  = match Worker_step i tp with
    | Ok tp' => Join fuel i tp'
    | Abort => Abort
    | Wait => Wait
    end.
Proof. intros Hi Hne. simpl. rewrite Hi. destruct w; done. Qed.

Lemma Join_Returned (fuel : nat) (i : nat) (tp : Threadpool) :
  workers_ tp !! i = Some Returned → Join fuel i tp = Ok tp.
Proof. intros Hi. destruct fuel; simpl; by rewrite Hi. Qed.

(** Joining worker [i] of a stopped pool: with fuel for its remaining
    steps, the worker returns; the run is an interleaving made of steps
    of that worker only. *)
Lemma Join_returns (i : nat) (fuel : nat) :
  ∀ (tp : Threadpool) (w : Worker),
    Inv tp → stopped_ (Threadpool_queue_ tp) = true →
    workers_ tp !! i = Some w →
    Worker_cost w + 5 * length (queue_ (Threadpool_queue_ tp)) ≤ fuel →
    ∃ tp' trace,
      Join fuel i tp = Ok tp'
      ∧ exec trace tp = Ok tp' ∧ worker_steps trace
      ∧ workers_ tp' !! i = Some Returned
      ∧ (∀ j, j ≠ i → workers_ tp' !! j = workers_ tp !! j)
      ∧ length (workers_ tp') = length (workers_ tp)
      ∧ stopped_ (Threadpool_queue_ tp') = true
      ∧ length (queue_ (Threadpool_queue_ tp'))
        ≤ length (queue_ (Threadpool_queue_ tp)).
Proof.
  induction fuel as [|fuel IH]; intros tp w HI Hs Hi Hfuel.
  - assert (w = Returned) as -> by (apply Worker_cost_0; lia).
    exists tp, []. rewrite Join_Returned by done.
    repeat split; try done. constructor.
  - destruct (decide (w = Returned)) as [->|Hne].
    + exists tp, []. rewrite Join_Returned by done.
      repeat split; try done. constructor.
    + destruct (Worker_step_progress i tp w HI Hs Hi Hne) as [tp1 Hstep].
      destruct (Inv_Worker_step i tp tp1 HI Hstep)
        as (HI1 & Hs1 & _ & w0 & w1 & Hi0 & Hws & Hcost).
      rewrite Hi in Hi0. injection Hi0 as <-.
      assert (Hi1 : workers_ tp1 !! i = Some w1).
      { rewrite Hws. apply list_lookup_insert_eq. by eapply lookup_lt_Some. }
      pose proof (Worker_cost_le w) as Hle.
      destruct (IH tp1 w1 HI1) as (tp' & trace & HJ & Hex & Hsteps & Hr & Hoth & Hlen & Hs' & Hq');
        [congruence | done | lia |].
      exists tp', (WorkerStep i :: trace).
      rewrite (Join_unfold _ _ _ w Hi Hne), Hstep.
      split; [done|]. split; [simpl; by rewrite Hstep|].
      split; [constructor; [by exists i | done]|].
      split; [done|].
      split; [intros j Hj; rewrite Hoth, Hws by done; by apply list_lookup_insert_ne|].
      split; [by rewrite Hlen, Hws, length_insert|].
      split; [done|]. lia.
Qed.

(** Joining the workers [idxs] one after the other. *)
Lemma Join_each_returns (fuel : nat) (idxs : list nat) :
  ∀ tp : Threadpool,
    Inv tp → stopped_ (Threadpool_queue_ tp) = true →
    5 * length (queue_ (Threadpool_queue_ tp)) + 5 ≤ fuel →
    Forall (λ i, i < length (workers_ tp)) idxs →
    ∃ tp' trace,
      foldl (λ r i, match r with
                    | Ok tp' => Join fuel i tp'
                    | Abort => Abort
                    | Wait => Wait
                    end) (Ok tp) idxs = Ok tp'
      ∧ exec trace tp = Ok tp' ∧ worker_steps trace
      ∧ length (workers_ tp') = length (workers_ tp)
      ∧ ∀ j, (j ∈ idxs ∨ workers_ tp !! j = Some Returned) →
             workers_ tp' !! j = Some Returned.
Proof.
  induction idxs as [|i idxs IH]; intros tp HI Hs Hq Hidx; simpl.
  - exists tp, []. repeat split; try done; [constructor|].
    intros j [Hj | Hj]; [by apply elem_of_nil in Hj | done].
  - apply Forall_cons in Hidx as [Hi Hidx].
    apply lookup_lt_is_Some_2 in Hi as [w Hi].
    pose proof (Worker_cost_le w) as Hle.
    destruct (Join_returns i fuel tp w HI Hs Hi)
      as (tp1 & t1 & HJ & Hex1 & Hst1 & Hr1 & Hoth1 & Hlen1 & Hs1 & Hq1); [lia|].
    rewrite HJ.
    destruct (IH tp1) as (tp' & t2 & Hfold & Hex2 & Hst2 & Hlen2 & Hret);
      [by eapply exec_Inv_Ok | done | lia | by rewrite Hlen1 |].
    exists tp', (t1 ++ t2).
    split; [done|]. split; [by rewrite (exec_app _ _ _ _ Hex1)|].
    split; [by apply Forall_app|]. split; [congruence|].
    intros j Hj. apply Hret.
    destruct (decide (j = i)) as [->|Hne]; [by right|].
    destruct Hj as [Hj | Hj].
    + apply elem_of_cons in Hj as [? | Hj]; [done | by left].
    + right. by rewrite Hoth1.
Qed.

(** The destructor returns: every worker is joined, by an interleaving
    made of the stop and of worker steps. *)
Lemma Threadpool_destroy_returns (tp : Threadpool) :
  Inv tp →
  ∃ tp' trace,
    Threadpool_destroy tp = Ok tp'
    ∧ exec (CallStop :: trace) tp = Ok tp' ∧ worker_steps trace
    ∧ all_returned tp'.
Proof.
  intros HI. unfold Threadpool_destroy.
  set (tp1 := {| heap := heap tp; Threadpool_queue_ := Stop (Threadpool_queue_ tp);
                 workers_ := workers_ tp; ran := ran tp |}).
  destruct (Join_each_returns (5 * length (queue_ (Threadpool_queue_ tp)) + 5)
              (seq 0 (length (workers_ tp))) tp1)
    as (tp' & trace & Hfold & Hex & Hsteps & Hlen & Hret).
  - by apply Inv_Stop.
  - reflexivity.
  - reflexivity.
  - apply Forall_forall. intros i Hi. apply elem_of_seq in Hi. simpl. lia.
  - exists tp', trace. split; [done|]. split; [done|]. split; [done|].
    apply Forall_lookup. intros j w Hj.
    assert (Hin : j ∈ seq 0 (length (workers_ tp))).
    { apply elem_of_seq. apply lookup_lt_Some in Hj. simpl in Hlen. lia. }
    specialize (Hret j (or_introl Hin)). congruence.
Qed.


Lemma sum_all_returned (f : Worker → nat) (tp : Threadpool) :
  f Returned = 0 → all_returned tp → sum_list_with f (workers_ tp) = 0.
Proof.
  intros Hf Hall. apply sum_list_with_0.
  eapply Forall_impl; [exact Hall|]. by intros w ->.
Qed.

Lemma all_returned_queue (tp : Threadpool) :
  Inv tp → all_returned tp → queue_ (Threadpool_queue_ tp) = [].
Proof.
  intros HI Hall.
  destruct (lookup_lt_is_Some_2 _ _ (inv_size _ HI)) as [w Hw].
  pose proof (Forall_lookup_1 _ _ _ _ Hall Hw) as ->.
  by destruct (inv_returned _ HI (ex_intro _ 0 Hw)).
Qed.

Lemma is_task_elem_of (t : Task) (l : list Task) :
  1 ≤ sum_list_with (is_task t) l → t ∈ l.
Proof.
  induction l as [|x l IH]; simpl; [lia|].
  destruct (is_task_cases t x) as [Hz | Hone].
  - intros H. right. apply IH. lia.
  - intros _. apply is_task_1 in Hone as ->. by left.
Qed.

Lemma elem_of_is_task (t : Task) (l : list Task) :
  t ∈ l → 1 ≤ sum_list_with (is_task t) l.
Proof.
  intros Hin. apply (sum_list_with_in _ (is_task t)) in Hin.
  unfold is_task at 1 in Hin. by rewrite decide_True in Hin.
Qed.

(** What the end of any teardown means for a task that was in the
    queue. *)
Lemma queued_task_completes (tp tp' : Threadpool) (trace : list Action)
    (task : Task) :
  Inv tp → exec trace tp = Ok tp' → all_returned tp' →
  task ∈ queue_ (Threadpool_queue_ tp) →
  ∃ h, task_state_ task = Some h
       ∧ heap tp' !! h = Some {| state_ := COMPLETED |}
       ∧ (heap tp !! h = Some {| state_ := QUEUED |} →
          CallCancel h ∉ trace → task ∈ ran tp').
Proof.
  intros HI Hex Hall Hin.
  pose proof (exec_Inv_Ok _ _ _ HI Hex) as HI'.
  pose proof (all_returned_queue _ HI' Hall) as Hq'.
  destruct (proj1 (Forall_forall _ _) (inv_queue _ HI) task Hin) as (s & Hs & _).
  apply handle_state_Some in Hs as (h & ts & Ht & Hh & _).
  exists h. split; [done|]. split.
  - assert (Hset : settled h tp).
    { left. unfold owners.
      apply (sum_list_with_in _ (names h)) in Hin.
      unfold names at 1 in Hin. rewrite decide_True in Hin by done. lia. }
    destruct (settled_exec trace h tp tp' HI Hset Hex) as [Hown | Hdone]; [|done].
    unfold owners in Hown. rewrite Hq' in Hown. simpl in Hown.
    rewrite (sum_all_returned (Worker_names h)) in Hown by done. lia.
  - intros Hst Hnc.
    assert (Hwill : will_run task h tp).
    { left. split; [|done]. apply elem_of_is_task in Hin. lia. }
    destruct (will_run_exec trace task h tp tp' HI Ht Hwill Hnc Hex)
      as [[Hsum _] | [Hsum | Hsum]].
    + rewrite Hq' in Hsum. simpl in Hsum.
      rewrite (sum_all_returned (popped task)) in Hsum by done. lia.
    + rewrite (sum_all_returned (running task)) in Hsum by done. lia.
    + by apply is_task_elem_of.
Qed.

(** And for the task a worker was busy with. *)
Lemma held_task_completes (tp tp' : Threadpool) (trace : list Action)
    (i : nat) (w : Worker) (task : Task) :
  Inv tp → exec trace tp = Ok tp' → all_returned tp' →
  workers_ tp !! i = Some w → held w = Some task →
  ∃ h, task_state_ task = Some h
       ∧ heap tp' !! h = Some {| state_ := COMPLETED |}.
Proof.
  intros HI Hex Hall Hi Hheld.
  pose proof (exec_Inv_Ok _ _ _ HI Hex) as HI'.
  pose proof (all_returned_queue _ HI' Hall) as Hq'.
  pose proof (Forall_lookup_1 _ _ _ _ (inv_workers _ HI) Hi) as Hok.
  assert (Hin : task_in (heap tp) (λ _, True) task).
  { destruct w; simpl in Hheld; try discriminate; injection Hheld as <-;
      simpl in Hok; eapply task_in_impl; try exact Hok; done. }
  destruct Hin as (s & Hs & _).
  apply handle_state_Some in Hs as (h & ts & Ht & Hh & _).
  exists h. split; [done|].
  assert (Hset : settled h tp).
  { left. unfold owners.
    pose proof (Worker_names_le_sum h _ _ _ Hi) as Hle.
    unfold Worker_names in Hle at 1. rewrite Hheld in Hle.
    unfold names in Hle at 1. rewrite decide_True in Hle by done. lia. }
  destruct (settled_exec trace h tp tp' HI Hset Hex) as [Hown | Hdone]; [|done].
  unfold owners in Hown. rewrite Hq' in Hown. simpl in Hown.
  rewrite (sum_all_returned (Worker_names h)) in Hown by done. lia.
Qed.

Lemma worker_steps_no_cancel (trace : list Action) (h : nat) :
  worker_steps trace → CallCancel h ∉ (CallStop :: trace).
Proof.
  intros Hsteps Hin. apply elem_of_cons in Hin as [Hin | Hin]; [discriminate|].
  destruct (proj1 (Forall_forall _ _) Hsteps _ Hin) as [i Hi]. discriminate.
Qed.

(** C2, as the code has it.  For every pool state that can arise: the
    destructor returns, having stopped the queue and joined every
    worker; at the end of any interleaving in which every worker has
    returned, the queue is empty and each task that was still queued has
    been popped and completed, its state COMPLETED (not QUEUED); such a
    task ran if its state was QUEUED and nobody cancelled it in between,
    which is the case in the destructor's own run; and the task a worker
    was busy with is completed as well. *)
Theorem teardown_drains_the_queue (tp : Threadpool) :
  reachable tp →
  (∃ tp', Threadpool_destroy tp = Ok tp' ∧ all_returned tp'
          ∧ queue_ (Threadpool_queue_ tp') = []
          ∧ (∀ task, task ∈ queue_ (Threadpool_queue_ tp) →
               ∃ h, task_state_ task = Some h
                    ∧ heap tp' !! h = Some {| state_ := COMPLETED |}
                    ∧ (heap tp !! h = Some {| state_ := QUEUED |} → task ∈ ran tp'))
          ∧ (∀ i w task, workers_ tp !! i = Some w → held w = Some task →
               ∃ h, task_state_ task = Some h
                    ∧ heap tp' !! h = Some {| state_ := COMPLETED |}))
  ∧ (∀ trace tp',
       exec trace tp = Ok tp' → all_returned tp' →
       queue_ (Threadpool_queue_ tp') = []
       ∧ (∀ task, task ∈ queue_ (Threadpool_queue_ tp) →
            ∃ h, task_state_ task = Some h
                 ∧ heap tp' !! h = Some {| state_ := COMPLETED |}
                 ∧ (heap tp !! h = Some {| state_ := QUEUED |} →
                    CallCancel h ∉ trace → task ∈ ran tp'))
       ∧ (∀ i w task, workers_ tp !! i = Some w → held w = Some task →
            ∃ h, task_state_ task = Some h
                 ∧ heap tp' !! h = Some {| state_ := COMPLETED |})).
Proof.
  intros Hreach. pose proof (reachable_Inv tp Hreach) as HI. split.
  - destruct (Threadpool_destroy_returns tp HI) as (tp' & trace & Hd & Hex & Hsteps & Hall).
    exists tp'. split; [done|]. split; [done|].
    split; [apply all_returned_queue; [by eapply exec_Inv_Ok | done]|].
    split.
    + intros task Hin.
      destruct (queued_task_completes tp tp' _ task HI Hex Hall Hin)
        as (h & Ht & Hdone & Hran).
      exists h. split; [done|]. split; [done|].
      intros Hst. apply Hran; [done|]. by apply worker_steps_no_cancel.
    + intros i w task Hi Hheld. by eapply held_task_completes.
  - intros trace tp' Hex Hall.
    split; [apply all_returned_queue; [by eapply exec_Inv_Ok | done]|].
    split.
    + intros task Hin. by apply (queued_task_completes tp tp' trace).
    + intros i w task Hi Hheld. by eapply held_task_completes.
Qed.

Lemma dropped_exec (trace : list Action) (h : nat) :
  ∀ tp tp', Inv tp → dropped h tp → exec trace tp = Ok tp' →
    dropped h tp'
    ∧ (CallCancel h ∉ trace → heap tp !! h = Some {| state_ := INITIAL |} →
       heap tp' !! h = Some {| state_ := INITIAL |}).
Proof.
  induction trace as [|a trace IH]; intros tp tp' HI Hd Hex; simpl in Hex.
  - injection Hex as <-. done.
  - pose proof (Inv_step a tp HI) as HI1.
    destruct (step a tp) as [tp1| |] eqn:Hstep; [|done|done].
    destruct (dropped_step a tp tp1 h HI Hd Hstep) as [Hd1 Hkeep1].
    destruct (IH tp1 tp' HI1 Hd1 Hex) as [Hd' Hkeep'].
    split; [done|]. intros Hnc Hst.
    apply not_elem_of_cons in Hnc as [Hna Hnc]. auto.
Qed.

(** C10, as the code has it.  In every pool state that can arise,
    [Post] does not fail and returns a non-null handle to a [TaskState]
    that did not exist before.  On a queue that is not stopped the task
    is queued with that state, now QUEUED.  On a stopped queue the push
    is rejected: the queue, the workers and the record of runs are as
    before and the state is INITIAL; from then on, whatever happens,
    nothing owns that state, no task that points to it runs, and it is
    INITIAL as long as no holder of the handle cancels it, CANCELLED
    afterwards. *)
Theorem Post_returns_a_fresh_handle (tp : Threadpool) (task : Task) :
  reachable tp →
  ∃ tp', Post task tp = Ok (tp', Some (length (heap tp)))
    ∧ heap tp !! length (heap tp) = None
    ∧ (stopped_ (Threadpool_queue_ tp) = false →
       heap tp' !! length (heap tp) = Some {| state_ := QUEUED |}
       ∧ queue_ (Threadpool_queue_ tp')
         = queue_ (Threadpool_queue_ tp) ++ [SetTaskState (length (heap tp)) task])
    ∧ (stopped_ (Threadpool_queue_ tp) = true →
       Threadpool_queue_ tp' = Threadpool_queue_ tp
       ∧ workers_ tp' = workers_ tp ∧ ran tp' = ran tp
       ∧ heap tp' !! length (heap tp) = Some {| state_ := INITIAL |}
       ∧ ∀ trace tp'', exec trace tp' = Ok tp'' →
           owners (length (heap tp)) tp'' = 0
           ∧ Forall (λ t, task_state_ t ≠ Some (length (heap tp))) (ran tp'')
           ∧ (heap tp'' !! length (heap tp) = Some {| state_ := INITIAL |}
              ∨ heap tp'' !! length (heap tp) = Some {| state_ := CANCELLED |})
           ∧ (CallCancel (length (heap tp)) ∉ trace →
              heap tp'' !! length (heap tp) = Some {| state_ := INITIAL |})).
Proof.
  intros Hreach. pose proof (reachable_Inv tp Hreach) as HI.
  destruct (Inv_Post task tp HI) as (tp' & HP & HI').
  exists tp'. split; [done|].
  split; [by apply lookup_ge_None|].
  split.
  - intros Hs. rewrite Post_accepted in HP by done. injection HP as <-. simpl.
    split; [by apply list_lookup_middle | done].
  - intros Hs. rewrite Post_stopped in HP by done. injection HP as <-. simpl.
    split; [done|]. split; [done|]. split; [done|].
    assert (Hst : (heap tp ++ [TaskState_new]) !! length (heap tp)
                  = Some {| state_ := INITIAL |}) by (by apply list_lookup_middle).
    split; [done|].
    intros trace tp'' Hex.
    set (tp' := {| heap := heap tp ++ [TaskState_new];
                   Threadpool_queue_ := Threadpool_queue_ tp;
                   workers_ := workers_ tp; ran := ran tp |}) in *.
    assert (Hd : dropped (length (heap tp)) tp').
    { split; [|split].
      - by apply (owners_fresh tp).
      - apply sum_list_with_0. eapply Forall_impl; [exact (inv_ran _ HI)|].
        intros t Ht. by eapply task_in_names_fresh.
      - by left. }
    destruct (dropped_exec trace _ tp' tp'' HI' Hd Hex) as [(Ho & Hr & Hs') Hkeep].
    split; [done|]. split; [|split; [done|auto]].
    apply sum_list_with_0 in Hr. eapply Forall_impl; [exact Hr|].
    intros t. unfold names. case_decide; [discriminate|done].
Qed.

End Threadpool_facts.

(** *** Concrete runs of the pool *)

Section Threadpool_runs.
Import threadpool spec.


Lemma stopped_with_one_queued_reachable : reachable stopped_with_one_queued.
Proof. exists 1, [CallPost (Task_new 7); CallStop]. split; [lia | reflexivity]. Qed.

(** C2 fails on the code: the task left in the queue of a stopped pool is
    popped and run by the worker before it returns, and its state ends
    COMPLETED, not QUEUED. *)
Lemma teardown_runs_the_queued_task :
  exec [CallPost (Task_new 7); CallStop] (Threadpool_new 1)
  = Ok stopped_with_one_queued
  ∧ Threadpool_destroy stopped_with_one_queued
    = Ok {| heap := [{| state_ := COMPLETED |}];
            Threadpool_queue_ :=
              {| queue_ := []; outstanding_tasks_ := 0; stopped_ := true;
                 task_available_ := [Signal; Broadcast; Broadcast];
                 tasks_drained_ := [Broadcast] |};
            workers_ := [Returned];
            ran := [{| Run_ := 7; task_state_ := Some 0 |}] |}.
Proof. split; reflexivity. Qed.

Lemma teardown_drains_the_queue_witness :
  ∃ tp', Threadpool_destroy stopped_with_one_queued = Ok tp' ∧ all_returned tp'
         ∧ queue_ (Threadpool_queue_ tp') = []
         ∧ (∀ task, task ∈ queue_ (Threadpool_queue_ stopped_with_one_queued) →
              ∃ h, task_state_ task = Some h
                   ∧ heap tp' !! h = Some {| state_ := COMPLETED |}
                   ∧ (heap stopped_with_one_queued !! h = Some {| state_ := QUEUED |} →
                      task ∈ ran tp'))
         ∧ (∀ i w task, workers_ stopped_with_one_queued !! i = Some w →
              held w = Some task →
              ∃ h, task_state_ task = Some h
                   ∧ heap tp' !! h = Some {| state_ := COMPLETED |}).
Proof.
  apply (teardown_drains_the_queue stopped_with_one_queued).
  exists 1, [CallPost (Task_new 7); CallStop]. split; [lia | reflexivity].
Defined.


Lemma Worker_checks_never_fail_witness :
  ∃ heap', Task_TryUpdateState {| Run_ := 7; task_state_ := Some 0 |} COMPLETED
             (heap cancelled_while_running) = Some (heap', COMPLETED).
Proof.
  apply (Worker_checks_never_fail cancelled_while_running 0
           {| Run_ := 7; task_state_ := Some 0 |}).
  - exists 1, [CallPost (Task_new 7); WorkerStep 0; WorkerStep 0; CallCancel 0;
               WorkerStep 0].
    split; [lia | reflexivity].
  - reflexivity.
Defined.

(** C10 fails on the code in one point: after a post that a stopped queue
    rejected, the holder of the returned handle can still cancel, and
    the state is then CANCELLED, not INITIAL.  The executor is such a
    holder: a request submitted to a stopped pool keeps the handle in its
    cookie, and cancelling the request succeeds. *)
Lemma rejected_post_can_be_cancelled :
  Post (Task_new 7)
    {| heap := []; Threadpool_queue_ := Stop TaskQueue_new;
       workers_ := [AtBlockingPop]; ran := [] |}
  = Ok ({| heap := [{| state_ := INITIAL |}]; Threadpool_queue_ := Stop TaskQueue_new;
           workers_ := [AtBlockingPop]; ran := [] |}, Some 0)
  ∧ exec [CallCancel 0]
      {| heap := [{| state_ := INITIAL |}]; Threadpool_queue_ := Stop TaskQueue_new;
         workers_ := [AtBlockingPop]; ran := [] |}
    = Ok {| heap := [{| state_ := CANCELLED |}]; Threadpool_queue_ := Stop TaskQueue_new;
            workers_ := [AtBlockingPop]; ran := [] |}
  ∧ uv_executor_submit {| work_cb := 7; reserved0 := None |}
      {| heap := []; Threadpool_queue_ := Stop TaskQueue_new;
         workers_ := [AtBlockingPop]; ran := [] |}
    = Ok ({| heap := [{| state_ := INITIAL |}]; Threadpool_queue_ := Stop TaskQueue_new;
             workers_ := [AtBlockingPop]; ran := [] |},
          {| work_cb := 7; reserved0 := Some {| LibuvTaskData_state_ := 0 |} |})
  ∧ uv_executor_cancel (-22) (-16)
      (Some {| work_cb := 7; reserved0 := Some {| LibuvTaskData_state_ := 0 |} |})
      [{| state_ := INITIAL |}]
    = Some ([{| state_ := CANCELLED |}], 0%Z).
Proof. repeat split; reflexivity. Qed.

Lemma Post_returns_a_fresh_handle_witness :
  ∃ tp', Post (Task_new 9) stopped_with_one_queued = Ok (tp', Some 1)
         ∧ heap tp' !! 1 = Some {| state_ := INITIAL |}
         ∧ Threadpool_queue_ tp' = Threadpool_queue_ stopped_with_one_queued.
Proof.
  destruct (Post_returns_a_fresh_handle stopped_with_one_queued (Task_new 9))
    as (tp' & HP & _ & _ & Hstopped).
  - exists 1, [CallPost (Task_new 7); CallStop]. split; [lia | reflexivity].
  - destruct (Hstopped eq_refl) as (Hq & _ & _ & Hst & _).
    exists tp'. split; [exact HP|]. split; [exact Hst | exact Hq].
Defined.

End Threadpool_runs.

(** *** TaskQueue::Push and LibuvExecutor *)

Section Push_facts.
Import threadpool spec.

(** C4.  After [Stop] the queue is stopped.  [Push] on a stopped queue
    returns false and leaves the heap and the queue (contents and
    outstanding counter included) as they were.  [Push] on a queue that
    is not stopped, of a task whose state is INITIAL (or already QUEUED
    or CANCELLED), returns true: the state is QUEUED, or still CANCELLED
    if it was, the task is at the back of the queue, the outstanding
    counter is one more, and one [Signal] was issued on
    [task_available_]. *)
Theorem TaskQueue_Push_contract (task : Task) (heap : list TaskState) (q : TaskQueue) :
  stopped_ (Stop q) = true
  ∧ (stopped_ q = true → Push task heap q = Some (heap, q, false))
  ∧ (stopped_ q = false →
     ∀ h ts, task_state_ task = Some h → heap !! h = Some ts →
       state_ ts = INITIAL ∨ state_ ts = QUEUED ∨ state_ ts = CANCELLED →
       Push task heap q
       = Some (<[h := {| state_ := if decide (state_ ts = CANCELLED)
                                   then CANCELLED else QUEUED |}]> heap,
               {| queue_ := queue_ q ++ [task];
                  outstanding_tasks_ := outstanding_tasks_ q + 1;
                  stopped_ := false;
                  task_available_ := task_available_ q ++ [Signal];
                  tasks_drained_ := tasks_drained_ q |},
               true)).
Proof.
  split; [reflexivity|]. split.
  - intros Hs. unfold Push. by rewrite Hs.
  - intros Hs h [s] Ht Hh Hst. simpl in Hst.
    unfold Push, Task_TryUpdateState, TryUpdateState.
    rewrite Hs, Ht. simpl. rewrite Hh. simpl.
    destruct Hst as [-> | [-> | ->]]; reflexivity.
Qed.

Lemma TaskQueue_Push_contract_witness :
  Push {| Run_ := 7; task_state_ := Some 0 |} [{| state_ := INITIAL |}] TaskQueue_new
  = Some ([{| state_ := QUEUED |}],
          {| queue_ := [{| Run_ := 7; task_state_ := Some 0 |}];
             outstanding_tasks_ := 1; stopped_ := false;
             task_available_ := [Signal]; tasks_drained_ := [] |}, true).
Proof.
  apply (proj2 (proj2 (TaskQueue_Push_contract
                         {| Run_ := 7; task_state_ := Some 0 |}
                         [{| state_ := INITIAL |}] TaskQueue_new))
           eq_refl 0 {| state_ := INITIAL |} eq_refl eq_refl).
  left. reflexivity.
Defined.

(** A task that a worker owns or that is completed is never pushed; if it
    were, the [CHECK] in [Push] would fail. *)
Lemma Push_checks_state (task : Task) (heap : list TaskState) (q : TaskQueue)
    (h : nat) (ts : TaskState) :
  stopped_ q = false → task_state_ task = Some h → heap !! h = Some ts →
  state_ ts = ASSIGNED ∨ state_ ts = COMPLETED →
  Push task heap q = None.
Proof.
  intros Hs Ht Hh Hst. destruct ts as [s]. simpl in Hst.
  unfold Push, Task_TryUpdateState, TryUpdateState.
  rewrite Hs, Ht. simpl. rewrite Hh. simpl.
  destruct Hst as [-> | ->]; reflexivity.
Qed.

End Push_facts.

Section LibuvExecutor_facts.
Import threadpool spec.
Variables UV_EINVAL UV_EBUSY : Z.
Hypothesis UV_EBUSY_nonzero : UV_EBUSY ≠ 0%Z.

Lemma Cancel_fails_iff_COMPLETED (ts : TaskState) :
  ((Cancel ts).2 = true ↔ state_ (Cancel ts).1 = CANCELLED)
  ∧ ((Cancel ts).2 = false ↔ state_ ts = COMPLETED).
Proof. destruct ts as [[]]; simpl; split; split; (done || discriminate). Qed.

(** C5, as the code has it.  [uv_executor_cancel] returns [UV_EINVAL] for
    a null request and for a request without cookie, and changes
    nothing.  Otherwise it cancels the [TaskState] of the cookie and
    returns 0 exactly when the cancel succeeds (the state afterwards is
    CANCELLED) and [UV_EBUSY] exactly when it fails, which is exactly
    when the task was already COMPLETED: a task that is ASSIGNED is still
    cancelled. *)
Theorem uv_executor_cancel_result (req : option uv_work_t) (heap : list TaskState) :
  ((req = None ∨ ∃ r, req = Some r ∧ reserved0 r = None) →
   uv_executor_cancel UV_EINVAL UV_EBUSY req heap = Some (heap, UV_EINVAL))
  ∧ (∀ r h ts,
       req = Some r → reserved0 r = Some {| LibuvTaskData_state_ := h |} →
       heap !! h = Some ts →
       ∃ code,
         uv_executor_cancel UV_EINVAL UV_EBUSY req heap
         = Some (<[h := (Cancel ts).1]> heap, code)
         ∧ (code = 0%Z ↔ (Cancel ts).2 = true)
         ∧ ((Cancel ts).2 = true ↔ state_ (Cancel ts).1 = CANCELLED)
         ∧ (code = UV_EBUSY ↔ (Cancel ts).2 = false)
         ∧ ((Cancel ts).2 = false ↔ state_ ts = COMPLETED)).
Proof.
  split.
  - intros [-> | (r & -> & Hr)]; simpl; [done | by rewrite Hr].
  - intros r h ts -> Hr Hh.
    destruct (Cancel_fails_iff_COMPLETED ts) as [Hok Hfail].
    unfold uv_executor_cancel, LibuvExecutor_Cancel. rewrite Hr. simpl.
    rewrite Hh. clear Hh.
    destruct ts as [[]]; simpl in *; eexists;
      (split; [reflexivity|]); (split; [|split; [done|split; [|done]]]);
      split; intros E; try done; by destruct UV_EBUSY_nonzero.
Qed.

End LibuvExecutor_facts.

Section LibuvExecutor_runs.
Import threadpool spec.

(** C5 fails on the code for a task that is already ASSIGNED: the cancel
    succeeds, the state becomes CANCELLED, and the result is 0, not
    [UV_EBUSY] (-16 here, with [UV_EINVAL] = -22). *)
Lemma cancel_of_an_assigned_task_succeeds :
  uv_executor_cancel (-22) (-16)
    (Some {| work_cb := 1; reserved0 := Some {| LibuvTaskData_state_ := 0 |} |})
    [{| state_ := ASSIGNED |}]
  = Some ([{| state_ := CANCELLED |}], 0%Z).
Proof. reflexivity. Qed.

Lemma uv_executor_cancel_result_witness :
  ∃ code,
    uv_executor_cancel (-22) (-16)
      (Some {| work_cb := 1; reserved0 := Some {| LibuvTaskData_state_ := 0 |} |})
      [{| state_ := COMPLETED |}]
    = Some (<[0 := (Cancel {| state_ := COMPLETED |}).1]> [{| state_ := COMPLETED |}], code)
    ∧ (code = 0%Z ↔ (Cancel {| state_ := COMPLETED |}).2 = true)
    ∧ ((Cancel {| state_ := COMPLETED |}).2 = true
       ↔ state_ (Cancel {| state_ := COMPLETED |}).1 = CANCELLED)
    ∧ (code = (-16)%Z ↔ (Cancel {| state_ := COMPLETED |}).2 = false)
    ∧ ((Cancel {| state_ := COMPLETED |}).2 = false
       ↔ state_ {| state_ := COMPLETED |} = COMPLETED).
Proof.
  apply (proj2 (uv_executor_cancel_result (-22) (-16) ltac:(lia)
                  (Some {| work_cb := 1;
                           reserved0 := Some {| LibuvTaskData_state_ := 0 |} |})
                  [{| state_ := COMPLETED |}])
           {| work_cb := 1; reserved0 := Some {| LibuvTaskData_state_ := 0 |} |}
           0 {| state_ := COMPLETED |} eq_refl eq_refl eq_refl).
Defined.

End LibuvExecutor_runs.

(** *** Delays, runners and the platform *)

Section delay_facts.
Import platform spec platform_spec.


Lemma Qfloor_unique (q : Q) (z : Z) :
  (inject_Z z <= q)%Q → (q < inject_Z (z + 1))%Q → Qfloor q = z.
Proof.
  intros Hle Hlt.
  assert (H1 : (z <= Qfloor q)%Z).
  { rewrite <- (Qfloor_Z z). by apply Qfloor_resp_le. }
  assert (H2 : (Qfloor q < z + 1)%Z).
  { rewrite Zlt_Qlt. eapply Qle_lt_trans; [apply Qfloor_le | exact Hlt]. }
  lia.
Qed.

Lemma round_half_up_floor (q : Q) : round_half_up q = Qfloor (q + (1 # 2)).
Proof.
  unfold round_half_up.
  pose proof (Qfloor_le q) as Hle. pose proof (Qlt_floor q) as Hlt.
  rewrite inject_Z_plus in Hlt. change (inject_Z 1) with 1%Q in Hlt.
  destruct (Qcompare_spec (q - inject_Z (Qfloor q)) (1 # 2)) as [E | E | E];
    symmetry; apply Qfloor_unique; rewrite ?inject_Z_plus;
    change (inject_Z 1) with 1%Q; lra.
Qed.

(** Truncation of a double that is not negative is the floor of its
    value. *)
Lemma shiftl_floor (m : positive) (e : Z) :
  Z.shiftl (Z.pos m) e = Qfloor (SF2Q (S754_finite false m e)).
Proof.
  unfold SF2Q. destruct (Z.leb_spec 0 e) as [He | He].
  - rewrite Qfloor_Z. apply Z.shiftl_mul_pow2. exact He.
  - rewrite <- Z.shiftr_opp_r, Z.shiftr_div_pow2 by lia.
    unfold Qfloor. f_equal.
    rewrite Pos2Z.inj_pow, Z2Pos.id by lia. reflexivity.
Qed.

Lemma static_cast_uint64_floor (m : positive) (e : Z) :
  (Qfloor (SF2Q (S754_finite false m e)) < 2 ^ 64)%Z →
  static_cast_uint64 (S754_finite false m e)
  = Some (Qfloor (SF2Q (S754_finite false m e))).
Proof.
  intros Hlt. unfold static_cast_uint64. rewrite shiftl_floor.
  destruct (Z.ltb_spec (Qfloor (SF2Q (S754_finite false m e))) (2 ^ 64)); [done|lia].
Qed.

Lemma round_half_up_nonneg (m : positive) (e : Z) :
  (0 <= Qfloor (SF2Q (S754_finite false m e)))%Z.
Proof. rewrite <- shiftl_floor. apply Z.shiftl_nonneg. lia. Qed.

(** The delay in milliseconds, when the sum [delay + 0.5] is a positive
    double computed without rounding error. *)
Lemma delay_millis_exact (d : spec_float) (m : positive) (e : Z) :
  double_add d double_0_5 = S754_finite false m e →
  (SF2Q (S754_finite false m e) == SF2Q d + (1 # 2))%Q →
  (round_half_up (SF2Q d) * 1000 < 2 ^ 64)%Z →
  delay_millis d = Some (round_half_up (SF2Q d) * 1000)%Z.
Proof.
  intros Hadd Hexact Hlt. unfold delay_millis. rewrite Hadd.
  rewrite round_half_up_floor in *. rewrite <- Hexact in *.
  pose proof (round_half_up_nonneg m e) as H0.
  rewrite static_cast_uint64_floor by lia.
  cbn [mbind option_bind]. rewrite Z.mod_small by lia. reflexivity.
Qed.

End delay_facts.

(** *** The sum [delay + 0.5], rounded to a double *)

Section sum_facts.
Import platform spec platform_spec.

#[local] Open Scope Z_scope.

(** The number of binary digits of a positive number. *)
Lemma digits2_pos_bounds (p : positive) :
  2 ^ (Z.pos (digits2_pos p) - 1) ≤ Z.pos p < 2 ^ Z.pos (digits2_pos p).
Proof.
  induction p as [p IH|p IH|]; cbn [digits2_pos].
  - rewrite Pos2Z.inj_succ.
    replace (Z.succ (Z.pos (digits2_pos p)) - 1) with (Z.succ (Z.pos (digits2_pos p) - 1))
      by lia.
    rewrite !Z.pow_succ_r by lia. lia.
  - rewrite Pos2Z.inj_succ.
    replace (Z.succ (Z.pos (digits2_pos p)) - 1) with (Z.succ (Z.pos (digits2_pos p) - 1))
      by lia.
    rewrite !Z.pow_succ_r by lia. lia.
  - simpl. lia.
Qed.

Lemma digits2_pos_unique (p : positive) (D : Z) :
  2 ^ (D - 1) ≤ Z.pos p < 2 ^ D → Z.pos (digits2_pos p) = D.
Proof.
  intros [Hlo Hhi]. pose proof (digits2_pos_bounds p) as [Hlo' Hhi'].
  assert (0 < D) as HD.
  { destruct (Z.lt_trichotomy D 0) as [Hn | [-> | Hp]]; [|simpl in Hhi; lia|done].
    rewrite Z.pow_neg_r in Hhi by lia. lia. }
  destruct (Z.lt_trichotomy (Z.pos (digits2_pos p)) D) as [Hlt | [Heq | Hgt]]; [|done|].
  - assert (2 ^ Z.pos (digits2_pos p) ≤ 2 ^ (D - 1)) by (apply Z.pow_le_mono_r; lia). lia.
  - assert (2 ^ D ≤ 2 ^ (Z.pos (digits2_pos p) - 1)) by (apply Z.pow_le_mono_r; lia). lia.
Qed.


(** [iter_pos] applies its function as many times as its number says. *)
Lemma iter_pos_nat {A : Type} (f : A → A) (n : positive) :
  ∀ x, SpecFloat.iter_pos f n x = Nat.iter (Pos.to_nat n) f x.
Proof.
  induction n as [n IH|n IH|]; intros x; cbn [SpecFloat.iter_pos].
  - rewrite !IH, Pos2Nat.inj_xI, <- Nat.iter_add, <- Nat.iter_succ_r.
    f_equal. lia.
  - rewrite !IH, Pos2Nat.inj_xO, <- Nat.iter_add. f_equal. lia.
  - reflexivity.
Qed.

(** One step of the right shift of a mantissa that is not negative. *)
Lemma shr_1_nonneg (m : Z) (r s : bool) :
  0 ≤ m →
  shr_1 {| shr_m := m; shr_r := r; shr_s := s |}
  = {| shr_m := m / 2; shr_r := Z.odd m; shr_s := r || s |}.
Proof.
  intros Hm. rewrite <- Z.div2_div.
  destruct m as [|[p|p|]|]; try reflexivity. lia.
Qed.

(** The right shift by [k + 1] digits: the quotient, the digit shifted
    out last and whether a digit shifted out before is set. *)
Lemma shr_iter (M : Z) (k : nat) :
  0 ≤ M →
  Nat.iter (S k) shr_1 {| shr_m := M; shr_r := false; shr_s := false |}
  = {| shr_m := M / 2 ^ Z.of_nat (S k);
       shr_r := Z.odd (M / 2 ^ Z.of_nat k);
       shr_s := negb (M mod 2 ^ Z.of_nat k =? 0) |}.
Proof.
  intros HM. induction k as [|k IH].
  - cbn [Nat.iter]. rewrite shr_1_nonneg by done.
    change (2 ^ Z.of_nat 1) with 2. change (2 ^ Z.of_nat 0) with 1.
    by rewrite Z.div_1_r, Z.mod_1_r.
  - rewrite Nat.iter_succ, IH.
    assert (0 < 2 ^ Z.of_nat k) as Hk by (apply Z.pow_pos_nonneg; lia).
    assert (2 ^ Z.of_nat (S k) = 2 ^ Z.of_nat k * 2) as E1.
    { rewrite Nat2Z.inj_succ, Z.pow_succ_r by lia. lia. }
    assert (2 ^ Z.of_nat (S (S k)) = 2 ^ Z.of_nat (S k) * 2) as E2.
    { rewrite (Nat2Z.inj_succ (S k)), Z.pow_succ_r by lia. lia. }
    rewrite shr_1_nonneg by (apply Z.div_pos; lia).
    f_equal.
    + rewrite E2, Z.div_div by lia. reflexivity.
    + rewrite E1, Z.rem_mul_r by lia.
      pose proof (Z.mod_pos_bound M (2 ^ Z.of_nat k) Hk) as Hb.
      destruct (Z.odd (M / 2 ^ Z.of_nat k)) eqn:Ho.
      * cbn [orb]. symmetry. apply negb_true_iff, Z.eqb_neq.
        rewrite Zmod_odd, Ho. lia.
      * cbn [orb]. rewrite Zmod_odd, Ho. f_equal. f_equal. lia.
Qed.


Lemma fexp_normal (x : Z) : -1074 ≤ x - 53 → fexp prec emax x = x - 53.
Proof. unfold fexp, emin, prec, emax. lia. Qed.

Lemma shl_align_none (m : positive) (e e' : Z) :
  e ≤ e' → shl_align m e e' = (m, e).
Proof. intros He. unfold shl_align. destruct (e' - e) eqn:E; try reflexivity. lia. Qed.

Lemma shr_none (mrs : shr_record) (e n : Z) : n ≤ 0 → shr mrs e n = (mrs, e).
Proof. intros Hn. unfold shr. destruct n; try reflexivity. lia. Qed.

Lemma shr_some (M e n : Z) :
  0 ≤ M → 0 < n →
  shr {| shr_m := M; shr_r := false; shr_s := false |} e n
  = ({| shr_m := M / 2 ^ n; shr_r := Z.odd (M / 2 ^ (n - 1));
        shr_s := negb (M mod 2 ^ (n - 1) =? 0) |}, e + n).
Proof.
  intros HM Hn. destruct n as [|p|p]; [lia| |lia]. cbn [shr].
  rewrite iter_pos_nat.
  destruct (Pos.to_nat p) as [|k] eqn:Ek; [lia|].
  rewrite shr_iter by done.
  replace (Z.of_nat (S k)) with (Z.pos p) by lia.
  replace (Z.of_nat k) with (Z.pos p - 1) by lia. reflexivity.
Qed.

Lemma shr_fexp_exact (m : positive) (e : Z) :
  -1074 ≤ Z.pos (digits2_pos m) + e - 53 →
  shr_fexp prec emax (Z.pos m) e loc_Exact
  = shr {| shr_m := Z.pos m; shr_r := false; shr_s := false |} e
      (Z.pos (digits2_pos m) - 53).
Proof.
  intros Hn. unfold shr_fexp. cbn [shr_record_of_loc Zdigits2].
  rewrite fexp_normal by done. f_equal. lia.
Qed.

(** Rounding to nearest goes up only when the digit shifted out last is
    set. *)
Lemma round_nearest_even_cases (q : Z) (r s : bool) :
  round_nearest_even q (loc_of_shr_record {| shr_m := q; shr_r := r; shr_s := s |}) = q
  ∨ (round_nearest_even q (loc_of_shr_record {| shr_m := q; shr_r := r; shr_s := s |})
     = q + 1 ∧ r = true).
Proof. destruct r, s; cbn; destruct (Z.even q); auto. Qed.

(** A set digit at position [n - 1] is a remainder of at least half. *)
Lemma odd_quotient_remainder (M n : Z) :
  0 ≤ M → 0 < n → Z.odd (M / 2 ^ (n - 1)) = true → 2 ^ (n - 1) ≤ M mod 2 ^ n.
Proof.
  intros HM Hn Ho.
  assert (0 < 2 ^ (n - 1)) as Hk by (apply Z.pow_pos_nonneg; lia).
  replace n with (Z.succ (n - 1)) at 2 by lia.
  rewrite Z.pow_succ_r by lia.
  rewrite (Z.mul_comm 2), Z.rem_mul_r by lia.
  rewrite Zmod_odd, Ho.
  pose proof (Z.mod_pos_bound M (2 ^ (n - 1)) Hk). lia.
Qed.

(** The sum of two doubles before rounding, [M * 2 ^ ez] with at least
    53 digits, rounded to a double: the mantissa is cut to 53 digits,
    and is one more only if the part cut off is at least half. *)
Lemma binary_normalize_sum (M : positive) (ez : Z) :
  53 ≤ Z.pos (digits2_pos M) → -1021 ≤ Z.pos (digits2_pos M) + ez →
  ez + (Z.pos (digits2_pos M) - 53) ≤ 971 →
  ∃ m' : positive,
    (Z.pos m' = Z.pos M / 2 ^ (Z.pos (digits2_pos M) - 53)
     ∨ (Z.pos m' = Z.pos M / 2 ^ (Z.pos (digits2_pos M) - 53) + 1
        ∧ 0 < Z.pos (digits2_pos M) - 53
        ∧ 2 ^ (Z.pos (digits2_pos M) - 53 - 1)
          ≤ Z.pos M mod 2 ^ (Z.pos (digits2_pos M) - 53)))
    ∧ (Z.pos m' < 2 ^ 53 →
       binary_normalize prec emax (Z.pos M) ez false
       = S754_finite false m' (ez + (Z.pos (digits2_pos M) - 53))).
Proof.
  set (D := Z.pos (digits2_pos M)). set (n := D - 53).
  intros HD Hnormal Hmax.
  pose proof (digits2_pos_bounds M) as [Hlo Hhi]. fold D in Hlo, Hhi.
  assert (0 < 2 ^ n) as H2n by (apply Z.pow_pos_nonneg; lia).
  (* the quotient has 53 digits *)
  assert (2 ^ 52 ≤ Z.pos M / 2 ^ n < 2 ^ 53) as [Hq1 Hq2].
  { split.
    - apply Z.div_le_lower_bound; [done|].
      rewrite <- Z.pow_add_r by lia. replace (n + 52) with (D - 1) by lia. done.
    - apply Z.div_lt_upper_bound; [done|].
      rewrite <- Z.pow_add_r by lia. replace (n + 53) with D by lia. done. }
  (* the mantissa after the first shift and the rounding *)
  assert (∃ m1 : Z,
            (m1 = Z.pos M / 2 ^ n
             ∨ (m1 = Z.pos M / 2 ^ n + 1 ∧ 0 < n ∧ 2 ^ (n - 1) ≤ Z.pos M mod 2 ^ n))
            ∧ binary_normalize prec emax (Z.pos M) ez false
              = let '(mrs, e) := shr_fexp prec emax m1 (ez + n) loc_Exact in
                match shr_m mrs with
                | Z0 => S754_zero false
                | Zpos m => if (e <=? emax - prec)
                            then S754_finite false m e else S754_infinity false
                | _ => S754_nan
                end) as (m1 & Hm1 & ->).
  { unfold binary_normalize, binary_round.
    rewrite fexp_normal by (fold D; lia). fold D.
    rewrite shl_align_none by lia. unfold binary_round_aux.
    rewrite shr_fexp_exact by (fold D; lia). fold D. fold n.
    destruct (Z.le_gt_cases n 0) as [Hn | Hn].
    - rewrite shr_none by done. cbn [shr_m loc_of_shr_record round_nearest_even].
      exists (Z.pos M). assert (n = 0) as Hn0 by lia. rewrite Hn0, Z.add_0_r.
      split; [|done]. left. change (2 ^ 0) with 1. by rewrite Z.div_1_r.
    - rewrite shr_some by lia. cbn [shr_m].
      destruct (round_nearest_even_cases (Z.pos M / 2 ^ n)
                  (Z.odd (Z.pos M / 2 ^ (n - 1)))
                  (negb (Z.pos M mod 2 ^ (n - 1) =? 0))) as [E | [E Ho]].
      + eexists. split; [left; reflexivity|]. by rewrite E.
      + eexists. split; [|by rewrite E]. right. split; [done|]. split; [done|].
        apply odd_quotient_remainder; [lia|done|done]. }
  destruct m1 as [|m1|m1]; [lia| |lia].
  exists m1. split; [exact Hm1|]. intros Hlt.
  assert (Z.pos (digits2_pos m1) = 53) as Hd1.
  { apply digits2_pos_unique. change (53 - 1) with 52. lia. }
  rewrite shr_fexp_exact by (rewrite Hd1; lia).
  rewrite Hd1, shr_none by lia. cbn [shr_m].
  unfold emax, prec. destruct (Z.leb_spec (ez + n) (1024 - 53)); [done|lia].
Qed.


Lemma pow2_ge_1 (k : Z) : 0 ≤ k → 1 ≤ 2 ^ k.
Proof. intros Hk. pose proof (Z.pow_pos_nonneg 2 k). lia. Qed.

(** The value of a double, scaled to an integer. *)
Lemma SF2Q_scale (m : positive) (e L : Z) :
  0 ≤ L → 0 ≤ e + L →
  (SF2Q (S754_finite false m e) * inject_Z (2 ^ L)
   == inject_Z (Z.pos m * 2 ^ (e + L)))%Q.
Proof.
  intros HL HeL. unfold SF2Q. destruct (Z.leb_spec 0 e) as [He|He].
  - rewrite <- inject_Z_mult, Z.pow_add_r by lia. by rewrite Z.mul_assoc.
  - unfold Qeq, Qmult, inject_Z. cbn [Qnum Qden].
    rewrite Pos.mul_1_r, Z.mul_1_r, Pos2Z.inj_pow, Z2Pos.id by lia.
    rewrite <- Z.mul_assoc, <- Z.pow_add_r by lia. do 2 f_equal. lia.
Qed.

(** The sum of a double and one half, before rounding. *)
Lemma sum_value (mx M : positive) (ex ez : Z) :
  ez ≤ ex → ez ≤ -53 →
  Z.pos M = Z.pos mx * 2 ^ (ex - ez) + 2 ^ (-1 - ez) →
  (SF2Q (S754_finite false M ez) == SF2Q (S754_finite false mx ex) + (1 # 2))%Q.
Proof.
  intros Hez Hez' HM.
  assert (0 < 2 ^ (- ez)) as Hpos by (apply Z.pow_pos_nonneg; lia).
  apply (Qmult_inj_r _ _ (inject_Z (2 ^ (- ez)))).
  { unfold Qeq, inject_Z. cbn [Qnum Qden]. lia. }
  rewrite Qmult_plus_distr_l, !SF2Q_scale by lia.
  replace (ez + - ez) with 0 by lia. replace (ex + - ez) with (ex - ez) by lia.
  change (2 ^ 0) with 1. rewrite Z.mul_1_r, HM, inject_Z_plus.
  apply Qplus_comp; [reflexivity|].
  unfold Qeq, Qmult, inject_Z. cbn [Qnum Qden].
  replace (- ez) with (Z.succ (-1 - ez)) by lia. rewrite Z.pow_succ_r by lia. lia.
Qed.

Lemma shl_align_value (m : positive) (e e' : Z) :
  e' ≤ e → Z.pos (shl_align m e e').1 = Z.pos m * 2 ^ (e - e').
Proof.
  intros He. unfold shl_align. destruct (e' - e) as [|p|p] eqn:E; cbn [fst].
  - replace (e - e') with 0 by lia. change (2 ^ 0) with 1. lia.
  - lia.
  - change (Pos.iter xO m p) with (Zpower.shift_pos p m).
    rewrite Zpower.shift_pos_correct, Z.pow_pos_fold.
    replace (e - e') with (Z.pos p) by lia. lia.
Qed.


(** What [static_cast<uint64_t>] makes of the rounded sum is what it
    would make of the sum itself. *)
Lemma truncation_of_the_rounded_sum (mx : positive) (ex : Z) :
  bounded prec emax mx ex = true →
  (SF2Q (S754_finite false mx ex) < inject_Z (2 ^ 52))%Q →
  S754_finite false mx ex ≠ double_below_0_5 →
  ∃ (M m' : positive) (ez e' : Z),
    (SF2Q (S754_finite false M ez) == SF2Q (S754_finite false mx ex) + (1 # 2))%Q
    ∧ double_add (S754_finite false mx ex) double_0_5 = S754_finite false m' e'
    ∧ Z.shiftl (Z.pos m') e' = Z.shiftl (Z.pos M) ez
    ∧ Z.shiftl (Z.pos M) ez < 2 ^ 53.
Proof.
  intros Hb Hlt Hne.
  apply andb_true_iff in Hb as [Hcan Hmax].
  unfold canonical_mantissa in Hcan. apply Z.eqb_eq in Hcan.
  apply Z.leb_le in Hmax. unfold fexp, emin, prec, emax in Hcan, Hmax.
  pose proof (digits2_pos_bounds mx) as [Hlo Hhi].
  set (dx := Z.pos (digits2_pos mx)) in *.
  assert (mx_lt : Z.pos mx < 2 ^ 53).
  { eapply Z.lt_le_trans; [exact Hhi|]. apply Z.pow_le_mono_r; lia. }
  unfold double_add, double_0_5, SFadd.
  change (cond_Zopp false ?x) with x.
  destruct (Z.le_gt_cases (-53) ex) as [Hex | Hex].
  - (* the delay is at least one half *)
    assert (dx = 53) as Hdx by lia.
    assert (2 ^ 52 ≤ Z.pos mx) as mx_ge by (rewrite Hdx in Hlo; exact Hlo).
    assert (ex < 0) as Hneg.
    { destruct (Z.ltb_spec ex 0) as [|H0]; [done|]. exfalso.
      unfold SF2Q in Hlt. destruct (Z.leb_spec 0 ex); [|lia].
      rewrite <- Zlt_Qlt in Hlt.
      assert (1 ≤ 2 ^ ex) by (apply pow2_ge_1; lia). nia. }
    rewrite Z.min_r by lia.
    set (j := ex + 53).
    assert (0 ≤ j ≤ 52) as Hj by lia.
    assert (0 < 2 ^ j) as H2j by (apply Z.pow_pos_nonneg; lia).
    rewrite (shl_align_none 4503599627370496 (-53) (-53)) by lia. cbn [fst].
    set (a := (shl_align mx ex (-53)).1).
    assert (Z.pos a = Z.pos mx * 2 ^ j) as Ha.
    { subst a. rewrite shl_align_value by lia. replace (ex - -53) with j by lia. reflexivity. }
    rewrite <- Pos2Z.inj_add. set (M := (a + 4503599627370496)%positive).
    assert (Z.pos M = Z.pos mx * 2 ^ j + 2 ^ 52) as HM.
    { subst M. rewrite Pos2Z.inj_add, Ha. reflexivity. }
    pose proof (digits2_pos_bounds M) as [HMlo HMhi].
    set (D := Z.pos (digits2_pos M)) in *.
    assert (2 ^ 52 * 2 ^ j + 2 ^ 52 ≤ Z.pos M) as HMge by nia.
    assert (Z.pos M < 2 ^ 53 * 2 ^ j + 2 ^ 52) as HMlt by nia.
    assert (53 ≤ D) as HD53.
    { destruct (Z.le_gt_cases 53 D); [done|]. exfalso.
      assert (2 ^ D ≤ 2 ^ 52) by (apply Z.pow_le_mono_r; lia). nia. }
    assert (D ≤ 54 + j) as HDj.
    { destruct (Z.le_gt_cases D (54 + j)); [done|]. exfalso.
      assert (2 ^ (54 + j) ≤ 2 ^ (D - 1)) by (apply Z.pow_le_mono_r; lia).
      rewrite Z.pow_add_r in * by lia. change (2 ^ 54) with (2 * 2 ^ 53) in *.
      assert (2 ^ 52 ≤ 2 ^ 53 * 2 ^ j) by nia. nia. }
    destruct (binary_normalize_sum M (-53)) as (m' & Hm' & Hres); [fold D; lia..|].
    fold D in Hm', Hres. set (n := D - 53) in *.
    assert (0 ≤ n ≤ j + 1) as Hn by lia.
    assert (0 < 2 ^ n) as H2n by (apply Z.pow_pos_nonneg; lia).
    assert (2 ^ 52 ≤ Z.pos M / 2 ^ n < 2 ^ 53) as [Hq1 Hq2].
    { split.
      - apply Z.div_le_lower_bound; [done|].
        rewrite <- Z.pow_add_r by lia. replace (n + 52) with (D - 1) by lia. done.
      - apply Z.div_lt_upper_bound; [done|].
        rewrite <- Z.pow_add_r by lia. replace (n + 53) with D by lia. done. }
    assert (Z.shiftl (Z.pos M) (-53) = Z.pos M / 2 ^ n / 2 ^ (53 - n)) as Hfloor.
    { rewrite Z.shiftl_div_pow2 by lia. rewrite Z.div_div by (try apply Z.pow_pos_nonneg; lia).
      rewrite <- Z.pow_add_r by lia. do 2 f_equal. lia. }
    assert (Z.shiftl (Z.pos M) (-53) < 2 ^ 53) as Hsmall.
    { rewrite Hfloor. apply Z.div_lt_upper_bound; [apply Z.pow_pos_nonneg; lia|].
      assert (1 ≤ 2 ^ (53 - n)) by (apply pow2_ge_1; lia). nia. }
    exists M, m', (-53), (-53 + n).
    split; [apply sum_value; [lia|lia|]; rewrite HM; do 2 f_equal; lia|].
    destruct Hm' as [Hm' | (Hm' & Hn0 & Hrem)].
    + split; [apply Hres; lia|]. split; [|done].
      rewrite Hfloor, Z.shiftl_div_pow2 by lia. rewrite Hm'. do 2 f_equal. lia.
    + (* rounded up: the sum had one digit more than its terms *)
      assert (n = j + 1) as Hnj.
      { destruct (Z.eq_dec n (j + 1)); [done|]. exfalso.
        assert (Z.pos M mod 2 ^ n = 0) as H0.
        { rewrite HM.
          replace (2 ^ j) with (2 ^ (j - n) * 2 ^ n)
            by (rewrite <- Z.pow_add_r by lia; f_equal; lia).
          replace (2 ^ 52) with (2 ^ (52 - n) * 2 ^ n)
            by (rewrite <- Z.pow_add_r by lia; f_equal; lia).
          rewrite Z.mul_assoc, <- Z.mul_add_distr_r. apply Z.mod_mul. lia. }
        assert (0 < 2 ^ (n - 1)) by (apply Z.pow_pos_nonneg; lia). lia. }
      assert (2 ^ n = 2 ^ j * 2) as E2n.
      { rewrite Hnj, Z.pow_add_r by lia. reflexivity. }
      assert (2 ^ 53 * 2 ^ j ≤ Z.pos M) as HMbig.
      { replace (2 ^ 53 * 2 ^ j) with (2 ^ (D - 1)); [done|].
        rewrite <- Z.pow_add_r by lia. f_equal. lia. }
      assert (j ≤ 51) as Hj51.
      { destruct (Z.le_gt_cases j 51); [done|]. exfalso.
        assert (j = 52) as Hj52 by lia. rewrite Hj52 in *.
        assert (Z.pos mx = 2 ^ 53 - 1) as Emx by nia.
        assert (Z.pos M mod 2 ^ n = 0) as H0.
        { rewrite HM, Emx, Hnj. reflexivity. }
        assert (0 < 2 ^ (n - 1)) by (apply Z.pow_pos_nonneg; lia). lia. }
      set (K := 2 ^ (51 - j)).
      assert (0 < K) as HK by (apply Z.pow_pos_nonneg; lia).
      assert (K ≤ 2 ^ 51) as HK51 by (apply Z.pow_le_mono_r; lia).
      assert (2 ^ 52 = 2 ^ j * (2 * K)) as E52.
      { subst K. rewrite <- Z.pow_succ_r, <- Z.pow_add_r by lia. f_equal. lia. }
      assert (2 ^ (53 - n) = 2 * K) as E2k.
      { subst K. rewrite <- Z.pow_succ_r by lia. f_equal. lia. }
      assert (Z.pos M / 2 ^ n = Z.pos mx / 2 + K) as Eq.
      { rewrite HM, E2n, E52.
        replace (Z.pos mx * 2 ^ j + 2 ^ j * (2 * K)) with ((Z.pos mx + K * 2) * 2 ^ j)
          by lia.
        rewrite (Z.mul_comm (2 ^ j) 2), Z.div_mul_cancel_r by lia.
        by rewrite Z.div_add by lia. }
      assert (Z.pos mx / 2 < 2 ^ 52) as Hhalf
        by (apply Z.div_lt_upper_bound; lia).
      split; [apply Hres; lia|]. split; [|done].
      rewrite Hfloor, Z.shiftl_div_pow2 by lia.
      replace (- (-53 + n)) with (53 - n) by lia.
      rewrite Hm', E2k.
      rewrite <- (Z.div_unique (Z.pos M / 2 ^ n + 1) (2 * K) (2 ^ j)
                    (Z.pos M / 2 ^ n + 1 - 2 ^ 52)) by lia.
      rewrite <- (Z.div_unique (Z.pos M / 2 ^ n) (2 * K) (2 ^ j)
                    (Z.pos M / 2 ^ n - 2 ^ 52)) by lia.
      reflexivity.
  - (* the delay is below one half *)
    rewrite Z.min_l by lia.
    set (t := -1 - ex).
    assert (53 ≤ t) as Ht by lia.
    rewrite (shl_align_none mx ex ex) by lia. cbn [fst].
    set (b := (shl_align 4503599627370496 (-53) ex).1).
    assert (Z.pos b = 2 ^ t) as Hb.
    { subst b. rewrite shl_align_value by lia.
      change (Z.pos 4503599627370496) with (2 ^ 52).
      rewrite <- Z.pow_add_r by lia. f_equal. lia. }
    rewrite <- Pos2Z.inj_add. set (M := (mx + b)%positive).
    assert (Z.pos M = Z.pos mx + 2 ^ t) as HM.
    { subst M. rewrite Pos2Z.inj_add, Hb. reflexivity. }
    assert (2 ^ 53 ≤ 2 ^ t) as H53t by (apply Z.pow_le_mono_r; lia).
    assert (Z.pos (digits2_pos M) = t + 1) as HD.
    { apply digits2_pos_unique. replace (t + 1 - 1) with t by lia.
      rewrite Z.pow_add_r by lia. change (2 ^ 1) with 2. lia. }
    destruct (binary_normalize_sum M ex) as (m' & Hm' & Hres); [rewrite HD; lia..|].
    rewrite HD in Hm', Hres. replace (t + 1 - 53) with (t - 52) in * by lia.
    set (n := t - 52) in *.
    assert (0 < 2 ^ (n - 1)) as H2n1 by (apply Z.pow_pos_nonneg; lia).
    assert (2 ^ n = 2 * 2 ^ (n - 1)) as E2n.
    { rewrite <- Z.pow_succ_r by lia. f_equal. lia. }
    assert (2 ^ t = 2 ^ 53 * 2 ^ (n - 1)) as E2t.
    { rewrite <- Z.pow_add_r by lia. f_equal. lia. }
    assert (Z.pos M / 2 ^ n < 2 ^ 53) as Hq2.
    { apply Z.div_lt_upper_bound; [lia|]. nia. }
    assert (Z.shiftl (Z.pos M) ex = 0) as Hfloor.
    { rewrite Z.shiftl_div_pow2 by lia. apply Z.div_small.
      replace (- ex) with (t + 1) by lia. rewrite Z.pow_add_r by lia.
      change (2 ^ 1) with 2. lia. }
    assert (Z.pos m' < 2 ^ 53) as Hm53.
    { destruct Hm' as [Hm' | (Hm' & Hn0 & Hrem)]; [lia|].
      destruct (Z.lt_ge_cases (Z.pos m') (2 ^ 53)); [done|]. exfalso.
      assert (Z.pos M / 2 ^ n = 2 ^ 53 - 1) as Eq by lia.
      pose proof (Z.div_mod (Z.pos M) (2 ^ n) ltac:(lia)) as Hdm.
      rewrite Eq in Hdm.
      assert (2 ^ (n - 1) = 1) as E1 by nia.
      assert (n = 1) as En1.
      { destruct (Z.eq_dec n 1); [done|]. exfalso.
        assert (2 ^ 1 ≤ 2 ^ (n - 1)) by (apply Z.pow_le_mono_r; lia).
        change (2 ^ 1) with 2 in *. lia. }
      assert (ex = -54) as -> by lia.
      assert (Z.pos mx = 9007199254740991) as Emx by nia.
      injection Emx as ->. by apply Hne. }
    exists M, m', ex, (ex + n).
    split.
    { apply sum_value; [lia|lia|]. rewrite HM, Z.sub_diag. change (2 ^ 0) with 1.
      fold t. lia. }
    split; [by apply Hres|]. split; [|rewrite Hfloor; done].
    rewrite Hfloor, Z.shiftl_div_pow2 by lia. apply Z.div_small.
    replace (- (ex + n)) with 53 by lia. lia.
Qed.


(** The delay in milliseconds of a delay that is not negative and below
    2^52 seconds, other than the largest double below one half: the
    delay rounded half up to whole seconds, times 1000. *)
Lemma delay_millis_rounds_half_up (d : spec_float) :
  valid_binary prec emax d = true → nonnegative d = true →
  (SF2Q d < inject_Z (2 ^ 52))%Q → d ≠ double_below_0_5 →
  delay_millis d = Some (round_half_up (SF2Q d) * 1000).
Proof.
  intros Hv Hnn Hlt Hne. destruct d as [s| | |[] mx ex]; try discriminate.
  - by destruct s.
  - destruct (truncation_of_the_rounded_sum mx ex Hv Hlt Hne)
      as (M & m' & ez & e' & Hsum & Hadd & Hsh & Hsmall).
    unfold delay_millis. rewrite Hadd. unfold static_cast_uint64.
    rewrite round_half_up_floor, <- (Qfloor_comp _ _ Hsum), <- shiftl_floor, <- Hsh.
    assert (0 ≤ Z.shiftl (Z.pos m') e') as H0 by (apply Z.shiftl_nonneg; lia).
    destruct (Z.ltb_spec (Z.shiftl (Z.pos m') e') (2 ^ 64)); [|lia].
    cbn [mbind option_bind]. rewrite Z.mod_small; [done|]. lia.
Qed.

(** Rounding halves to even differs from rounding them upwards only on
    a half whose integer part is even. *)
Lemma round_half_even_half_up (q : Q) :
  round_half_even q = round_half_up q
  ↔ ¬ ((q - inject_Z (Qfloor q) == 1 # 2)%Q ∧ Z.even (Qfloor q) = true).
Proof.
  unfold round_half_even, round_half_up. rewrite Qeq_alt.
  destruct (q - inject_Z (Qfloor q) ?= 1 # 2)%Q.
  - destruct (Z.even (Qfloor q)); split.
    + lia.
    + intros H. exfalso. by apply H.
    + intros _ [_ ?]. done.
    + done.
  - split; [intros _ [? _]; done | done].
  - split; [intros _ [? _]; done | done].
Qed.

End sum_facts.

Section runner_facts.
Import platform spec platform_spec.




Lemma PostTask_each_view (tasks : list Task) :
  ∀ r, flush_tasks_ r = true →
    ∃ r', PostTask_each tasks r = Some r'
      ∧ runner_view r'
        = (ref_count_ r, loop_ r, true,
           task_queue_ (foreground_tasks_ r) ++ tasks,
           task_queue_ (foreground_delayed_tasks_ r),
           scheduled_delayed_tasks_ r, executed r).
Proof.
  induction tasks as [|t tasks IH]; intros r Hf; simpl.
  - exists r. split; [done|]. unfold runner_view. by rewrite Hf, app_nil_r.
  - unfold PostTask at 1. rewrite Hf. simpl.
    edestruct IH as (r' & -> & Hv); [|exists r'; split; [done|]].
    + reflexivity.
    + rewrite Hv. simpl. by rewrite <- app_assoc.
Qed.

Lemma PostDelayedTask_each_view (tasks : list (Task * spec_float)) :
  ∀ r, flush_tasks_ r = true →
    ∃ r', PostDelayedTask_each tasks r = Some r'
      ∧ runner_view r'
        = (ref_count_ r, loop_ r, true,
           task_queue_ (foreground_tasks_ r),
           task_queue_ (foreground_delayed_tasks_ r) ++ map delayed_post tasks,
           scheduled_delayed_tasks_ r, executed r).
Proof.
  induction tasks as [|[t delay] tasks IH]; intros r Hf; simpl.
  - exists r. split; [done|]. unfold runner_view. by rewrite Hf, app_nil_r.
  - unfold PostDelayedTask at 1. rewrite Hf. simpl.
    edestruct IH as (r' & -> & Hv); [|exists r'; split; [done|]].
    + reflexivity.
    + rewrite Hv. simpl. by rewrite <- app_assoc.
Qed.

(** Where the isolate is registered and the mutex is free, posting
    through the platform is posting to the runner. *)
Lemma CallOnForegroundThread_each_Registered (tasks : list Task) :
  ∀ d, CallOnForegroundThread_each Registered tasks d = checked (PostTask_each tasks d).
Proof.
  induction tasks as [|t tasks IH]; intros d; [done|].
  cbn [CallOnForegroundThread_each PostTask_each ForIsolate_by_task mbind Result_bind].
  destruct (PostTask t d) as [d'|]; [apply IH | done].
Qed.

Lemma CallDelayedOnForegroundThread_each_Registered (tasks : list (Task * spec_float)) :
  ∀ d, CallDelayedOnForegroundThread_each Registered tasks d
       = checked (PostDelayedTask_each tasks d).
Proof.
  induction tasks as [|[t delay] tasks IH]; intros d; [done|].
  cbn [CallDelayedOnForegroundThread_each PostDelayedTask_each ForIsolate_by_task
       mbind Result_bind].
  destruct (PostDelayedTask t delay d) as [d'|]; [apply IH | done].
Qed.

Lemma RunForegroundTask_Registered (t : Task) (d : PerIsolatePlatformData) :
  RunForegroundTask Registered t d
  = checked
      (d2 ← PostTask_each (Task_posts t)
              {| ref_count_ := ref_count_ d; loop_ := loop_ d;
                 flush_tasks_ := flush_tasks_ d; wakeups := wakeups d;
                 foreground_tasks_ := foreground_tasks_ d;
                 foreground_delayed_tasks_ := foreground_delayed_tasks_ d;
                 scheduled_delayed_tasks_ := scheduled_delayed_tasks_ d;
                 executed := executed d ++ [Task_id t] |};
       PostDelayedTask_each (Task_delayed_posts t) d2).
Proof.
  destruct t as [id posts dposts|id posts dposts]; [done|].
  unfold RunForegroundTask. cbn [Task_id Task_posts Task_delayed_posts].
  rewrite CallOnForegroundThread_each_Registered.
  destruct (PostTask_each posts _) as [d2|]; [|done].
  cbn [checked mbind Result_bind option_bind].
  apply CallDelayedOnForegroundThread_each_Registered.
Qed.

(** In any other place a task that posts through the platform does not
    come back from [ForIsolate]; any other task runs as it does where
    the isolate is registered. *)
Lemma RunForegroundTask_anywhere (c : Situation) (t : Task) (d : PerIsolatePlatformData) :
  RunForegroundTask c t d
  = if posts_through_platform t
    then _ ← ForIsolate_by_task c; RunForegroundTask Registered t d
    else RunForegroundTask Registered t d.
Proof.
  destruct t as [id posts dposts|id posts dposts]; [done|].
  destruct c; [by destruct posts, dposts|..];
    destruct posts as [|t posts]; destruct dposts as [|[t' delay] dposts];
    reflexivity.
Qed.

Lemma RunForegroundTask_view (t : Task) (r : PerIsolatePlatformData) :
  flush_tasks_ r = true →
  ∃ r', RunForegroundTask Registered t r = Ok r'
    ∧ runner_view r'
      = (ref_count_ r, loop_ r, true,
         task_queue_ (foreground_tasks_ r) ++ Task_posts t,
         task_queue_ (foreground_delayed_tasks_ r)
         ++ map delayed_post (Task_delayed_posts t),
         scheduled_delayed_tasks_ r, executed r ++ [Task_id t]).
Proof.
  intros Hf. rewrite RunForegroundTask_Registered.
  edestruct (PostTask_each_view (Task_posts t)) as (r1 & -> & Hv1); [|simpl].
  - exact Hf.
  - injection Hv1 as Hrc Hl Hf1 Hq Hd Hs He.
    destruct (PostDelayedTask_each_view (Task_delayed_posts t) r1 Hf1)
      as (r2 & -> & Hv2).
    exists r2. split; [done|]. rewrite Hv2. simpl in *. congruence.
Qed.

(** The second loop of the flush: the tasks moved out of the queue run
    in order; what they post is queued behind, and is not run. *)
Lemma Flush_tasks_loop_view (tasks : list Task) :
  ∀ (did_work : bool) r, flush_tasks_ r = true ∨ tasks = [] →
    ∃ r', Flush_tasks_loop Registered tasks did_work r
          = Ok (did_work || nonempty tasks, r')
      ∧ runner_view r'
        = (ref_count_ r, loop_ r, flush_tasks_ r,
           task_queue_ (foreground_tasks_ r) ++ concat (map Task_posts tasks),
           task_queue_ (foreground_delayed_tasks_ r)
           ++ concat (map (λ t, map delayed_post (Task_delayed_posts t)) tasks),
           scheduled_delayed_tasks_ r, executed r ++ map Task_id tasks).
Proof.
  induction tasks as [|t tasks IH]; intros did_work r Hf;
    cbn [Flush_tasks_loop map concat nonempty].
  - exists r. split; [by rewrite orb_false_r|].
    unfold runner_view. by rewrite !app_nil_r.
  - destruct Hf as [Hf | ?]; [|done].
    destruct (RunForegroundTask_view t r Hf) as (r1 & -> & Hv1).
    cbn [mbind Result_bind].
    injection Hv1 as Hrc Hl Hf1 Hq Hd Hs He.
    destruct (IH true r1 (or_introl Hf1)) as (r' & -> & Hv).
    exists r'. split; [by destruct did_work|].
    rewrite Hv, Hrc, Hl, Hf1, Hq, Hd, Hs, He, Hf.
    by rewrite <- !app_assoc.
Qed.

Lemma Pop_rest {T : Type} (q : TaskQueue T) :
  task_queue_ (Pop q).2 = drop 1 (task_queue_ q).
Proof. unfold Pop. destruct (task_queue_ q) eqn:E; simpl; [by rewrite E | done]. Qed.

(** The first loop of the flush: a timer is started for every delayed
    task popped. *)
Lemma Flush_delayed_loop_view (pending : list DelayedTask) :
  ∀ (did_work : bool) r,
    ∃ r', Flush_delayed_loop pending did_work r = (did_work || nonempty pending, r')
      ∧ runner_view r'
        = (ref_count_ r, loop_ r, flush_tasks_ r,
           task_queue_ (foreground_tasks_ r),
           drop (length pending) (task_queue_ (foreground_delayed_tasks_ r)),
           scheduled_delayed_tasks_ r ++ map started pending, executed r).
Proof.
  induction pending as [|x pending IH]; intros did_work r; simpl.
  - exists r. split; [by rewrite orb_false_r|].
    unfold runner_view. by rewrite app_nil_r.
  - edestruct IH as (r' & -> & Hv). exists r'.
    split; [by destruct did_work|]. rewrite Hv.
    cbn [ref_count_ loop_ flush_tasks_ foreground_tasks_ foreground_delayed_tasks_
         scheduled_delayed_tasks_ executed].
    rewrite Pop_rest, drop_drop, <- app_assoc. reflexivity.
Qed.

(** One flush, where the isolate is registered and the mutex free. *)
Lemma FlushForegroundTasksInternal_view (r : PerIsolatePlatformData) :
  flush_tasks_ r = true ∨ task_queue_ (foreground_tasks_ r) = [] →
  ∃ r', FlushForegroundTasksInternal Registered r
        = Ok (nonempty (task_queue_ (foreground_delayed_tasks_ r))
              || nonempty (task_queue_ (foreground_tasks_ r)), r')
    ∧ runner_view r'
      = (ref_count_ r, loop_ r, flush_tasks_ r,
         concat (map Task_posts (task_queue_ (foreground_tasks_ r))),
         concat (map (λ t, map delayed_post (Task_delayed_posts t))
                   (task_queue_ (foreground_tasks_ r))),
         scheduled_delayed_tasks_ r
         ++ map started (task_queue_ (foreground_delayed_tasks_ r)),
         executed r ++ map Task_id (task_queue_ (foreground_tasks_ r))).
Proof.
  intros Hf. unfold FlushForegroundTasksInternal.
  destruct (Flush_delayed_loop_view (task_queue_ (foreground_delayed_tasks_ r)) false r)
    as (r1 & -> & Hv1).
  injection Hv1 as Hrc Hl Hf1 Hq Hd Hs He.
  unfold PopAll. rewrite Hq.
  edestruct (Flush_tasks_loop_view (task_queue_ (foreground_tasks_ r))) as (r' & -> & Hv).
  - simpl. rewrite Hf1. exact Hf.
  - exists r'. split; [done|]. rewrite Hv. simpl.
    rewrite Hrc, Hl, Hf1, Hd, Hs, He. by rewrite drop_all.
Qed.

(** Where no task run posts through the platform, it does not matter
    where the flush runs. *)
Lemma Flush_tasks_loop_anywhere (c : Situation) (tasks : list Task) :
  ∀ (did_work : bool) r, reach_the_platform tasks = false →
    Flush_tasks_loop c tasks did_work r = Flush_tasks_loop Registered tasks did_work r.
Proof.
  induction tasks as [|t tasks IH]; intros did_work r Hno; [done|].
  apply orb_false_iff in Hno as [Ht Hno].
  cbn [Flush_tasks_loop]. rewrite RunForegroundTask_anywhere, Ht.
  destruct (RunForegroundTask Registered t r) as [r1| |]; [|done|done].
  cbn [mbind Result_bind]. by apply IH.
Qed.

(** Where a task run posts through the platform, the flush does what
    that task's call of [ForIsolate] does. *)
Lemma Flush_tasks_loop_blocked (c : Situation) (tasks : list Task) :
  ∀ (did_work : bool) r, flush_tasks_ r = true → reach_the_platform tasks = true →
    Flush_tasks_loop c tasks did_work r
    = (_ ← ForIsolate_by_task c; Flush_tasks_loop Registered tasks did_work r).
Proof.
  induction tasks as [|t tasks IH]; intros did_work r Hf Hyes; [done|].
  cbn [Flush_tasks_loop]. rewrite RunForegroundTask_anywhere.
  destruct (posts_through_platform t) eqn:Ht.
  - by destruct c.
  - cbn [reach_the_platform existsb] in Hyes. rewrite Ht in Hyes.
    destruct (RunForegroundTask_view t r Hf) as (r1 & -> & Hv).
    injection Hv as _ _ Hf1 _ _ _ _. cbn [mbind Result_bind].
    by apply IH.
Qed.

Lemma FlushForegroundTasksInternal_anywhere (c : Situation) (r : PerIsolatePlatformData) :
  reach_the_platform (task_queue_ (foreground_tasks_ r)) = false →
  FlushForegroundTasksInternal c r = FlushForegroundTasksInternal Registered r.
Proof.
  intros Hno. unfold FlushForegroundTasksInternal.
  destruct (Flush_delayed_loop_view (task_queue_ (foreground_delayed_tasks_ r)) false r)
    as (r1 & -> & Hv1).
  injection Hv1 as _ _ _ Hq _ _ _. unfold PopAll. rewrite Hq.
  by apply Flush_tasks_loop_anywhere.
Qed.

Lemma FlushForegroundTasksInternal_blocked (c : Situation) (r : PerIsolatePlatformData) :
  flush_tasks_ r = true →
  reach_the_platform (task_queue_ (foreground_tasks_ r)) = true →
  FlushForegroundTasksInternal c r
  = (_ ← ForIsolate_by_task c; FlushForegroundTasksInternal Registered r).
Proof.
  intros Hf Hyes. unfold FlushForegroundTasksInternal.
  destruct (Flush_delayed_loop_view (task_queue_ (foreground_delayed_tasks_ r)) false r)
    as (r1 & -> & Hv1).
  injection Hv1 as _ _ Hf1 Hq _ _ _. unfold PopAll. rewrite Hq.
  apply Flush_tasks_loop_blocked; [|done]. cbn [flush_tasks_]. congruence.
Qed.


(** *** Shutdown of a runner *)

Lemma delayed_post_weight (posts : list (Task * spec_float)) :
  list_sum (map (λ x, Task_weight (task x)) (map delayed_post posts))
  = list_sum (map (λ p, let '(t, _) := p in Task_weight t) posts).
Proof.
  induction posts as [|[t d] posts IH]; simpl; [done|]. by rewrite IH.
Qed.

Lemma weight_of_tasks (tasks : list Task) :
  list_sum (map Task_weight tasks)
  = length tasks
    + list_sum (map Task_weight (concat (map Task_posts tasks)))
    + list_sum (map (λ x, Task_weight (task x))
                  (concat (map (λ t, map delayed_post (Task_delayed_posts t)) tasks))).
Proof.
  induction tasks as [|[id posts dposts|id posts dposts] tasks IH]; simpl; [done|..];
    rewrite !List.map_app, !list_sum_app, IH, delayed_post_weight; lia.
Qed.

Lemma weight_of_delayed (pending : list DelayedTask) :
  length pending ≤ list_sum (map (λ x, Task_weight (task x)) pending).
Proof.
  induction pending as [|x pending IH]; simpl; [done|].
  destruct (task x); simpl; lia.
Qed.

Lemma nonempty_length {A : Type} (l : list A) :
  nonempty l = true → 0 < length l.
Proof. destruct l; simpl; [discriminate | lia]. Qed.

Lemma generations_nil (fuel : nat) : generations fuel [] = [].
Proof. induction fuel as [|fuel IH]; [done|]. simpl. exact IH. Qed.

Lemma delayed_generations_nil (fuel : nat) : delayed_generations fuel [] = [].
Proof. induction fuel as [|fuel IH]; [done|]. simpl. exact IH. Qed.

Lemma weight_0_nil (tasks : list Task) :
  list_sum (map Task_weight tasks) = 0 → tasks = [].
Proof.
  destruct tasks as [|[id posts dposts|id posts dposts] tasks]; [done|..];
    simpl; lia.
Qed.

Lemma weight_of_posts (tasks : list Task) :
  tasks ≠ [] →
  list_sum (map Task_weight (concat (map Task_posts tasks)))
  < list_sum (map Task_weight tasks).
Proof.
  intros Hne. pose proof (weight_of_tasks tasks) as Hw.
  destruct tasks; [done|]. simpl in *. lia.
Qed.

(** Rounds beyond the depth of the tasks add nothing. *)
Lemma generations_stable (fuel1 : nat) :
  ∀ fuel2 tasks,
    list_sum (map Task_weight tasks) ≤ fuel1 →
    list_sum (map Task_weight tasks) ≤ fuel2 →
    generations fuel1 tasks = generations fuel2 tasks
    ∧ delayed_generations fuel1 tasks = delayed_generations fuel2 tasks.
Proof.
  induction fuel1 as [|fuel1 IH]; intros fuel2 tasks H1 H2.
  - rewrite (weight_0_nil tasks) by lia.
    by rewrite !generations_nil, !delayed_generations_nil.
  - destruct (decide (tasks = [])) as [->|Hne].
    { by rewrite !generations_nil, !delayed_generations_nil. }
    pose proof (weight_of_posts tasks Hne) as Hlt.
    destruct fuel2 as [|fuel2]; [lia|]. simpl.
    destruct (IH fuel2 (concat (map Task_posts tasks))) as [-> ->]; [lia|lia|done].
Qed.

Lemma all_generations_enough (tasks : list Task) (fuel : nat) :
  list_sum (map Task_weight tasks) ≤ fuel →
  generations fuel tasks = all_generations tasks.
Proof.
  intros Hfuel. unfold all_generations.
  by apply generations_stable.
Qed.

(** [while (FlushForegroundTasksInternal()) {}] ends. *)
Lemma Flush_until_idle_returns (fuel : nat) :
  ∀ r, flush_tasks_ r = true → pending_weight r < fuel →
    ∃ r', Flush_until_idle Registered fuel r = Ok r'
      ∧ ref_count_ r' = ref_count_ r ∧ loop_ r' = loop_ r
      ∧ flush_tasks_ r' = true
      ∧ task_queue_ (foreground_tasks_ r') = []
      ∧ task_queue_ (foreground_delayed_tasks_ r') = [].
Proof.
  induction fuel as [|fuel IH]; intros r Hf Hfuel; [lia|]. simpl.
  destruct (FlushForegroundTasksInternal_view r (or_introl Hf)) as (r1 & -> & Hv).
  injection Hv as Hrc Hl Hf1 Hq Hd Hs He.
  destruct (nonempty (task_queue_ (foreground_delayed_tasks_ r))
            || nonempty (task_queue_ (foreground_tasks_ r))) eqn:Hb.
  - destruct (IH r1) as (r' & -> & Hrc' & Hl' & Hf' & Hq' & Hd'); [congruence| |].
    + unfold pending_weight in *. rewrite Hq, Hd.
      pose proof (weight_of_tasks (task_queue_ (foreground_tasks_ r))) as Hw.
      pose proof (weight_of_delayed (task_queue_ (foreground_delayed_tasks_ r))) as Hwd.
      apply orb_true_iff in Hb as [Hb | Hb]; apply nonempty_length in Hb; lia.
    + exists r'. repeat split; congruence.
  - apply orb_false_iff in Hb as [Hb1 Hb2].
    exists r1. split; [done|]. split; [done|]. split; [done|]. split; [congruence|].
    destruct (task_queue_ (foreground_tasks_ r)); [|discriminate].
    destruct (task_queue_ (foreground_delayed_tasks_ r)); [|discriminate].
    done.
Qed.

Lemma reach_the_platform_app (tasks1 tasks2 : list Task) :
  reach_the_platform (tasks1 ++ tasks2)
  = reach_the_platform tasks1 || reach_the_platform tasks2.
Proof. apply existsb_app. Qed.

(** The loop of flushes, wherever it runs, when none of the tasks it
    runs posts through the platform. *)
Lemma Flush_until_idle_anywhere (c : Situation) (fuel : nat) :
  ∀ r, flush_tasks_ r = true →
    reach_the_platform (generations fuel (task_queue_ (foreground_tasks_ r))) = false →
    Flush_until_idle c fuel r = Flush_until_idle Registered fuel r.
Proof.
  induction fuel as [|fuel IH]; intros r Hf Hno; [done|].
  cbn [generations] in Hno. rewrite reach_the_platform_app in Hno.
  apply orb_false_iff in Hno as [Hno1 Hno2].
  cbn [Flush_until_idle]. rewrite FlushForegroundTasksInternal_anywhere by done.
  destruct (FlushForegroundTasksInternal_view r (or_introl Hf)) as (r1 & -> & Hv).
  injection Hv as _ _ Hf1 Hq _ _ _.
  destruct (nonempty _ || nonempty _); [|done].
  apply IH; [congruence|]. by rewrite Hq.
Qed.

(** The loop of flushes when one of the tasks it runs posts through
    the platform: it does what that task's call of [ForIsolate] does. *)
Lemma Flush_until_idle_blocked (c : Situation) (fuel : nat) :
  ∀ r, flush_tasks_ r = true →
    reach_the_platform (generations fuel (task_queue_ (foreground_tasks_ r))) = true →
    Flush_until_idle c fuel r
    = (_ ← ForIsolate_by_task c; Flush_until_idle Registered fuel r).
Proof.
  induction fuel as [|fuel IH]; intros r Hf Hyes; [done|].
  cbn [generations] in Hyes. rewrite reach_the_platform_app in Hyes.
  cbn [Flush_until_idle].
  destruct (reach_the_platform (task_queue_ (foreground_tasks_ r))) eqn:Hfirst.
  - rewrite FlushForegroundTasksInternal_blocked by done. by destruct c.
  - cbn [orb] in Hyes. rewrite FlushForegroundTasksInternal_anywhere by done.
    destruct (FlushForegroundTasksInternal_view r (or_introl Hf)) as (r1 & -> & Hv).
    injection Hv as _ _ Hf1 Hq _ _ _.
    destruct (nonempty _ || nonempty (task_queue_ (foreground_tasks_ r))) eqn:Hb.
    + apply IH; [congruence|]. by rewrite Hq.
    + apply orb_false_iff in Hb as [_ Hb].
      destruct (task_queue_ (foreground_tasks_ r)); [|discriminate].
      cbn [map concat] in Hyes. by rewrite generations_nil in Hyes.
Qed.

(** [Shutdown] returns where the isolate is registered and the mutex
    free, and leaves the runner without its handle. *)
Lemma Shutdown_returns (r : PerIsolatePlatformData) :
  ∃ r', Shutdown Registered r = Ok r'
    ∧ flush_tasks_ r' = false
    ∧ ref_count_ r' = ref_count_ r ∧ loop_ r' = loop_ r.
Proof.
  unfold Shutdown. destruct (flush_tasks_ r) eqn:Hf.
  - destruct (Flush_until_idle_returns (S (pending_weight r)) r Hf)
      as (r' & -> & Hrc & Hl & _); [lia|].
    eexists. split; [reflexivity|]. simpl. done.
  - exists r. done.
Qed.

Lemma pending_weight_enough (r : PerIsolatePlatformData) :
  generations (S (pending_weight r)) (task_queue_ (foreground_tasks_ r))
  = all_generations (task_queue_ (foreground_tasks_ r)).
Proof. apply all_generations_enough. unfold pending_weight. lia. Qed.

(** [Shutdown], wherever it runs: as where the isolate is registered
    when none of the tasks it runs posts through the platform, and else
    as the call of [ForIsolate] of the first task that does. *)
Lemma Shutdown_anywhere (c : Situation) (r : PerIsolatePlatformData) :
  Shutdown_reaches_the_platform r = false →
  Shutdown c r = Shutdown Registered r.
Proof.
  unfold Shutdown_reaches_the_platform, Shutdown. intros Hno.
  destruct (flush_tasks_ r) eqn:Hf; [|done]. cbn [andb] in Hno.
  rewrite Flush_until_idle_anywhere; [done|done|].
  by rewrite pending_weight_enough.
Qed.

Lemma Shutdown_blocked (c : Situation) (r : PerIsolatePlatformData) :
  Shutdown_reaches_the_platform r = true →
  Shutdown c r = (_ ← ForIsolate_by_task c; Shutdown Registered r).
Proof.
  unfold Shutdown_reaches_the_platform, Shutdown. intros Hyes.
  destruct (flush_tasks_ r) eqn:Hf; [|done]. cbn [andb] in Hyes.
  rewrite Flush_until_idle_blocked; [by destruct c|done|].
  by rewrite pending_weight_enough.
Qed.

End runner_facts.

Section NodePlatform_facts.
Import platform spec platform_spec.

Lemma RegisterIsolate_new (isolate loop : nat) (p : NodePlatform) :
  default None (per_isolate_ p !! isolate) = None →
  RegisterIsolate isolate loop p
  = Ok {| runners := runners p ++ [PerIsolatePlatformData_new loop];
          per_isolate_ := <[isolate := Some (length (runners p))]> (per_isolate_ p) |}.
Proof.
  intros Hnew. unfold RegisterIsolate, per_isolate_index.
  destruct (per_isolate_ p !! isolate) as [existing|] eqn:E; simpl in Hnew.
  - subst existing. reflexivity.
  - by rewrite insert_insert_eq.
Qed.

Lemma RegisterIsolate_again (isolate loop a : nat) (r : PerIsolatePlatformData)
    (p : NodePlatform) :
  per_isolate_ p !! isolate = Some (Some a) → runners p !! a = Some r →
  loop = loop_ r →
  RegisterIsolate isolate loop p
  = Ok {| runners := <[a := ref r]> (runners p); per_isolate_ := per_isolate_ p |}.
Proof.
  intros Hm Hr ->. unfold RegisterIsolate, per_isolate_index.
  rewrite Hm, Hr. unfold event_loop. by rewrite bool_decide_true.
Qed.

(** An unregistration: the count is decremented; if it has not reached
    zero the runner is left alone, and else [Shutdown] runs with the
    mutex held, so that the call returns only if no task that [Shutdown]
    runs posts through the platform. *)
Lemma UnregisterIsolate_cases (isolate a : nat) (r : PerIsolatePlatformData)
    (p : NodePlatform) :
  per_isolate_ p !! isolate = Some (Some a) → runners p !! a = Some r →
  if decide (ref_count_ r - 1 = 0)%Z
  then if Shutdown_reaches_the_platform r
       then UnregisterIsolate isolate p = Wait
       else ∃ r', Shutdown Registered (unref r).1 = Ok r'
              ∧ UnregisterIsolate isolate p
                = Ok {| runners := <[a := r']> (runners p);
                        per_isolate_ := delete isolate (per_isolate_ p) |}
  else UnregisterIsolate isolate p
       = Ok {| runners := <[a := (unref r).1]> (runners p);
               per_isolate_ := per_isolate_ p |}.
Proof.
  intros Hm Hr. unfold UnregisterIsolate, per_isolate_index.
  rewrite Hm, Hr. cbn [unref]. case_decide as E.
  - rewrite bool_decide_true by done.
    change (Shutdown_reaches_the_platform r)
      with (Shutdown_reaches_the_platform (unref r).1).
    destruct (Shutdown_reaches_the_platform (unref r).1) eqn:Hreach.
      pose proof (Shutdown_blocked MutexHeld (unref r).1 Hreach) as HS.
      unfold unref in HS. cbn [fst] in HS. by rewrite HS.
    + destruct (Shutdown_returns (unref r).1) as (r' & HS & _).
      exists r'. split; [done|].
      pose proof (Shutdown_anywhere MutexHeld (unref r).1 Hreach) as HC.
      rewrite HS in HC. unfold unref in HC. cbn [fst] in HC. by rewrite HC.
  - by rewrite bool_decide_false.
Qed.

(** C8.  An engine that is not registered, registered twice with the
    same loop and unregistered once, has its runner present in
    [per_isolate_], with its async handle (not shut down) and a reference
    count of one; a second unregistration shuts the runner down and
    erases it.  An engine that is registered already keeps its runner in
    the map, as alive as it was and with one reference more, through the
    same three calls.  In general an unregistration decrements the count;
    it leaves the runner in the map and otherwise untouched unless the
    count has reached zero, and in that case shuts it down and erases
    it.  [Shutdown] runs the tasks still queued while the mutex of the
    platform is held: the unregistration that brings the count to zero
    returns when none of these tasks posts through the platform, and
    never returns when one does. *)
Theorem register_twice_unregister_once (p : NodePlatform) (isolate loop : nat) :
  (default None (per_isolate_ p !! isolate) = None →
   ∃ p1 p2 p3 p4 r r',
     RegisterIsolate isolate loop p = Ok p1
     ∧ RegisterIsolate isolate loop p1 = Ok p2
     ∧ UnregisterIsolate isolate p2 = Ok p3
     ∧ per_isolate_ p3 !! isolate = Some (Some (length (runners p)))
     ∧ runners p3 !! length (runners p) = Some r
     ∧ flush_tasks_ r = true ∧ ref_count_ r = 1%Z
     ∧ UnregisterIsolate isolate p3 = Ok p4
     ∧ per_isolate_ p4 !! isolate = None
     ∧ runners p4 !! length (runners p) = Some r'
     ∧ flush_tasks_ r' = false ∧ ref_count_ r' = 0%Z)
  ∧ (∀ a r,
       per_isolate_ p !! isolate = Some (Some a) → runners p !! a = Some r →
       loop = loop_ r → (ref_count_ r + 1 ≠ 0)%Z →
       ∃ p1 p2 p3 r3,
         RegisterIsolate isolate loop p = Ok p1
         ∧ RegisterIsolate isolate loop p1 = Ok p2
         ∧ UnregisterIsolate isolate p2 = Ok p3
         ∧ per_isolate_ p3 !! isolate = Some (Some a)
         ∧ runners p3 !! a = Some r3
         ∧ flush_tasks_ r3 = flush_tasks_ r
         ∧ ref_count_ r3 = (ref_count_ r + 1)%Z)
  ∧ (∀ a r,
       per_isolate_ p !! isolate = Some (Some a) → runners p !! a = Some r →
       ((ref_count_ r - 1)%Z ≠ 0%Z ∨ Shutdown_reaches_the_platform r = false →
        ∃ p' r',
          UnregisterIsolate isolate p = Ok p'
          ∧ runners p' !! a = Some r'
          ∧ ref_count_ r' = (ref_count_ r - 1)%Z
          ∧ (ref_count_ r' ≠ 0%Z →
             per_isolate_ p' !! isolate = Some (Some a) ∧ r' = (unref r).1
             ∧ flush_tasks_ r' = flush_tasks_ r)
          ∧ (ref_count_ r' = 0%Z →
             per_isolate_ p' !! isolate = None ∧ flush_tasks_ r' = false))
       ∧ ((ref_count_ r - 1)%Z = 0%Z → Shutdown_reaches_the_platform r = true →
          UnregisterIsolate isolate p = Wait)).
Proof.
  split; [|split].
  - intros Hnew.
    set (a := length (runners p)).
    set (r0 := PerIsolatePlatformData_new loop).
    pose proof (RegisterIsolate_new isolate loop p Hnew) as H1.
    set (p1 := {| runners := runners p ++ [r0];
                  per_isolate_ := <[isolate := Some a]> (per_isolate_ p) |}) in *.
    assert (Hm1 : per_isolate_ p1 !! isolate = Some (Some a)) by apply lookup_insert_eq.
    assert (Hr1 : runners p1 !! a = Some r0) by (by apply list_lookup_middle).
    pose proof (RegisterIsolate_again isolate loop a r0 p1 Hm1 Hr1 eq_refl) as H2.
    set (p2 := {| runners := <[a := ref r0]> (runners p1);
                  per_isolate_ := per_isolate_ p1 |}) in *.
    assert (Hr2 : runners p2 !! a = Some (ref r0)).
    { apply list_lookup_insert_eq. by eapply lookup_lt_Some. }
    pose proof (UnregisterIsolate_cases isolate a (ref r0) p2 Hm1 Hr2) as H3.
    rewrite decide_False in H3 by (simpl; unfold ref_count_initial; lia).
    set (p3 := {| runners := <[a := (unref (ref r0)).1]> (runners p2);
                  per_isolate_ := per_isolate_ p2 |}) in *.
    assert (Hr3 : runners p3 !! a = Some (unref (ref r0)).1).
    { apply list_lookup_insert_eq. by eapply lookup_lt_Some. }
    pose proof (UnregisterIsolate_cases isolate a _ p3 Hm1 Hr3) as H4.
    rewrite decide_True in H4 by done.
    change (Shutdown_reaches_the_platform (unref (ref r0)).1) with false in H4.
    destruct H4 as (r' & HS & H4).
    destruct (Shutdown_returns (unref (unref (ref r0)).1).1) as (r'' & HS' & Hf' & Hrc' & _).
    rewrite HS in HS'. injection HS' as <-.
    eexists p1, p2, p3, _, (unref (ref r0)).1, r'.
    split; [exact H1|]. split; [exact H2|]. split; [exact H3|].
    split; [exact Hm1|]. split; [exact Hr3|]. split; [reflexivity|].
    split; [reflexivity|]. split; [exact H4|]. simpl.
    split; [apply lookup_delete_eq|].
    split; [apply list_lookup_insert_eq; by eapply lookup_lt_Some|].
    split; [exact Hf' | exact Hrc'].
  - intros a r Hm Hr Hl Hrc.
    assert (Hlt : a < length (runners p)) by (by eapply lookup_lt_Some).
    pose proof (RegisterIsolate_again isolate loop a r p Hm Hr Hl) as H1.
    set (p1 := {| runners := <[a := ref r]> (runners p);
                  per_isolate_ := per_isolate_ p |}) in *.
    assert (Hr1 : runners p1 !! a = Some (ref r)) by (by apply list_lookup_insert_eq).
    pose proof (RegisterIsolate_again isolate loop a (ref r) p1 Hm Hr1 Hl) as H2.
    set (p2 := {| runners := <[a := ref (ref r)]> (runners p1);
                  per_isolate_ := per_isolate_ p1 |}) in *.
    assert (Hr2 : runners p2 !! a = Some (ref (ref r))).
    { apply list_lookup_insert_eq. simpl. by rewrite length_insert. }
    pose proof (UnregisterIsolate_cases isolate a (ref (ref r)) p2 Hm Hr2) as H3.
    rewrite decide_False in H3 by (simpl; lia).
    eexists p1, p2, _, (unref (ref (ref r))).1.
    split; [exact H1|]. split; [exact H2|]. split; [exact H3|]. simpl.
    split; [exact Hm|].
    split; [apply list_lookup_insert_eq; by rewrite !length_insert|].
    split; [reflexivity | lia].
  - intros a r Hm Hr.
    pose proof (UnregisterIsolate_cases isolate a r p Hm Hr) as HU.
    assert (Hlt : a < length (runners p)) by (by eapply lookup_lt_Some).
    split.
    + intros Hreturns. case_decide as E.
      * destruct Hreturns as [? | Hno]; [done|]. rewrite Hno in HU.
        destruct HU as (r' & HS & ->).
        destruct (Shutdown_returns (unref r).1) as (r'' & HS' & Hf' & Hrc' & _).
        rewrite HS in HS'. injection HS' as <-.
        eexists _, r'. split; [reflexivity|]. simpl.
        split; [by apply list_lookup_insert_eq|]. split; [done|].
        split; [intros Hne; simpl in Hrc'; congruence|].
        intros _. split; [apply lookup_delete_eq | done].
      * rewrite HU. eexists _, _. split; [reflexivity|]. simpl.
        split; [by apply list_lookup_insert_eq|]. split; [done|].
        split; [done|]. intros E'. simpl in E'. contradiction.
    + intros E Hyes. rewrite decide_True in HU by done. by rewrite Hyes in HU.
Qed.

End NodePlatform_facts.

Section delay_claims.
Import platform spec platform_spec.

(** The constants are the doubles nearest to the decimal numbers they
    stand for: within half a unit in the last place. *)
Lemma double_constants_nearest :
  (Qabs (SF2Q double_0_4 - (4 # 10)) <= 1 # 2 ^ 55)%Q
  ∧ (SF2Q double_0_5 == 1 # 2)%Q
  ∧ (Qabs (SF2Q double_1_499 - (1499 # 1000)) <= 1 # 2 ^ 53)%Q
  ∧ (SF2Q double_1_5 == 3 # 2)%Q
  ∧ (SF2Q double_2_5 == 5 # 2)%Q
  ∧ (Qabs (SF2Q double_0_1 - (1 # 10)) <= 1 # 2 ^ 57)%Q
  ∧ (Qabs (SF2Q double_1_7 - (17 # 10)) <= 1 # 2 ^ 53)%Q.
Proof. repeat split; vm_compute; congruence. Qed.

(** C7.  The delay computation of both delayed paths maps 0.4 s to 0 ms,
    0.5 s to 1000 ms, 1.499 s to 1000 ms and 1.5 s to 2000 ms, which is
    each delay rounded half up to whole seconds, times 1000. *)
Theorem delay_millis_examples :
  (delay_millis double_0_4 = Some 0%Z
   ∧ delay_millis double_0_5 = Some 1000%Z
   ∧ delay_millis double_1_499 = Some 1000%Z
   ∧ delay_millis double_1_5 = Some 2000%Z)
  ∧ (round_half_up (SF2Q double_0_4) * 1000 = 0
     ∧ round_half_up (SF2Q double_0_5) * 1000 = 1000
     ∧ round_half_up (SF2Q double_1_499) * 1000 = 1000
     ∧ round_half_up (SF2Q double_1_5) * 1000 = 2000)%Z
  ∧ (∀ task delay s,
       timers_ (ScheduleTask_Run task delay s)
       = timers_ s ++ [({| timer_timeout := delay_millis delay; timer_repeat := 0 |}, task)])
  ∧ (∀ x, timer (started x)
          = Some {| timer_timeout := delay_millis (timeout x); timer_repeat := 0 |}).
Proof. repeat split; vm_compute; reflexivity. Qed.

Lemma elem_of_map_started (x : DelayedTask) (l : list DelayedTask) :
  x ∈ l → started x ∈ map started l.
Proof. intros H. apply list_elem_of_In, in_map, list_elem_of_In, H. Qed.

(** C6, as the code has it.  Both delayed paths start a one-shot timer
    whose timeout is [static_cast<uint64_t>(delay + 0.5) * 1000]:
    [ScheduleTask::Run] for a delayed worker task, and the flush of the
    runner for a delayed foreground task, whatever the delay.  For every
    delay that is a double not negative and below 2^52, other than the
    largest double below one half, that timeout is the delay rounded to
    whole seconds, halves upwards, times 1000.  It is the delay rounded
    halves to even, times 1000, exactly when the fractional part of the
    delay is not one half or its integer part is odd. *)
Theorem timer_timeout_rounds_half_up (d : spec_float) :
  (∀ task s,
     timers_ (ScheduleTask_Run task d s)
     = timers_ s ++ [({| timer_timeout := delay_millis d; timer_repeat := 0 |}, task)])
  ∧ (∀ c r x,
       flush_tasks_ r = true ∨ task_queue_ (foreground_tasks_ r) = [] →
       c = Registered ∨ reach_the_platform (task_queue_ (foreground_tasks_ r)) = false →
       x ∈ task_queue_ (foreground_delayed_tasks_ r) → timeout x = d →
       ∃ did_work r',
         FlushForegroundTasksInternal c r = Ok (did_work, r')
         ∧ {| task := task x; timeout := d;
              timer := Some {| timer_timeout := delay_millis d; timer_repeat := 0 |} |}
           ∈ scheduled_delayed_tasks_ r')
  ∧ (valid_binary prec emax d = true → nonnegative d = true →
     (SF2Q d < inject_Z (2 ^ 52))%Q → d ≠ double_below_0_5 →
     delay_millis d = Some (round_half_up (SF2Q d) * 1000)%Z
     ∧ (delay_millis d = Some (round_half_even (SF2Q d) * 1000)%Z
        ↔ ¬ ((SF2Q d - inject_Z (Qfloor (SF2Q d)) == 1 # 2)%Q
             ∧ Z.even (Qfloor (SF2Q d)) = true))).
Proof.
  split; [done|]. split.
  - intros c r x Hf Hc Hx Ht.
    destruct (FlushForegroundTasksInternal_view r Hf) as (r' & HF & Hv).
    injection Hv as _ _ _ _ _ Hs _.
    eexists _, r'. split.
    { destruct Hc as [-> | Hno]; [exact HF|].
      by rewrite FlushForegroundTasksInternal_anywhere. }
    rewrite Hs. apply elem_of_app. right.
    apply elem_of_map_started in Hx. unfold started at 1 in Hx.
    by rewrite Ht in Hx.
  - intros Hvalid Hnn Hlt Hne.
    pose proof (delay_millis_rounds_half_up d Hvalid Hnn Hlt Hne) as Hd.
    split; [exact Hd|]. rewrite Hd, <- round_half_even_half_up.
    split; [intros [= H]; lia | by intros ->].
Qed.

Lemma timer_timeout_rounds_half_up_witness :
  delay_millis double_1_7 = Some 2000%Z ∧ delay_millis double_0_1 = Some 0%Z.
Proof.
  split.
  - destruct (timer_timeout_rounds_half_up double_1_7) as (_ & _ & Hrounds).
    destruct Hrounds as [Hd _].
    + reflexivity.
    + reflexivity.
    + vm_compute. reflexivity.
    + discriminate.
    + rewrite Hd. vm_compute. reflexivity.
  - destruct (timer_timeout_rounds_half_up double_0_1) as (_ & _ & Hrounds).
    destruct Hrounds as [Hd _].
    + reflexivity.
    + reflexivity.
    + vm_compute. reflexivity.
    + discriminate.
    + rewrite Hd. vm_compute. reflexivity.
Defined.


(** C6 fails on the code: a delay of half a second starts a timer of
    1000 ms on both paths, where rounding halves to even gives 0 ms; and
    2.5 s gives 3000 ms, not 2000 ms. *)
Lemma half_a_second_is_rounded_up :
  timers_ (ScheduleTask_Run (MkTask 1 [] []) double_0_5 idle_scheduler)
  = [({| timer_timeout := Some 1000%Z; timer_repeat := 0 |}, MkTask 1 [] [])]
  ∧ (scheduled_delayed_tasks_ <$>
       (snd <$> FlushForegroundTasksInternal Registered runner_with_half_a_second))
    = Ok [{| task := MkTask 1 [] []; timeout := double_0_5;
               timer := Some {| timer_timeout := Some 1000%Z; timer_repeat := 0 |} |}]
  ∧ (round_half_even (SF2Q double_0_5) * 1000 = 0)%Z
  ∧ delay_millis double_2_5 = Some 3000%Z
  ∧ (round_half_even (SF2Q double_2_5) * 1000 = 2000)%Z.
Proof. repeat split; vm_compute; reflexivity. Qed.

(** Where [delay + 0.5] is rounded, the result can differ from rounding
    the delay itself: the largest double below one half is less than
    0.5, and still gives 1000 ms, for the sum is rounded to 1. *)
Lemma just_below_half_a_second :
  (SF2Q double_below_0_5 < 1 # 2)%Q
  ∧ double_add double_below_0_5 double_0_5 = S754_finite false 4503599627370496 (-52)
  ∧ delay_millis double_below_0_5 = Some 1000%Z
  ∧ (round_half_up (SF2Q double_below_0_5) * 1000 = 0)%Z.
Proof. repeat split; vm_compute; reflexivity. Qed.

End delay_claims.

Section runner_runs.
Import platform spec platform_spec.



(** The same flush, computed: tasks 1 and 2 ran, task 3 that task 1
    posted is still queued, and a second flush runs it. *)
Lemma flush_of_busy_runner :
  (executed <$> (snd <$> FlushForegroundTasksInternal Registered busy_runner))
  = Ok [1; 2]
  ∧ ((λ r, task_queue_ (foreground_tasks_ r)) <$>
       (snd <$> FlushForegroundTasksInternal Registered busy_runner))
    = Ok [MkTask 3 [] []]
  ∧ (fst <$> FlushForegroundTasksInternal Registered busy_runner) = Ok true
  ∧ (fst <$> FlushForegroundTasksInternal Registered
               (PerIsolatePlatformData_new 0)) = Ok false.
Proof. repeat split; vm_compute; reflexivity. Qed.

Lemma register_twice_unregister_once_witness :
  ∃ p1 p2 p3 p4 r r',
    RegisterIsolate 5 1 NodePlatform_new = Ok p1
    ∧ RegisterIsolate 5 1 p1 = Ok p2
    ∧ UnregisterIsolate 5 p2 = Ok p3
    ∧ per_isolate_ p3 !! 5 = Some (Some (length (runners NodePlatform_new)))
    ∧ runners p3 !! length (runners NodePlatform_new) = Some r
    ∧ flush_tasks_ r = true ∧ ref_count_ r = 1%Z
    ∧ UnregisterIsolate 5 p3 = Ok p4
    ∧ per_isolate_ p4 !! 5 = None
    ∧ runners p4 !! length (runners NodePlatform_new) = Some r'
    ∧ flush_tasks_ r' = false ∧ ref_count_ r' = 0%Z.
Proof.
  apply (proj1 (register_twice_unregister_once NodePlatform_new 5 1)).
  reflexivity.
Defined.

End runner_runs.

(** *** The pool: runs, cancellation, draining *)

Section More_pool_facts.
Import threadpool spec.

#[local] Arguments Worker_names h !w /.

Lemma Worker_step_move (i : nat) (tp tp' : Threadpool) :
  Inv tp → Worker_step i tp = Ok tp' → Worker_move i tp tp'.
Proof.
  intros HI Hs.
  destruct (Worker_step_Ok_lookup _ _ _ Hs) as [w Hi].
  pose proof (Worker_step_cases i tp w HI Hi) as Hc.
  destruct w.
  - destruct (queue_ (Threadpool_queue_ tp)) as [|task rest] eqn:Hq.
    + destruct (stopped_ (Threadpool_queue_ tp)) eqn:Hst; [|congruence].
      rewrite Hc in Hs. injection Hs as <-. by apply move_return.
    + rewrite Hc in Hs. injection Hs as <-. by eapply move_pop.
  - destruct Hc as (h & [s] & Ht & Hh & [[Hst Hc] | [Hst Hc]]);
      simpl in Hst; subst s; rewrite Hc in Hs; injection Hs as <-.
    + by apply (move_assign i tp task h).
    + by apply (move_skip i tp task h).
  - rewrite Hc in Hs. injection Hs as <-. by apply move_run.
  - destruct Hc as (h & [s] & Ht & Hh & Hin & Hc).
    rewrite Hc in Hs. injection Hs as <-.
    by apply (move_complete i tp task h s).
  - destruct Hc as (q' & Hn & Hq & Hst & Ho & Hc).
    rewrite Hc in Hs. injection Hs as <-. by apply move_notify.
  - congruence.
Qed.

Lemma before_run_le (h : nat) (w : Worker) : before_run h w ≤ Worker_names h w.
Proof. destruct w; simpl; lia. Qed.

Lemma at_run_le (h : nat) (w : Worker) : at_run h w ≤ before_run h w.
Proof. destruct w; simpl; lia. Qed.

Lemma names_fresh_ran (tp : Threadpool) (h : nat) :
  Inv tp → length (heap tp) ≤ h → sum_list_with (names h) (ran tp) = 0.
Proof.
  intros HI Hh. apply sum_list_with_0.
  eapply Forall_impl; [exact (inv_ran _ HI)|].
  intros t Ht. simpl in Ht. by eapply task_in_names_fresh.
Qed.

Lemma names_SetTaskState (h h' : nat) (task : Task) :
  names h (SetTaskState h' task) = if decide (h' = h) then 1 else 0.
Proof.
  unfold names. simpl. destruct (decide (h' = h)) as [->|Hne].
  - by rewrite decide_True.
  - rewrite decide_False; [done|]. intros [= ?]. done.
Qed.

(** The effect on the sums of replacing worker [i]. *)
Ltac move_worker h Hi w' :=
  let Hb := fresh "Hbefore" in
  let Hr := fresh "Hatrun" in
  pose proof (sum_list_with_insert (before_run h) _ _ _ w' Hi) as Hb;
  pose proof (sum_list_with_insert (at_run h) _ _ _ w' Hi) as Hr;
  simpl in Hb, Hr.

Lemma run_once_step (a : Action) (tp tp' : Threadpool) :
  Inv tp → run_once tp → step a tp = Ok tp' → run_once tp'.
Proof.
  intros HI HU Hs h. specialize (HU h). destruct a as [task|h'| |i]; simpl in Hs.
  - destruct (stopped_ (Threadpool_queue_ tp)) eqn:Hst.
    + rewrite Post_stopped in Hs by done. injection Hs as <-. exact HU.
    + rewrite Post_accepted in Hs by done. injection Hs as <-. simpl.
      rewrite sum_list_with_app. simpl. rewrite names_SetTaskState.
      destruct (decide (length (heap tp) = h)) as [<-|_]; [|lia].
      pose proof (owners_fresh tp (length (heap tp)) HI ltac:(lia)) as Ho.
      pose proof (names_fresh_ran tp (length (heap tp)) HI ltac:(lia)) as Hr.
      pose proof (sum_list_with_le (before_run (length (heap tp)))
                    (Worker_names (length (heap tp))) (workers_ tp)
                    (before_run_le _)) as Hle.
      unfold owners in Ho. lia.
  - destruct (heap tp !! h'); [|discriminate]. injection Hs as <-. exact HU.
  - injection Hs as <-. exact HU.
  - apply Worker_step_move in Hs; [|done].
    destruct Hs as [task rest Hi Hq| Hi Hq Hst|task h' Hi Ht Hh|task h' Hi Ht Hh
                   |task Hi|task h' s Hi Ht Hh Hin|q' Hi Hn Hq Hst Ho]; simpl.
    + move_worker h Hi (AtTryAssign task).
      unfold Pop. rewrite Hq. simpl. rewrite Hq in HU. simpl in HU. lia.
    + move_worker h Hi Returned. lia.
    + move_worker h Hi (AtRun task). lia.
    + move_worker h Hi (AtTryComplete task). lia.
    + move_worker h Hi (AtTryComplete task).
      rewrite sum_list_with_app. simpl. lia.
    + move_worker h Hi AtNotify. lia.
    + move_worker h Hi AtBlockingPop. rewrite Hq. lia.
Qed.

Lemma run_once_exec (trace : list Action) :
  ∀ tp tp', Inv tp → run_once tp → exec trace tp = Ok tp' → run_once tp'.
Proof.
  induction trace as [|a trace IH]; intros tp tp' HI HU He; simpl in He.
  - by injection He as <-.
  - pose proof (Inv_step a tp HI) as HI'.
    destruct (step a tp) as [tp1| |] eqn:Hs; [|done|done].
    eapply IH; [exact HI'| |exact He]. exact (run_once_step a tp tp1 HI HU Hs).
Qed.

Lemma run_once_new (threadpool_size : nat) : run_once (Threadpool_new threadpool_size).
Proof.
  intros h. simpl. rewrite sum_list_with_replicate. simpl. lia.
Qed.

Lemma reachable_run_once (tp : Threadpool) : reachable tp → run_once tp.
Proof.
  intros (n & trace & Hn & He).
  eapply run_once_exec; [by apply Inv_new|apply run_once_new|exact He].
Qed.

Lemma names_lookup_le (h : nat) (l : list Task) (i : nat) (t : Task) :
  l !! i = Some t → names h t ≤ sum_list_with (names h) l.
Proof.
  revert i. induction l as [|x l IH]; intros [|i] Hi; simpl in *; try done.
  - injection Hi as ->. lia.
  - specialize (IH _ Hi). lia.
Qed.

Lemma names_same (h : nat) (t : Task) : task_state_ t = Some h → names h t = 1.
Proof. intros Ht. unfold names. by rewrite decide_True. Qed.

Lemma names_le_1_inj (l : list Task) :
  (∀ h, sum_list_with (names h) l ≤ 1) →
  ∀ i j t t' h, l !! i = Some t → l !! j = Some t' →
    task_state_ t = Some h → task_state_ t' = Some h → i = j.
Proof.
  induction l as [|x l IH]; intros Hsum i j t t' h Hi Hj Ht Ht'; [done|].
  pose proof (Hsum h) as Hh. simpl in Hh.
  destruct i as [|i], j as [|j]; simpl in Hi, Hj.
  - done.
  - injection Hi as ->. pose proof (names_lookup_le h _ _ _ Hj) as Hle.
    rewrite (names_same h t), (names_same h t') in *; try done. lia.
  - injection Hj as ->. pose proof (names_lookup_le h _ _ _ Hi) as Hle.
    rewrite (names_same h t), (names_same h t') in *; try done. lia.
  - assert (∀ h0, sum_list_with (names h0) l ≤ 1) as Hrest.
    { intros h0. specialize (Hsum h0). simpl in Hsum. lia. }
    f_equal. exact (IH Hrest i j t t' h Hi Hj Ht Ht').
Qed.

Lemma closed_state_insert (heap : list TaskState) (h h' : nat) (s s' : State) :
  heap !! h' = Some {| state_ := s |} →
  (s = CANCELLED ∨ s = COMPLETED → s' = CANCELLED ∨ s' = COMPLETED) →
  heap !! h = Some {| state_ := CANCELLED |}
  ∨ heap !! h = Some {| state_ := COMPLETED |} →
  <[h' := {| state_ := s' |}]> heap !! h = Some {| state_ := CANCELLED |}
  ∨ <[h' := {| state_ := s' |}]> heap !! h = Some {| state_ := COMPLETED |}.
Proof.
  intros Hh' Hs Hh. destruct (decide (h' = h)) as [->|Hne].
  - rewrite list_lookup_insert_eq by (by eapply lookup_lt_Some).
    rewrite Hh' in Hh.
    destruct Hs as [-> | ->]; [|by left|by right].
    destruct Hh as [[= ->] | [= ->]]; auto.
  - by rewrite list_lookup_insert_ne.
Qed.

Lemma never_runs_step (a : Action) (tp tp' : Threadpool) (h : nat) :
  Inv tp → never_runs h tp → step a tp = Ok tp' → never_runs h tp'.
Proof.
  intros HI (Hran & Hat & Hst) Hs.
  destruct a as [task|h'| |i]; cbn [step] in Hs.
  - assert (∀ extra,
              (heap tp ++ extra) !! h = Some {| state_ := CANCELLED |}
              ∨ (heap tp ++ extra) !! h = Some {| state_ := COMPLETED |}) as Happ.
    { intros extra. destruct Hst as [Hst | Hst]; [left | right];
        by apply lookup_app_l_Some. }
    destruct (stopped_ (Threadpool_queue_ tp)) eqn:Hstop.
    + rewrite Post_stopped in Hs by done. injection Hs as <-.
      split; [done|]. split; [done|]. apply Happ.
    + rewrite Post_accepted in Hs by done. injection Hs as <-.
      split; [done|]. split; [done|]. apply Happ.
  - destruct (heap tp !! h') as [[s]|] eqn:Hh'; [|discriminate].
    injection Hs as <-. split; [done|]. split; [done|]. cbn [heap].
    destruct s; simpl; (eapply closed_state_insert; [exact Hh'| |exact Hst]); auto.
  - injection Hs as <-. done.
  - apply Worker_step_move in Hs; [|done].
    destruct Hs as [task rest Hi Hq| Hi Hq Hstop|task h' Hi Ht Hh|task h' Hi Ht Hh
                   |task Hi|task h' s Hi Ht Hh Hin|q' Hi Hn Hq Hstop Ho];
      (split; [|split]); simpl; try done.
    + move_worker h Hi (AtTryAssign task). lia.
    + move_worker h Hi Returned. lia.
    + move_worker h Hi (AtRun task).
      assert (names h task = 0) as H0; [|lia].
      unfold names. rewrite decide_False; [done|].
      rewrite Ht. intros [= ->]. rewrite Hh in Hst.
      by destruct Hst.
    + eapply closed_state_insert; [exact Hh| |exact Hst].
      intros [? | ?]; discriminate.
    + move_worker h Hi (AtTryComplete task). lia.
    + move_worker h Hi (AtTryComplete task).
      rewrite sum_list_with_app. simpl. lia.
    + move_worker h Hi (AtTryComplete task). lia.
    + move_worker h Hi AtNotify. lia.
    + eapply closed_state_insert; [exact Hh| |exact Hst]. auto.
    + move_worker h Hi AtBlockingPop. lia.
Qed.

Lemma never_runs_exec (trace : list Action) (h : nat) :
  ∀ tp tp', Inv tp → never_runs h tp → exec trace tp = Ok tp' → never_runs h tp'.
Proof.
  induction trace as [|a trace IH]; intros tp tp' HI HN He; simpl in He.
  - by injection He as <-.
  - pose proof (Inv_step a tp HI) as HI'.
    destruct (step a tp) as [tp1| |] eqn:Hs; [|done|done].
    eapply IH; [exact HI'| |exact He]. exact (never_runs_step a tp tp1 h HI HN Hs).
Qed.

(** A task that waits in the queue, or that a worker has popped and not
    yet tried to assign, has not run and is not about to run. *)
Lemma waiting_not_run (tp : Threadpool) (task : Task) (h : nat) :
  run_once tp → task_state_ task = Some h →
  (task ∈ queue_ (Threadpool_queue_ tp)
   ∨ ∃ i, workers_ tp !! i = Some (AtTryAssign task)) →
  sum_list_with (names h) (ran tp) = 0
  ∧ sum_list_with (at_run h) (workers_ tp) = 0.
Proof.
  intros HU Ht Hwhere. specialize (HU h).
  destruct Hwhere as [Hq | [i Hi]].
  - pose proof (sum_list_with_in _ (names h) _ Hq) as Hle.
    rewrite (names_same h task Ht) in Hle.
    pose proof (sum_list_with_le (at_run h) (before_run h) (workers_ tp)
                  (at_run_le h)) as Hle'.
    lia.
  - move_worker h Hi AtBlockingPop.
    rewrite (names_same h task Ht) in Hbefore.
    pose proof (sum_list_with_le (at_run h) (before_run h)
                  (<[i := AtBlockingPop]> (workers_ tp)) (at_run_le h)) as Hle'.
    lia.
Qed.

Lemma names_0_Forall (h : nat) (l : list Task) :
  sum_list_with (names h) l = 0 → Forall (λ t, task_state_ t ≠ Some h) l.
Proof.
  intros H0. apply sum_list_with_0 in H0.
  eapply Forall_impl; [exact H0|]. intros t Ht. simpl in Ht.
  unfold names in Ht. by destruct (decide (task_state_ t = Some h)).
Qed.

Lemma task_in_handle (heap : list TaskState) (P : State → Prop) (t : Task) :
  task_in heap P t → ∃ h, task_state_ t = Some h.
Proof.
  intros (s & Hs & _). apply handle_state_Some in Hs as (h & ts & Ht & _). eauto.
Qed.

(** X1. In every state the pool can reach, [outstanding_tasks_] is the
    number of queued tasks plus the number of workers between a pop and
    their [NotifyOfCompletion].  So the counter is never negative, it
    bounds [QueueLength], and [BlockingDrain] returns exactly when the
    queue is empty and no worker is in the middle of a task. *)
Theorem outstanding_counts_queued_and_busy (tp : Threadpool) :
  reachable tp →
  outstanding_tasks_ (Threadpool_queue_ tp)
  = (QueueLength tp + Z.of_nat (sum_list_with busy (workers_ tp)))%Z
  ∧ (0 ≤ QueueLength tp ≤ outstanding_tasks_ (Threadpool_queue_ tp))%Z
  ∧ (BlockingDrain (Threadpool_queue_ tp) = Ok tt ↔
     queue_ (Threadpool_queue_ tp) = [] ∧ Forall idle (workers_ tp)).
Proof.
  intros Hr. pose proof (reachable_Inv tp Hr) as HI.
  pose proof (inv_outstanding _ HI) as Ho.
  unfold QueueLength, Length.
  split; [lia|]. split; [lia|].
  unfold BlockingDrain. split.
  - intros Hd. case_bool_decide as H0; [|done].
    assert (length (queue_ (Threadpool_queue_ tp)) = 0
            ∧ sum_list_with busy (workers_ tp) = 0) as [Hq Hb] by lia.
    split; [by destruct (queue_ (Threadpool_queue_ tp))|].
    apply sum_list_with_0 in Hb. eapply Forall_impl; [exact Hb|].
    intros w Hw. simpl in Hw. unfold idle. destruct w; auto; discriminate.
  - intros [Hq Hidle]. rewrite bool_decide_true; [done|].
    rewrite Ho, Hq. simpl.
    assert (sum_list_with busy (workers_ tp) = 0) as ->; [|done].
    apply sum_list_with_0. eapply Forall_impl; [exact Hidle|].
    intros w [-> | ->]; reflexivity.
Qed.

(** X2. A task is run at most once: in every state the pool can reach,
    no two entries of the record of runs share a [TaskState] (so the
    record has no duplicates), and a task that waits in the queue, or
    that a worker holds before its call of [Run()], has not run. *)
Theorem a_task_runs_at_most_once (tp : Threadpool) :
  reachable tp →
  NoDup (ran tp)
  ∧ (∀ i j t t', ran tp !! i = Some t → ran tp !! j = Some t' →
       task_state_ t = task_state_ t' → i = j)
  ∧ (∀ t, t ∈ queue_ (Threadpool_queue_ tp) → t ∉ ran tp)
  ∧ (∀ i t, workers_ tp !! i = Some (AtTryAssign t)
            ∨ workers_ tp !! i = Some (AtRun t) → t ∉ ran tp).
Proof.
  intros Hr. pose proof (reachable_Inv tp Hr) as HI.
  pose proof (reachable_run_once tp Hr) as HU.
  assert (∀ i t, ran tp !! i = Some t → ∃ h, task_state_ t = Some h) as Hhandle.
  { intros i t Hi. pose proof (inv_ran _ HI) as Hran.
    rewrite Forall_lookup in Hran. by eapply task_in_handle, Hran. }
  assert (∀ i j t t', ran tp !! i = Some t → ran tp !! j = Some t' →
            task_state_ t = task_state_ t' → i = j) as Hinj.
  { intros i j t t' Hi Hj Heq. destruct (Hhandle i t Hi) as [h Ht].
    eapply (names_le_1_inj (ran tp)); [|exact Hi|exact Hj|exact Ht|by rewrite <- Heq].
    intros h0. specialize (HU h0). lia. }
  split; [|split; [exact Hinj|split]].
  - apply NoDup_alt. intros i j t Hi Hj. by eapply Hinj.
  - intros t Hq Hran.
    pose proof (inv_queue _ HI) as Hqueue. rewrite Forall_forall in Hqueue.
    destruct (task_in_handle _ _ _ (Hqueue t Hq)) as [h Ht].
    pose proof (sum_list_with_in _ (names h) _ Hq) as H1.
    pose proof (sum_list_with_in _ (names h) _ Hran) as H2.
    rewrite (names_same h t Ht) in H1, H2. specialize (HU h). lia.
  - intros i t Hi Hran.
    apply list_elem_of_lookup in Hran as Hran'. destruct Hran' as [j Hj].
    destruct (Hhandle j t Hj) as [h Ht].
    pose proof (sum_list_with_in _ (names h) _ Hran) as H2.
    rewrite (names_same h t Ht) in H2. specialize (HU h).
    destruct Hi as [Hi | Hi]; move_worker h Hi AtBlockingPop;
      rewrite (names_same h t Ht) in Hbefore; lia.
Qed.

(** Cancelling a task that waits, or that a worker has popped and not
    yet tried to assign, succeeds and keeps the task from running. *)
Lemma cancel_waiting_task (tp : Threadpool) (task : Task) (h : nat) :
  Inv tp → run_once tp → task_state_ task = Some h →
  (task ∈ queue_ (Threadpool_queue_ tp)
   ∨ ∃ i, workers_ tp !! i = Some (AtTryAssign task)) →
  ∃ ts, heap tp !! h = Some ts
        ∧ Cancel ts = ({| state_ := CANCELLED |}, true)
        ∧ ∀ trace tp', exec (CallCancel h :: trace) tp = Ok tp' →
            never_runs h tp'.
Proof.
  intros HI HU Ht Hwhere.
  destruct (waiting_not_run tp task h HU Ht Hwhere) as [Hran Hat].
  assert (task_in (heap tp) waiting task) as (s & Hs & Hw).
  { destruct Hwhere as [Hq | [i Hi]].
    - pose proof (inv_queue _ HI) as Hqueue. rewrite Forall_forall in Hqueue. auto.
    - pose proof (inv_workers _ HI) as Hws. rewrite Forall_lookup in Hws.
      exact (Hws i _ Hi). }
  apply handle_state_Some in Hs as (h0 & [s0] & Ht0 & Hh & Hst).
  rewrite Ht in Ht0. injection Ht0 as <-. simpl in Hst. subst s0.
  assert (Cancel {| state_ := s |} = ({| state_ := CANCELLED |}, true)) as HC.
  { by destruct Hw as [-> | ->]. }
  eexists. split; [exact Hh|]. split; [exact HC|].
  intros trace tp' He. cbn [exec step] in He. rewrite Hh, HC in He.
  eapply never_runs_exec; [|
    |exact He].
  - pose proof (Inv_Cancel h _ tp HI Hh) as HI'. by rewrite HC in HI'.
  - split; [done|]. split; [done|]. left. cbn [heap fst].
    apply list_lookup_insert_eq. by eapply lookup_lt_Some.
Qed.

Lemma reachable_step (a : Action) (tp tp' : Threadpool) :
  reachable tp → step a tp = Ok tp' → reachable tp'.
Proof.
  intros (n & trace & Hn & He) Hs. exists n, (trace ++ [a]). split; [done|].
  rewrite (exec_app _ _ _ _ He). simpl. by rewrite Hs.
Qed.

(** X3. A task cancelled before a worker has assigned it is never run.
    If the task is in the queue, or popped and not yet past
    [TryUpdateState(ASSIGNED)], then [Cancel] on its handle succeeds,
    and in everything that can happen afterwards the task is not among
    those run and its state is CANCELLED or COMPLETED. *)
Theorem cancelled_before_assignment_never_runs (tp : Threadpool) (task : Task)
    (h : nat) :
  reachable tp → task_state_ task = Some h →
  (task ∈ queue_ (Threadpool_queue_ tp)
   ∨ ∃ i, workers_ tp !! i = Some (AtTryAssign task)) →
  (∃ ts, heap tp !! h = Some ts ∧ (Cancel ts).2 = true)
  ∧ ∀ trace tp', exec (CallCancel h :: trace) tp = Ok tp' →
      Forall (λ t, task_state_ t ≠ Some h) (ran tp')
      ∧ (task ∉ ran tp')
      ∧ (heap tp' !! h = Some {| state_ := CANCELLED |}
         ∨ heap tp' !! h = Some {| state_ := COMPLETED |}).
Proof.
  intros Hr Ht Hwhere.
  destruct (cancel_waiting_task tp task h (reachable_Inv tp Hr)
              (reachable_run_once tp Hr) Ht Hwhere) as (ts & Hh & HC & Hnever).
  split.
  { exists ts. split; [exact Hh|]. by rewrite HC. }
  intros trace tp' He.
  destruct (Hnever trace tp' He) as (Hran' & _ & Hst').
  pose proof (names_0_Forall h _ Hran') as Hall.
  split; [exact Hall|]. split; [|exact Hst'].
  intros Hin. rewrite Forall_forall in Hall. by apply (Hall task Hin).
Qed.

Lemma busy_cost_pos (ws : list Worker) :
  0 < sum_list_with busy_cost ws →
  ∃ i w, ws !! i = Some w ∧ 0 < busy_cost w.
Proof.
  induction ws as [|w ws IH]; simpl; [lia|]. intros Hpos.
  destruct (decide (0 < busy_cost w)) as [Hw|Hw].
  - by exists 0, w.
  - destruct IH as (i & w' & Hi & Hw'); [lia|]. by exists (S i), w'.
Qed.

Lemma busy_cost_idle (w : Worker) : busy_cost w = 0 ↔ idle w.
Proof.
  unfold idle. split.
  - destruct w; simpl; auto; lia.
  - by intros [-> | ->].
Qed.

(** While something is queued or in a worker's hands, some worker can
    take a step, and the step leaves less to do. *)
Lemma drain_step (tp : Threadpool) :
  Inv tp → 0 < drain_cost tp →
  ∃ i tp', Worker_step i tp = Ok tp' ∧ drain_cost tp' < drain_cost tp.
Proof.
  intros HI Hpos. unfold drain_cost in *.
  destruct (decide (0 < sum_list_with busy_cost (workers_ tp))) as [Hb|Hb].
  - destruct (busy_cost_pos _ Hb) as (i & w & Hi & Hw).
    pose proof (Worker_step_cases i tp w HI Hi) as Hc.
    pose proof (λ w', sum_list_with_insert busy_cost _ _ _ w' Hi) as Hins.
    exists i. destruct w; simpl in Hw; try lia.
    + destruct Hc as (h & ts & _ & _ & [[_ Hc] | [_ Hc]]);
        eexists; (split; [exact Hc|]); simpl.
      * specialize (Hins (AtRun task)). simpl in Hins. lia.
      * specialize (Hins (AtTryComplete task)). simpl in Hins. lia.
    + eexists; (split; [exact Hc|]); simpl.
      specialize (Hins (AtTryComplete task)). simpl in Hins. lia.
    + destruct Hc as (h & ts & _ & _ & _ & Hc).
      eexists; (split; [exact Hc|]); simpl.
      specialize (Hins AtNotify). simpl in Hins. lia.
    + destruct Hc as (q' & _ & Hq & _ & _ & Hc).
      eexists; (split; [exact Hc|]); simpl.
      specialize (Hins AtBlockingPop). simpl in Hins. rewrite Hq. lia.
  - assert (sum_list_with busy_cost (workers_ tp) = 0) as H0 by lia.
    destruct (lookup_lt_is_Some_2 _ _ (inv_size _ HI)) as [w Hw].
    pose proof (proj1 (sum_list_with_0 _ _) H0) as Hall.
    rewrite Forall_lookup in Hall. specialize (Hall 0 w Hw). simpl in Hall.
    apply busy_cost_idle in Hall.
    destruct (queue_ (Threadpool_queue_ tp)) as [|task rest] eqn:Hq;
      [simpl in Hpos; lia|].
    destruct Hall as [-> | ->].
    + pose proof (Worker_step_cases 0 tp _ HI Hw) as Hc. simpl in Hc.
      rewrite Hq in Hc. exists 0. eexists. split; [exact Hc|]. simpl.
      pose proof (sum_list_with_insert busy_cost _ _ _ (AtTryAssign task) Hw) as Hins.
      simpl in Hins. unfold Pop. rewrite Hq. simpl. lia.
    + destruct (inv_returned _ HI (ex_intro _ 0 Hw)) as [_ Hq0]. congruence.
Qed.

Lemma drain_reachable (n : nat) :
  ∀ tp, Inv tp → drain_cost tp ≤ n →
    ∃ trace tp', worker_steps trace ∧ exec trace tp = Ok tp' ∧ drain_cost tp' = 0.
Proof.
  induction n as [|n IH]; intros tp HI Hn.
  - exists [], tp. split; [constructor|]. split; [done|lia].
  - destruct (decide (drain_cost tp = 0)) as [H0|H0].
    + exists [], tp. split; [constructor|]. done.
    + destruct (drain_step tp HI) as (i & tp1 & Hs & Hlt); [lia|].
      destruct (Inv_Worker_step i tp tp1 HI Hs) as [HI1 _].
      destruct (IH tp1 HI1) as (trace & tp' & Hw & He & Hd); [lia|].
      exists (WorkerStep i :: trace), tp'. split; [|split; [|done]].
      * constructor; [by exists i|done].
      * simpl. by rewrite Hs.
Qed.

Lemma drain_cost_0 (tp : Threadpool) :
  drain_cost tp = 0 →
  queue_ (Threadpool_queue_ tp) = [] ∧ Forall idle (workers_ tp).
Proof.
  unfold drain_cost. intros H0. split.
  - destruct (queue_ (Threadpool_queue_ tp)); [done|simpl in H0; lia].
  - assert (sum_list_with busy_cost (workers_ tp) = 0) as Hb by lia.
    apply sum_list_with_0 in Hb. eapply Forall_impl; [exact Hb|].
    intros w Hw. by apply busy_cost_idle.
Qed.

Lemma sum_idle (f : Worker → nat) (ws : list Worker) :
  f AtBlockingPop = 0 → f Returned = 0 → Forall idle ws → sum_list_with f ws = 0.
Proof.
  intros H1 H2 Hidle. apply sum_list_with_0. eapply Forall_impl; [exact Hidle|].
  by intros w [-> | ->].
Qed.

Lemma worker_steps_not_cancel (trace : list Action) (h : nat) :
  worker_steps trace → CallCancel h ∉ trace.
Proof.
  intros Hw Hin. unfold worker_steps in Hw. rewrite Forall_forall in Hw.
  destruct (Hw _ Hin) as [i Hi]. discriminate.
Qed.

(** What a drained pool says about a task that was queued before. *)
Lemma drained_task_completed (tp tp' : Threadpool) (trace : list Action)
    (task : Task) :
  Inv tp → exec trace tp = Ok tp' →
  queue_ (Threadpool_queue_ tp') = [] → Forall idle (workers_ tp') →
  task ∈ queue_ (Threadpool_queue_ tp) →
  ∃ h, task_state_ task = Some h
       ∧ heap tp' !! h = Some {| state_ := COMPLETED |}
       ∧ (heap tp !! h = Some {| state_ := QUEUED |} →
          CallCancel h ∉ trace → task ∈ ran tp').
Proof.
  intros HI He Hq' Hidle Hin.
  pose proof (inv_queue _ HI) as Hqueue. rewrite Forall_forall in Hqueue.
  destruct (task_in_handle _ _ _ (Hqueue task Hin)) as [h Ht].
  exists h. split; [done|].
  pose proof (sum_list_with_in _ (names h) _ Hin) as H1.
  rewrite (names_same h task Ht) in H1.
  split.
  - assert (settled h tp) as Hset by (left; unfold owners; lia).
    destruct (settled_exec trace h tp tp' HI Hset He) as [Hown | Hdone]; [|done].
    unfold owners in Hown. rewrite Hq' in Hown. simpl in Hown.
    rewrite (sum_idle (Worker_names h)) in Hown by done. lia.
  - intros Hst Hnc.
    assert (will_run task h tp) as Hwill.
    { left. split; [|done]. pose proof (elem_of_is_task task _ Hin). lia. }
    destruct (will_run_exec trace task h tp tp' HI Ht Hwill Hnc He)
      as [[Hp _] | [Hrun | Hran]].
    + rewrite Hq' in Hp. simpl in Hp.
      rewrite (sum_idle (popped task)) in Hp by done. lia.
    + rewrite (sum_idle (running task)) in Hrun by done. lia.
    + by apply is_task_elem_of.
Qed.

(** X4. Left alone, the workers always finish the work: from every state
    the pool can reach there is a run of worker steps after which the
    queue is empty, every worker is idle and [BlockingDrain] returns.
    In the state reached every task that was queued is COMPLETED, and it
    was run if it was QUEUED (not cancelled). *)
Theorem workers_can_always_drain (tp : Threadpool) :
  reachable tp →
  ∃ trace tp',
    worker_steps trace ∧ exec trace tp = Ok tp'
    ∧ BlockingDrain (Threadpool_queue_ tp') = Ok tt
    ∧ QueueLength tp' = 0%Z
    ∧ Forall idle (workers_ tp')
    ∧ (∀ task, task ∈ queue_ (Threadpool_queue_ tp) →
         ∃ h, task_state_ task = Some h
              ∧ heap tp' !! h = Some {| state_ := COMPLETED |}
              ∧ (heap tp !! h = Some {| state_ := QUEUED |} → task ∈ ran tp')).
Proof.
  intros Hr. pose proof (reachable_Inv tp Hr) as HI.
  destruct (drain_reachable (drain_cost tp) tp HI) as (trace & tp' & Hw & He & Hd);
    [lia|].
  destruct (drain_cost_0 tp' Hd) as [Hq' Hidle].
  pose proof (exec_Inv_Ok trace tp tp' HI He) as HI'.
  exists trace, tp'. split; [done|]. split; [done|].
  split; [|split; [|split; [done|]]].
  - unfold BlockingDrain. rewrite bool_decide_true; [done|].
    rewrite (inv_outstanding _ HI'), Hq'. simpl.
    by rewrite (sum_idle busy).
  - unfold QueueLength, Length. by rewrite Hq'.
  - intros task Hin.
    destruct (drained_task_completed tp tp' trace task HI He Hq' Hidle Hin)
      as (h & Ht & Hdone & Hran).
    exists h. split; [done|]. split; [done|].
    intros Hst. apply Hran; [done|]. by apply worker_steps_not_cancel.
Qed.

Lemma pool_cost_step (i : nat) (tp tp' : Threadpool) :
  Inv tp → Worker_step i tp = Ok tp' → pool_cost tp' < pool_cost tp.
Proof.
  intros HI Hs.
  destruct (Inv_Worker_step i tp tp' HI Hs) as (_ & _ & _ & w & w' & Hi & Hws & Hlt).
  unfold pool_cost. rewrite Hws.
  pose proof (sum_list_with_insert Worker_cost _ _ _ w' Hi) as Hins. lia.
Qed.

Lemma worker_run_bounded (trace : list Action) :
  ∀ tp tp', Inv tp → worker_steps trace → exec trace tp = Ok tp' →
    length trace + pool_cost tp' ≤ pool_cost tp.
Proof.
  induction trace as [|a trace IH]; intros tp tp' HI Hw He; simpl in He.
  - injection He as <-. simpl. lia.
  - apply Forall_cons in Hw as [[i ->] Hw]. simpl in He.
    destruct (Worker_step i tp) as [tp1| |] eqn:Hs; [|done|done].
    destruct (Inv_Worker_step i tp tp1 HI Hs) as [HI1 _].
    pose proof (pool_cost_step i tp tp1 HI Hs).
    specialize (IH tp1 tp' HI1 Hw He). simpl. lia.
Qed.

Lemma pool_cost_le (tp : Threadpool) :
  pool_cost tp
  ≤ 5 * (length (workers_ tp) + length (queue_ (Threadpool_queue_ tp))).
Proof.
  unfold pool_cost.
  assert (sum_list_with Worker_cost (workers_ tp) ≤ 5 * length (workers_ tp)); [|lia].
  induction (workers_ tp) as [|w ws IH]; simpl; [lia|].
  pose proof (Worker_cost_le w). lia.
Qed.

Lemma all_wait_drained (tp : Threadpool) :
  Inv tp → (∀ i, Worker_step i tp = Wait) →
  queue_ (Threadpool_queue_ tp) = [] ∧ Forall idle (workers_ tp).
Proof.
  intros HI Hwait.
  assert (Forall idle (workers_ tp)) as Hidle.
  { apply Forall_lookup. intros i w Hi.
    pose proof (Worker_step_cases i tp w HI Hi) as Hc. specialize (Hwait i).
    unfold idle. destruct w; auto; exfalso.
    - destruct Hc as (h & ts & _ & _ & [[_ Hc] | [_ Hc]]); congruence.
    - congruence.
    - destruct Hc as (h & ts & _ & _ & _ & Hc). congruence.
    - destruct Hc as (q' & _ & _ & _ & _ & Hc). congruence. }
  split; [|done].
  destruct (lookup_lt_is_Some_2 _ _ (inv_size _ HI)) as [w Hw].
  rewrite Forall_lookup in Hidle. destruct (Hidle 0 w Hw) as [-> | ->].
  - pose proof (Worker_step_cases 0 tp _ HI Hw) as Hc. simpl in Hc.
    specialize (Hwait 0).
    destruct (queue_ (Threadpool_queue_ tp)); [done|congruence].
  - by destruct (inv_returned _ HI (ex_intro _ 0 Hw)).
Qed.

(** X5. The workers cannot run forever and cannot be stuck with work
    left.  From a state the pool can reach, a run of worker steps has at
    most [5 * (NWorkers + QueueLength)] steps; and when no worker can
    take a step (each waits in [BlockingPop] or has returned), the queue
    is empty, no worker holds a task and [BlockingDrain] returns. *)
Theorem workers_stop_only_when_drained (tp : Threadpool) :
  reachable tp →
  (∀ trace tp', worker_steps trace → exec trace tp = Ok tp' →
     length trace + pool_cost tp' ≤ pool_cost tp
     ∧ length trace
       ≤ 5 * (length (workers_ tp) + length (queue_ (Threadpool_queue_ tp))))
  ∧ ((∀ i, Worker_step i tp = Wait) →
     queue_ (Threadpool_queue_ tp) = [] ∧ Forall idle (workers_ tp)
     ∧ BlockingDrain (Threadpool_queue_ tp) = Ok tt).
Proof.
  intros Hr. pose proof (reachable_Inv tp Hr) as HI. split.
  - intros trace tp' Hw He.
    pose proof (worker_run_bounded trace tp tp' HI Hw He) as Hb.
    pose proof (pool_cost_le tp). split; lia.
  - intros Hwait. destruct (all_wait_drained tp HI Hwait) as [Hq Hidle].
    split; [done|]. split; [done|].
    unfold BlockingDrain. rewrite bool_decide_true; [done|].
    rewrite (inv_outstanding _ HI), Hq. simpl. by rewrite (sum_idle busy).
Qed.

End More_pool_facts.

(** *** The pool: order of the pops *)

Section Fifo_facts.
Import threadpool spec.

Lemma task_in_lt (heap : list TaskState) (P : State → Prop) (t : Task) (h : nat) :
  task_in heap P t → task_state_ t = Some h → h < length heap.
Proof.
  intros (s & Hs & _) Ht. apply handle_state_Some in Hs as (h0 & ts & Ht0 & Hh & _).
  rewrite Ht in Ht0. injection Ht0 as <-. by eapply lookup_lt_Some.
Qed.

Lemma taken_lt (tp : Threadpool) (t : Task) (h : nat) :
  Inv tp → taken tp t → task_state_ t = Some h → h < length (heap tp).
Proof.
  intros HI [Hran | (i & w & Hi & Hw)] Ht.
  - pose proof (inv_ran _ HI) as Hall. rewrite Forall_forall in Hall.
    exact (task_in_lt _ _ t h (Hall t Hran) Ht).
  - pose proof (inv_workers _ HI) as Hall. rewrite Forall_lookup in Hall.
    specialize (Hall i w Hi).
    destruct w; simpl in Hw; try discriminate; injection Hw as ->;
      exact (task_in_lt _ _ t h Hall Ht).
Qed.

Lemma queued_lt (tp : Threadpool) (t : Task) (h : nat) :
  Inv tp → t ∈ queue_ (Threadpool_queue_ tp) → task_state_ t = Some h →
  h < length (heap tp).
Proof.
  intros HI Hq Ht. pose proof (inv_queue _ HI) as Hall.
  rewrite Forall_forall in Hall. exact (task_in_lt _ _ t h (Hall t Hq) Ht).
Qed.

(** Who holds a task after worker [i] moved to [w']. *)
Lemma taken_insert (tp : Threadpool) (i : nat) (w' : Worker) (t : Task)
    (ws : list Worker) (rn : list Task) :
  (t ∈ rn → taken tp t) →
  (held w' = Some t → taken tp t) →
  ws = <[i := w']> (workers_ tp) →
  (t ∈ rn ∨ ∃ j w, ws !! j = Some w ∧ held w = Some t) → taken tp t.
Proof.
  intros Hrn Hw' -> [Hin | (j & w & Hj & Hw)]; [auto|].
  apply list_lookup_insert_Some in Hj as [(-> & <- & _) | [_ Hj]]; [auto|].
  right. eauto.
Qed.

Lemma fifo_step (a : Action) (tp tp' : Threadpool) :
  Inv tp → fifo tp → step a tp = Ok tp' → fifo tp'.
Proof.
  intros HI [Hq Ht] Hs. destruct a as [task|h0| |i]; cbn [step] in Hs.
  - destruct (stopped_ (Threadpool_queue_ tp)) eqn:Hstop.
    + rewrite Post_stopped in Hs by done. injection Hs as <-. by split.
    + rewrite Post_accepted in Hs by done. injection Hs as <-.
      split; cbn [Threadpool_queue_ queue_].
      * intros i j t t' h h' Hij Hi Hj Hh Hh'.
        apply lookup_app_Some in Hj as [Hj | [Hlen Hj]].
        -- apply lookup_app_Some in Hi as [Hi | [Hlen' _]].
           ++ by eapply (Hq i j).
           ++ apply lookup_lt_Some in Hj. lia.
        -- apply list_lookup_singleton_Some in Hj as [Hj0 <-].
           simpl in Hh'. injection Hh' as <-.
           apply lookup_app_Some in Hi as [Hi | [Hlen' Hi]].
           ++ eapply queued_lt; [done| |done]. by eapply list_elem_of_lookup_2.
           ++ apply list_lookup_singleton_Some in Hi as [? _]. lia.
      * intros t t' h h' Htk Hin Hh Hh'.
        assert (taken tp t) as Htk' by exact Htk.
        apply elem_of_app in Hin as [Hin | Hin].
        -- by eapply Ht.
        -- apply list_elem_of_singleton in Hin as ->. simpl in Hh'.
           injection Hh' as <-. by eapply taken_lt.
  - destruct (heap tp !! h0); [|discriminate]. injection Hs as <-. by split.
  - injection Hs as <-. by split.
  - apply Worker_step_move in Hs; [|done].
    destruct Hs as [task rest Hi Hqu| Hi Hqu Hstop|task h1 Hi Hts Hh|task h1 Hi Hts Hh
                   |task Hi|task h1 s Hi Hts Hh Hin|q' Hi Hn Hqu Hstop Ho].
    + split; cbn [Threadpool_queue_ queue_ workers_ ran]; unfold Pop;
        rewrite Hqu; cbn [snd queue_].
      * intros i0 j t t' h h' Hij Hi0 Hj Hh Hh'.
        eapply (Hq (S i0) (S j)); [lia| | |done|done]; by rewrite Hqu.
      * intros t t' h h' Htk Hin Hh Hh'.
        apply list_elem_of_lookup in Hin as [k Hk].
        destruct Htk as [Hran | (j & w & Hj & Hw)].
        -- eapply Ht; [by left| |done|done].
           rewrite Hqu. apply elem_of_cons. right. by eapply list_elem_of_lookup_2.
        -- apply list_lookup_insert_Some in Hj as [(-> & <- & _) | [_ Hj]].
           ++ simpl in Hw. injection Hw as ->.
              eapply (Hq 0 (S k)); [lia| | |done|done]; by rewrite Hqu.
           ++ eapply Ht; [right; eauto| |done|done].
              rewrite Hqu. apply elem_of_cons. right. by eapply list_elem_of_lookup_2.
    + split; [done|]. intros t t' h h' Htk. apply Ht.
      eapply (taken_insert tp i Returned); [by left|done|reflexivity|exact Htk].
    + split; [done|]. intros t t' h h' Htk. apply Ht.
      eapply (taken_insert tp i (AtRun task)); [by left| |reflexivity|exact Htk].
      intros [= <-]. right. eauto.
    + split; [done|]. intros t t' h h' Htk. apply Ht.
      eapply (taken_insert tp i (AtTryComplete task)); [by left| |reflexivity|exact Htk].
      intros [= <-]. right. eauto.
    + split; [done|]. intros t t' h h' Htk. apply Ht.
      eapply (taken_insert tp i (AtTryComplete task) t _ (ran tp ++ [task]));
        [| |reflexivity|exact Htk].
      * intros Hin. apply elem_of_app in Hin as [Hin | Hin]; [by left|].
        apply list_elem_of_singleton in Hin as ->. right. eauto.
      * intros [= <-]. right. eauto.
    + split; [done|]. intros t t' h h' Htk. apply Ht.
      eapply (taken_insert tp i AtNotify); [by left|done|reflexivity|exact Htk].
    + split; cbn [Threadpool_queue_ workers_ ran]; rewrite Hqu; [done|].
      intros t t' h h' Htk. apply Ht.
      eapply (taken_insert tp i AtBlockingPop); [by left|done|reflexivity|exact Htk].
Qed.

Lemma fifo_new (threadpool_size : nat) : fifo (Threadpool_new threadpool_size).
Proof.
  split; simpl.
  - intros i j t t' h h' _ Hi. by rewrite lookup_nil in Hi.
  - intros t t' h h' _ Hin. by apply elem_of_nil in Hin.
Qed.

Lemma fifo_exec (trace : list Action) :
  ∀ tp tp', Inv tp → fifo tp → exec trace tp = Ok tp' → fifo tp'.
Proof.
  induction trace as [|a trace IH]; intros tp tp' HI HF He; simpl in He.
  - by injection He as <-.
  - pose proof (Inv_step a tp HI) as HI'.
    destruct (step a tp) as [tp1| |] eqn:Hs; [|done|done].
    eapply IH; [exact HI'| |exact He]. exact (fifo_step a tp tp1 HI HF Hs).
Qed.

Lemma step_heap_length (a : Action) (tp tp' : Threadpool) :
  Inv tp → step a tp = Ok tp' → length (heap tp) ≤ length (heap tp').
Proof.
  intros HI Hs. destruct a as [task|h0| |i]; cbn [step] in Hs.
  - destruct (Inv_Post task tp HI) as (tp1 & HP & _). rewrite HP in Hs.
    injection Hs as <-.
    destruct (stopped_ (Threadpool_queue_ tp)) eqn:Hstop.
    + rewrite (Post_stopped task tp Hstop) in HP. injection HP as <-.
      simpl. rewrite length_app. lia.
    + rewrite (Post_accepted task tp Hstop) in HP. injection HP as <-.
      simpl. rewrite length_app. lia.
  - destruct (heap tp !! h0); [|discriminate]. injection Hs as <-. simpl.
    by rewrite length_insert.
  - by injection Hs as <-.
  - destruct (Inv_Worker_step i tp tp' HI Hs) as (_ & _ & -> & _). done.
Qed.

Lemma exec_heap_length (trace : list Action) :
  ∀ tp tp', Inv tp → exec trace tp = Ok tp' → length (heap tp) ≤ length (heap tp').
Proof.
  induction trace as [|a trace IH]; intros tp tp' HI He; simpl in He.
  - by injection He as <-.
  - pose proof (Inv_step a tp HI) as HI'.
    destruct (step a tp) as [tp1| |] eqn:Hs; [|done|done].
    pose proof (step_heap_length a tp tp1 HI Hs). specialize (IH tp1 tp' HI' He). lia.
Qed.

(** X6. The pool takes tasks in the order in which they were posted.
    The [TaskState] objects are numbered in the order of the posts that
    made them (a later post gets a larger number).  In every state the
    pool can reach these numbers grow along the queue, and every task
    that a worker has popped (it holds it, or it ran) has a smaller
    number than every task still queued: no task is popped before a
    task posted earlier. *)
Theorem tasks_are_popped_in_post_order (tp : Threadpool) :
  reachable tp →
  (∀ i j t t' h h', i < j →
     queue_ (Threadpool_queue_ tp) !! i = Some t →
     queue_ (Threadpool_queue_ tp) !! j = Some t' →
     task_state_ t = Some h → task_state_ t' = Some h' → h < h')
  ∧ (∀ t t' h h', taken tp t → t' ∈ queue_ (Threadpool_queue_ tp) →
       task_state_ t = Some h → task_state_ t' = Some h' → h < h')
  ∧ (∀ task tp1 h1 trace tp2 task' tp3 h2,
       Post task tp = Ok (tp1, Some h1) → exec trace tp1 = Ok tp2 →
       Post task' tp2 = Ok (tp3, Some h2) → h1 < h2).
Proof.
  intros Hr. pose proof (reachable_Inv tp Hr) as HI.
  destruct Hr as (n & trace0 & Hn & He0).
  destruct (fifo_exec trace0 _ tp (Inv_new n Hn) (fifo_new n) He0) as [Hq Ht].
  split; [exact Hq|]. split; [exact Ht|].
  intros task tp1 h1 trace tp2 task' tp3 h2 HP1 He HP2.
  destruct (Inv_Post task tp HI) as (tp1' & HP1' & HI1).
  rewrite HP1 in HP1'. injection HP1' as <- ->.
  pose proof (exec_Inv_Ok trace tp1 tp2 HI1 He) as HI2.
  destruct (Inv_Post task' tp2 HI2) as (tp3' & HP2' & _).
  rewrite HP2 in HP2'. injection HP2' as <- ->.
  pose proof (exec_heap_length trace tp1 tp2 HI1 He) as Hlen.
  assert (length (heap tp) < length (heap tp1)); [|lia].
  destruct (stopped_ (Threadpool_queue_ tp)) eqn:Hstop.
  - rewrite (Post_stopped task tp Hstop) in HP1. injection HP1 as <-.
    simpl. rewrite length_app. simpl. lia.
  - rewrite (Post_accepted task tp Hstop) in HP1. injection HP1 as <-.
    simpl. rewrite length_app. simpl. lia.
Qed.

End Fifo_facts.

(** *** TaskState: monotonicity *)

Section More_TaskState_facts.
Import threadpool spec.

Lemma TryUpdateState_seq_cons (new_state : State) (rest : list State) (ts : TaskState) :
  TryUpdateState_seq (new_state :: rest) ts
  = ((TryUpdateState_seq rest (TryUpdateState new_state ts).1).1,
     state_ (TryUpdateState new_state ts).1
     :: (TryUpdateState_seq rest (TryUpdateState new_state ts).1).2).
Proof.
  cbn [TryUpdateState_seq]. unfold TryUpdateState at 1. cbn [fst].
  by destruct (TryUpdateState_seq rest _).
Qed.

Lemma TryUpdateState_rank (new_state : State) (ts : TaskState) :
  rank (state_ ts) ≤ rank (state_ (TryUpdateState new_state ts).1)
  ∧ (state_ (TryUpdateState new_state ts).1 ≠ state_ ts →
     rank (state_ ts) < rank (state_ (TryUpdateState new_state ts).1)).
Proof.
  destruct ts as [s]. destruct s, new_state; simpl; split; (lia || done).
Qed.

Lemma TryUpdateState_seq_rank (requests : list State) :
  ∀ ts a, a ∈ (TryUpdateState_seq requests ts).2 → rank (state_ ts) ≤ rank a.
Proof.
  induction requests as [|r rest IH]; intros ts a Ha.
  - by apply elem_of_nil in Ha.
  - rewrite TryUpdateState_seq_cons in Ha. cbn [snd] in Ha.
    pose proof (TryUpdateState_rank r ts) as [Hle _].
    apply elem_of_cons in Ha as [-> | Ha]; [done|].
    specialize (IH _ _ Ha). lia.
Qed.

Lemma TryUpdateState_seq_sorted (requests : list State) :
  ∀ ts i j a b, i ≤ j →
    (TryUpdateState_seq requests ts).2 !! i = Some a →
    (TryUpdateState_seq requests ts).2 !! j = Some b →
    rank a ≤ rank b.
Proof.
  induction requests as [|r rest IH]; intros ts i j a b Hij Hi Hj; [done|].
  rewrite TryUpdateState_seq_cons in Hi, Hj. cbn [snd] in Hi, Hj.
  destruct i as [|i], j as [|j]; simpl in Hi, Hj; try lia.
  - injection Hi as <-. by injection Hj as <-.
  - injection Hi as <-. eapply TryUpdateState_seq_rank.
    by eapply list_elem_of_lookup_2.
  - eapply (IH _ i j); [lia|done|done].
Qed.

Lemma TryUpdateState_seq_changes (requests : list State) :
  ∀ ts, changes (state_ ts) (TryUpdateState_seq requests ts).2 + rank (state_ ts)
        ≤ rank (state_ (TryUpdateState_seq requests ts).1).
Proof.
  induction requests as [|r rest IH]; intros ts; [simpl; lia|].
  rewrite TryUpdateState_seq_cons. cbn [fst snd changes].
  pose proof (TryUpdateState_rank r ts) as [Hle Hlt].
  specialize (IH (TryUpdateState r ts).1).
  destruct (decide (state_ (TryUpdateState r ts).1 = state_ ts)) as [Heq|Hne].
  - lia.
  - specialize (Hlt Hne). lia.
Qed.

Lemma TryUpdateState_seq_COMPLETED (requests : list State) :
  TryUpdateState_seq requests {| state_ := COMPLETED |}
  = ({| state_ := COMPLETED |}, replicate (length requests) COMPLETED).
Proof.
  induction requests as [|r rest IH]; [done|].
  rewrite TryUpdateState_seq_cons. simpl. by rewrite IH.
Qed.

Lemma rank_le_4 (s : State) : rank s ≤ 4.
Proof. destruct s; simpl; lia. Qed.

(** X7. A [TaskState] never goes back.  Whatever sequence of states is
    requested through [TryUpdateState], the states returned are in the
    order INITIAL, QUEUED, ASSIGNED, CANCELLED, COMPLETED (a state once
    left is never returned again), the state changes at most four
    times, and once COMPLETED every request returns COMPLETED and
    [Cancel] fails. *)
Theorem TaskState_never_goes_back (ts : TaskState) (requests : list State) :
  (∀ i j a b, i ≤ j →
     (TryUpdateState_seq requests ts).2 !! i = Some a →
     (TryUpdateState_seq requests ts).2 !! j = Some b →
     rank a ≤ rank b)
  ∧ (∀ a, a ∈ (TryUpdateState_seq requests ts).2 → rank (state_ ts) ≤ rank a)
  ∧ changes (state_ ts) (TryUpdateState_seq requests ts).2 + rank (state_ ts)
    ≤ rank (state_ (TryUpdateState_seq requests ts).1)
  ∧ changes (state_ ts) (TryUpdateState_seq requests ts).2 ≤ 4
  ∧ TryUpdateState_seq requests {| state_ := COMPLETED |}
    = ({| state_ := COMPLETED |}, replicate (length requests) COMPLETED)
  ∧ Cancel {| state_ := COMPLETED |} = ({| state_ := COMPLETED |}, false).
Proof.
  split; [apply TryUpdateState_seq_sorted|].
  split; [apply TryUpdateState_seq_rank|].
  pose proof (TryUpdateState_seq_changes requests ts) as Hc.
  pose proof (rank_le_4 (state_ (TryUpdateState_seq requests ts).1)).
  split; [done|]. split; [lia|].
  split; [apply TryUpdateState_seq_COMPLETED|reflexivity].
Qed.

End More_TaskState_facts.

(** *** The size of the pool *)

Section Threadpool_size_facts.
Import threadpool spec.

Lemma step_workers_length (a : Action) (tp tp' : Threadpool) :
  step a tp = Ok tp' → length (workers_ tp') = length (workers_ tp).
Proof.
  destruct a as [task|h| |i]; simpl.
  - unfold Post. destruct (Push _ _ _) as [[[heap2 q2] ok]|]; [|done].
    by intros [= <-].
  - destruct (heap tp !! h); [|done]. by intros [= <-].
  - by intros [= <-].
  - unfold Worker_step. destruct (workers_ tp !! i) as [w|]; [|done].
    destruct (Worker_Run_step _ _ _ _) as [[[[w' heap'] q'] ran']| |]; [|done|done].
    intros [= <-]. simpl. by rewrite length_insert.
Qed.

Lemma exec_workers_length (trace : list Action) :
  ∀ tp tp', exec trace tp = Ok tp' → length (workers_ tp') = length (workers_ tp).
Proof.
  induction trace as [|a trace IH]; intros tp tp' He; simpl in He.
  - by injection He as <-.
  - destruct (step a tp) as [tp1| |] eqn:Hs; [|done|done].
    rewrite (IH _ _ He). by eapply step_workers_length.
Qed.

(** Case analysis on the comparisons of [Threadpool::Threadpool]. *)
Ltac size_cases :=
  repeat match goal with
         | H : context [(?a <=? ?b)%Z] |- _ => destruct (Z.leb_spec a b)
         | H : context [(?a <? ?b)%Z] |- _ => destruct (Z.ltb_spec a b)
         | |- context [(?a <=? ?b)%Z] => destruct (Z.leb_spec a b)
         | |- context [(?a <? ?b)%Z] => destruct (Z.ltb_spec a b)
         end.

(** X8. The size of the pool is resolved in this order: a positive
    constructor argument; else a positive value of UV_THREADPOOL_SIZE;
    else the number of CPUs, or 4 when it cannot be read.  The
    constructor aborts exactly when all of these fail to give a positive
    number (which needs a CPU count that is not positive).  The pool it
    makes has that many workers, an empty queue, and keeps its number of
    workers whatever happens later. *)
Theorem Threadpool_size_resolution (threadpool_size : Z)
    (UV_THREADPOOL_SIZE cpu_count : option Z) :
  (∀ tp, Threadpool_Threadpool threadpool_size UV_THREADPOOL_SIZE cpu_count = Ok tp →
     reachable tp
     ∧ (0 < NWorkers tp)%Z ∧ QueueLength tp = 0%Z
     ∧ (0 < threadpool_size → NWorkers tp = threadpool_size)%Z
     ∧ (∀ n, (threadpool_size ≤ 0)%Z → UV_THREADPOOL_SIZE = Some n → (0 < n)%Z →
             NWorkers tp = n)
     ∧ ((threadpool_size ≤ 0)%Z →
        (∀ n, UV_THREADPOOL_SIZE = Some n → (n ≤ 0)%Z) →
        NWorkers tp = GoodThreadpoolSize cpu_count)
     ∧ (∀ trace tp', exec trace tp = Ok tp' → NWorkers tp' = NWorkers tp))
  ∧ (Threadpool_Threadpool threadpool_size UV_THREADPOOL_SIZE cpu_count = Abort ↔
     (threadpool_size ≤ 0)%Z
     ∧ (∀ n, UV_THREADPOOL_SIZE = Some n → (n ≤ 0)%Z)
     ∧ ∃ count, cpu_count = Some count ∧ (count ≤ 0)%Z)
  ∧ Threadpool_Threadpool threadpool_size UV_THREADPOOL_SIZE cpu_count ≠ Wait.
Proof.
  unfold Threadpool_Threadpool, GoodThreadpoolSize.
  split; [|split].
  - intros tp Htp.
    assert (∀ size : Z,
              tp = {| heap := []; Threadpool_queue_ := TaskQueue_new;
                      workers_ := Initialize size; ran := [] |} →
              (0 < size)%Z →
              reachable tp ∧ NWorkers tp = size ∧ QueueLength tp = 0%Z
              ∧ ∀ trace tp', exec trace tp = Ok tp' → NWorkers tp' = NWorkers tp)
      as Hmade.
    { intros size -> Hpos. split; [|split; [|split]].
      - exists (Z.to_nat size), []. split; [lia|reflexivity].
      - unfold NWorkers, Initialize. simpl. rewrite length_replicate. lia.
      - reflexivity.
      - intros trace tp' He. unfold NWorkers.
        by rewrite (exec_workers_length trace _ _ He). }
    destruct UV_THREADPOOL_SIZE as [n|], cpu_count as [count|];
      size_cases; try discriminate; try lia;
      injection Htp as Htp;
      (destruct (Hmade _ (eq_sym Htp)) as (Hreach & HN & Hlen & Hkeep); [lia|]);
      (split; [assumption|]); (split; [lia|]); (split; [assumption|]);
      (split; [intros; lia|]); (split; [intros; simplify_eq; lia|]);
      (split; [|assumption]);
      intros ? Hall; try specialize (Hall _ eq_refl); (lia || done).
  - split.
    + intros Ha.
      destruct UV_THREADPOOL_SIZE as [n|], cpu_count as [count|];
        size_cases; try discriminate; try lia;
        (split; [lia|]); (split; [intros; simplify_eq; lia|]);
        by eexists.
    + intros (Hle & Henv & count & -> & Hc).
      destruct UV_THREADPOOL_SIZE as [n|];
        try specialize (Henv _ eq_refl); size_cases; (lia || done).
  - by destruct (0 <? _)%Z.
Qed.

End Threadpool_size_facts.

(** *** LibuvExecutor: submit, then cancel *)

Section More_LibuvExecutor_facts.
Import threadpool spec.
Variables UV_EINVAL UV_EBUSY : Z.

(** X9. A request submitted to a running pool and cancelled before a
    worker has assigned it never has its work callback run.  The submit
    queues a task for the request and leaves the fresh handle in the
    request's cookie; [uv_executor_cancel] on the request then returns 0
    and leaves the state CANCELLED; and in everything that can happen
    afterwards the task is not run, and its state is CANCELLED or
    COMPLETED. *)
Theorem submit_then_cancel_prevents_the_run (tp : Threadpool) (req : uv_work_t) :
  reachable tp → stopped_ (Threadpool_queue_ tp) = false →
  ∃ tp1 req1 tp2,
    uv_executor_submit req tp = Ok (tp1, req1)
    ∧ work_cb req1 = work_cb req
    ∧ reserved0 req1 = Some {| LibuvTaskData_state_ := length (heap tp) |}
    ∧ queue_ (Threadpool_queue_ tp1)
      = queue_ (Threadpool_queue_ tp)
        ++ [{| Run_ := work_cb req; task_state_ := Some (length (heap tp)) |}]
    ∧ uv_executor_cancel UV_EINVAL UV_EBUSY (Some req1) (heap tp1)
      = Some (heap tp2, 0%Z)
    ∧ step (CallCancel (length (heap tp))) tp1 = Ok tp2
    ∧ heap tp2 !! length (heap tp) = Some {| state_ := CANCELLED |}
    ∧ ∀ trace tp3, exec trace tp2 = Ok tp3 →
        Forall (λ t, task_state_ t ≠ Some (length (heap tp))) (ran tp3)
        ∧ (heap tp3 !! length (heap tp) = Some {| state_ := CANCELLED |}
           ∨ heap tp3 !! length (heap tp) = Some {| state_ := COMPLETED |}).
Proof.
  intros Hr Hstop.
  pose proof (Post_accepted (Task_new (work_cb req)) tp Hstop) as HP.
  assert (step (CallPost (Task_new (work_cb req))) tp
          = Ok {| heap := heap tp ++ [{| state_ := QUEUED |}];
                  Threadpool_queue_ :=
                    {| queue_ := queue_ (Threadpool_queue_ tp)
                                 ++ [SetTaskState (length (heap tp))
                                       (Task_new (work_cb req))];
                       outstanding_tasks_ :=
                         outstanding_tasks_ (Threadpool_queue_ tp) + 1;
                       stopped_ := false;
                       task_available_ :=
                         task_available_ (Threadpool_queue_ tp) ++ [Signal];
                       tasks_drained_ := tasks_drained_ (Threadpool_queue_ tp) |};
                  workers_ := workers_ tp; ran := ran tp |}) as Hstep.
  { cbn [step]. by rewrite HP. }
  pose proof (reachable_step _ _ _ Hr Hstep) as Hr1.
  set (task := SetTaskState (length (heap tp)) (Task_new (work_cb req))) in *.
  set (tp1 := {| heap := heap tp ++ [{| state_ := QUEUED |}] |}) in *.
  destruct (cancel_waiting_task tp1 task (length (heap tp))
              (reachable_Inv _ Hr1) (reachable_run_once _ Hr1) eq_refl)
    as (ts & Hh & HC & Hnever).
  { left. subst tp1. cbn [Threadpool_queue_ queue_]. apply elem_of_app. right.
    by apply list_elem_of_singleton. }
  assert (step (CallCancel (length (heap tp))) tp1
          = Ok {| heap := <[length (heap tp) := {| state_ := CANCELLED |}]> (heap tp1);
                  Threadpool_queue_ := Threadpool_queue_ tp1;
                  workers_ := workers_ tp1; ran := ran tp1 |}) as Hcancel.
  { cbn [step]. by rewrite Hh, HC. }
  eexists tp1, _, _. split.
  { unfold uv_executor_submit. rewrite HP. reflexivity. }
  split; [reflexivity|]. split; [reflexivity|]. split; [reflexivity|].
  split; [|split; [exact Hcancel|split]].
  - unfold uv_executor_cancel, LibuvExecutor_Cancel. cbn [reserved0 LibuvTaskData_state_].
    rewrite Hh. cbn [mbind option_bind]. by rewrite HC.
  - cbn [heap]. apply list_lookup_insert_eq. by eapply lookup_lt_Some.
  - intros trace tp3 He.
    destruct (Hnever trace tp3) as (Hran & _ & Hst).
    { cbn [exec]. by rewrite Hcancel. }
    split; [by apply names_0_Forall|exact Hst].
Qed.

End More_LibuvExecutor_facts.

(** *** LibuvExecutor: a request that is not cancelled *)

Section Submitted_request_facts.
Import threadpool spec.

(** X10. A request submitted to a running pool and not cancelled has its
    work callback run, once.  After [uv_executor_submit] there is a run
    of worker steps that drains the pool; in the state reached the task
    of the request (its [Run()] is the request's work callback) is among
    the tasks run, no task was run twice, and its state is COMPLETED. *)
Theorem submitted_request_is_run_once (tp : Threadpool) (req : uv_work_t) :
  reachable tp → stopped_ (Threadpool_queue_ tp) = false →
  ∃ tp1 req1 trace tp2,
    uv_executor_submit req tp = Ok (tp1, req1)
    ∧ worker_steps trace ∧ exec trace tp1 = Ok tp2
    ∧ BlockingDrain (Threadpool_queue_ tp2) = Ok tt
    ∧ {| Run_ := work_cb req; task_state_ := Some (length (heap tp)) |} ∈ ran tp2
    ∧ NoDup (ran tp2)
    ∧ reserved0 req1 = Some {| LibuvTaskData_state_ := length (heap tp) |}
    ∧ heap tp2 !! length (heap tp) = Some {| state_ := COMPLETED |}.
Proof.
  intros Hr Hstop.
  pose proof (Post_accepted (Task_new (work_cb req)) tp Hstop) as HP.
  unfold uv_executor_submit. rewrite HP.
  match type of HP with
  | _ = Ok (?t, _) => set (tp1 := t) in *
  end.
  assert (step (CallPost (Task_new (work_cb req))) tp = Ok tp1) as Hs.
  { cbn [step]. by rewrite HP. }
  pose proof (reachable_step _ _ _ Hr Hs) as Hr1.
  pose proof (reachable_Inv tp1 Hr1) as HI1.
  destruct (drain_reachable (drain_cost tp1) tp1 HI1) as (trace & tp2 & Hw & He & Hd);
    [lia|].
  destruct (drain_cost_0 tp2 Hd) as [Hq2 Hidle].
  pose proof (exec_Inv_Ok trace tp1 tp2 HI1 He) as HI2.
  destruct (drained_task_completed tp1 tp2 trace
              (SetTaskState (length (heap tp)) (Task_new (work_cb req)))
              HI1 He Hq2 Hidle) as (h & Ht & Hdone & Hran).
  { subst tp1. cbn [Threadpool_queue_ queue_].
    apply elem_of_app. right. by apply list_elem_of_singleton. }
  simpl in Ht. injection Ht as <-.
  assert (reachable tp2) as Hr2.
  { destruct Hr1 as (n & trace1 & Hn & He1). exists n, (trace1 ++ trace).
    split; [done|]. by rewrite (exec_app _ _ _ _ He1). }
  eexists tp1, _, trace, tp2. split; [reflexivity|]. split; [done|]. split; [done|].
  split; [|split; [|split; [|split; [reflexivity|done]]]].
  - unfold BlockingDrain. rewrite bool_decide_true; [done|].
    rewrite (inv_outstanding _ HI2), Hq2. simpl. by rewrite (sum_idle busy).
  - apply Hran; [|by apply worker_steps_not_cancel].
    subst tp1. cbn [heap]. by apply list_lookup_middle.
  - pose proof (reachable_run_once tp2 Hr2) as HU.
    apply NoDup_alt. intros i j t Hi Hj.
    pose proof (inv_ran _ HI2) as Hall. rewrite Forall_lookup in Hall.
    destruct (task_in_handle _ _ _ (Hall i t Hi)) as [h Ht].
    eapply (names_le_1_inj (ran tp2)); [|exact Hi|exact Hj|exact Ht|exact Ht].
    intros h0. specialize (HU h0). lia.
Qed.

End Submitted_request_facts.

(** *** TaskQueue<T> *)

Section TaskQueue_facts.
Import platform platform_spec.
Context {T : Type}.

Lemma Push_each_view (xs : list T) :
  ∀ q : TaskQueue T,
    task_queue_ (Push_each xs q) = task_queue_ q ++ xs
    ∧ outstanding_tasks_ (Push_each xs q)
      = (outstanding_tasks_ q + Z.of_nat (length xs))%Z
    ∧ stopped_ (Push_each xs q) = stopped_ q.
Proof.
  induction xs as [|x xs IH]; intros q; simpl.
  - rewrite app_nil_r. split; [done|]. split; [lia|done].
  - destruct (IH (Push x q)) as (Hq & Ho & Hs). unfold Push_each in *.
    rewrite Hq, Ho, Hs. simpl. rewrite <- app_assoc. split; [done|].
    split; [lia|done].
Qed.

Lemma Pop_view (q : TaskQueue T) :
  (Pop q).1 = head (task_queue_ q)
  ∧ task_queue_ (Pop q).2 = tail (task_queue_ q)
  ∧ outstanding_tasks_ (Pop q).2 = outstanding_tasks_ q
  ∧ stopped_ (Pop q).2 = stopped_ q.
Proof. unfold Pop. destruct (task_queue_ q) eqn:Hq; simpl; by rewrite ?Hq. Qed.

Lemma Pop_each_S (n : nat) (q : TaskQueue T) :
  Pop_each (S n) q
  = ((Pop q).1 :: (Pop_each n (Pop q).2).1, (Pop_each n (Pop q).2).2).
Proof.
  cbn [Pop_each]. destruct (Pop q) as [x q1]. simpl.
  by destruct (Pop_each n q1).
Qed.

Lemma Pop_each_view (n : nat) :
  ∀ q : TaskQueue T,
    (Pop_each n q).1
    = map Some (take n (task_queue_ q))
      ++ replicate (n - length (task_queue_ q)) None
    ∧ task_queue_ (Pop_each n q).2 = drop n (task_queue_ q)
    ∧ outstanding_tasks_ (Pop_each n q).2 = outstanding_tasks_ q
    ∧ stopped_ (Pop_each n q).2 = stopped_ q.
Proof.
  induction n as [|n IH]; intros q; [done|].
  rewrite Pop_each_S. cbn [fst snd].
  destruct (IH (Pop q).2) as (H1 & H2 & H3 & H4).
  destruct (Pop_view q) as (P1 & P2 & P3 & P4).
  rewrite H1, H2, H3, H4, P1, P2, P3, P4.
  destruct (task_queue_ q) as [|x rest]; simpl.
  - rewrite take_nil, drop_nil. simpl. by replace (n - 0) with n by lia.
  - done.
Qed.

(** X11. [TaskQueue<T>] is first in, first out: after any pushes, the
    pops return the elements in the order in which they were pushed, and
    then null; [PopAll] returns them all in that order and leaves the
    queue empty.  The pops do not touch [outstanding_tasks_], which
    counts the pushes.  Once the queue is stopped, [BlockingPop] returns
    null whatever is still queued. *)
Theorem TaskQueue_first_in_first_out (q : TaskQueue T) (xs : list T) (n : nat) :
  task_queue_ (Push_each xs q) = task_queue_ q ++ xs
  ∧ outstanding_tasks_ (Push_each xs q)
    = (outstanding_tasks_ q + Z.of_nat (length xs))%Z
  ∧ (Pop_each n (Push_each xs q)).1
    = map Some (take n (task_queue_ q ++ xs))
      ++ replicate (n - length (task_queue_ q ++ xs)) None
  ∧ task_queue_ (Pop_each n (Push_each xs q)).2 = drop n (task_queue_ q ++ xs)
  ∧ outstanding_tasks_ (Pop_each n (Push_each xs q)).2
    = outstanding_tasks_ (Push_each xs q)
  ∧ (PopAll (Push_each xs q)).1 = task_queue_ q ++ xs
  ∧ task_queue_ (PopAll (Push_each xs q)).2 = []
  ∧ outstanding_tasks_ (PopAll (Push_each xs q)).2
    = outstanding_tasks_ (Push_each xs q)
  ∧ BlockingPop (Stop (Push_each xs q)) = Ok (None, Stop (Push_each xs q)).
Proof.
  destruct (Push_each_view xs q) as (Hq & Ho & Hs).
  destruct (Pop_each_view n (Push_each xs q)) as (H1 & H2 & H3 & H4).
  rewrite Hq in H1, H2.
  split; [done|]. split; [done|]. split; [done|]. split; [done|].
  split; [done|]. split; [done|]. split; [done|]. split; [done|].
  unfold BlockingPop. simpl. by rewrite andb_false_r.
Qed.

End TaskQueue_facts.

(** *** The delayed task scheduler *)

Section Scheduler_facts.
Import platform platform_spec.

Lemma FlushTasks_loop_app (c1 c2 : list SchedulerTask) :
  ∀ s, FlushTasks_loop (c1 ++ c2) s = FlushTasks_loop c2 (FlushTasks_loop c1 s).
Proof. induction c1 as [|c c1 IH]; intros s; [done|]. simpl. apply IH. Qed.

Lemma FlushTasks_loop_queue (commands : list SchedulerTask) :
  ∀ s, task_queue_ (tasks_ (FlushTasks_loop commands s))
       = drop (length commands) (task_queue_ (tasks_ s))
       ∧ scheduler_wakeups (FlushTasks_loop commands s) = scheduler_wakeups s.
Proof.
  induction commands as [|c commands IH]; intros s; [done|].
  cbn [FlushTasks_loop length].
  match goal with
  | |- context [FlushTasks_loop commands ?s2] => destruct (IH s2) as [Hq Hw]
  end.
  rewrite Hq, Hw. destruct c; simpl; rewrite Pop_rest, drop_drop; done.
Qed.

Lemma FlushTasks_loop_schedules (commands : list SchedulerTask) :
  ∀ s, Forall schedules commands →
    timers_ (FlushTasks_loop commands s) = timers_ s ++ concat (map armed commands)
    ∧ scheduler_closed (FlushTasks_loop commands s) = scheduler_closed s.
Proof.
  induction commands as [|c commands IH]; intros s Hall.
  - simpl. by rewrite app_nil_r.
  - apply Forall_cons in Hall as [(task & delay & ->) Hall].
    cbn [FlushTasks_loop].
    match goal with
    | |- context [FlushTasks_loop commands ?s2] => destruct (IH s2 Hall) as [Ht Hc]
    end.
    rewrite Ht, Hc. simpl. by rewrite <- app_assoc.
Qed.

(** X12. [DelayedTaskScheduler::FlushTasks] handles the queued commands
    in order and leaves the command queue empty.  While no [StopTask] is
    among them, each command starts one timer, in order, with the
    timeout computed from its delay.  A [StopTask] drops every timer
    started before it and closes the wakeup handle; only timers of
    commands queued behind the last [StopTask] are left. *)
Theorem FlushTasks_handles_commands_in_order (s : DelayedTaskScheduler) :
  task_queue_ (tasks_ (FlushTasks s)) = []
  ∧ scheduler_wakeups (FlushTasks s) = scheduler_wakeups s
  ∧ (Forall schedules (task_queue_ (tasks_ s)) →
     timers_ (FlushTasks s)
     = timers_ s ++ concat (map armed (task_queue_ (tasks_ s)))
     ∧ scheduler_closed (FlushTasks s) = scheduler_closed s)
  ∧ (∀ before behind,
       task_queue_ (tasks_ s) = before ++ StopTask :: behind →
       Forall schedules behind →
       timers_ (FlushTasks s) = concat (map armed behind)
       ∧ scheduler_closed (FlushTasks s) = true).
Proof.
  unfold FlushTasks.
  destruct (FlushTasks_loop_queue (task_queue_ (tasks_ s)) s) as [Hq Hw].
  split; [by rewrite Hq, drop_all|]. split; [done|]. split.
  - apply FlushTasks_loop_schedules.
  - intros before behind Hcmds Hall. rewrite Hcmds.
    rewrite FlushTasks_loop_app. cbn [FlushTasks_loop].
    match goal with
    | |- context [FlushTasks_loop behind ?s2] =>
        destruct (FlushTasks_loop_schedules behind s2 Hall) as [Ht Hc]
    end.
    by rewrite Ht, Hc.
Qed.

End Scheduler_facts.

(** *** Delayed worker tasks *)

Section Worker_runner_facts.
Import platform platform_spec.

(** X13. A delayed worker task reaches the pool when its timer fires,
    and not before.  With no command pending, [PostDelayedTask] followed
    by the scheduler's [FlushTasks] starts one timer with the timeout
    computed from the delay and leaves the pool untouched.  When the
    timer fires, [RunTask] erases it and posts the task: a running pool
    queues it behind the tasks already there, a stopped pool drops it
    without notice.  If [Shutdown] comes before the flush, the flush
    leaves no timer and none can fire. *)
Theorem delayed_worker_task_reaches_the_pool (w : WorkerThreadsTaskRunner)
    (task : Task) (delay_in_seconds : spec_float) :
  task_queue_ (tasks_ (delayed_task_scheduler_ w)) = [] →
  (∃ w3,
     timers_ (delayed_task_scheduler_
                (WorkerThreadsTaskRunner_FlushTasks
                   (WorkerThreadsTaskRunner_PostDelayedTask task delay_in_seconds w)))
     = timers_ (delayed_task_scheduler_ w)
       ++ [({| timer_timeout := delay_millis delay_in_seconds; timer_repeat := 0 |},
            task)]
     ∧ tp_ (WorkerThreadsTaskRunner_FlushTasks
              (WorkerThreadsTaskRunner_PostDelayedTask task delay_in_seconds w))
       = tp_ w
     ∧ WorkerThreadsTaskRunner_RunTask (length (timers_ (delayed_task_scheduler_ w)))
         (WorkerThreadsTaskRunner_FlushTasks
            (WorkerThreadsTaskRunner_PostDelayedTask task delay_in_seconds w))
       = Ok w3
     ∧ timers_ (delayed_task_scheduler_ w3) = timers_ (delayed_task_scheduler_ w)
     ∧ (threadpool.stopped_ (threadpool.Threadpool_queue_ (tp_ w)) = false →
        threadpool.queue_ (threadpool.Threadpool_queue_ (tp_ w3))
        = threadpool.queue_ (threadpool.Threadpool_queue_ (tp_ w))
          ++ [{| threadpool.Run_ := Task_id task;
                 threadpool.task_state_ := Some (length (threadpool.heap (tp_ w))) |}]
        ∧ threadpool.heap (tp_ w3) !! length (threadpool.heap (tp_ w))
          = Some {| threadpool.state_ := threadpool.QUEUED |})
     ∧ (threadpool.stopped_ (threadpool.Threadpool_queue_ (tp_ w)) = true →
        threadpool.Threadpool_queue_ (tp_ w3) = threadpool.Threadpool_queue_ (tp_ w)
        ∧ threadpool.workers_ (tp_ w3) = threadpool.workers_ (tp_ w)
        ∧ threadpool.ran (tp_ w3) = threadpool.ran (tp_ w)))
  ∧ timers_ (delayed_task_scheduler_
               (WorkerThreadsTaskRunner_FlushTasks
                  (WorkerThreadsTaskRunner_Shutdown
                     (WorkerThreadsTaskRunner_PostDelayedTask task delay_in_seconds w))))
    = []
  ∧ ∀ i, WorkerThreadsTaskRunner_RunTask i
           (WorkerThreadsTaskRunner_FlushTasks
              (WorkerThreadsTaskRunner_Shutdown
                 (WorkerThreadsTaskRunner_PostDelayedTask task delay_in_seconds w)))
         = Wait.
Proof.
  intros Hq. destruct w as [tp s]. cbn [delayed_task_scheduler_ tp_] in *.
  unfold WorkerThreadsTaskRunner_FlushTasks, WorkerThreadsTaskRunner_PostDelayedTask,
    WorkerThreadsTaskRunner_Shutdown, WorkerThreadsTaskRunner_RunTask.
  cbn [delayed_task_scheduler_ tp_].
  assert (timers_ (FlushTasks (DelayedTaskScheduler_PostDelayedTask task
                                 delay_in_seconds s))
          = timers_ s
            ++ [({| timer_timeout := delay_millis delay_in_seconds;
                    timer_repeat := 0 |}, task)]) as Ht.
  { unfold FlushTasks, DelayedTaskScheduler_PostDelayedTask. simpl.
    rewrite Hq. reflexivity. }
  assert (timers_ (FlushTasks (DelayedTaskScheduler_Stop
                                 (DelayedTaskScheduler_PostDelayedTask task
                                    delay_in_seconds s))) = []) as Ht0.
  { unfold FlushTasks, DelayedTaskScheduler_Stop, DelayedTaskScheduler_PostDelayedTask.
    simpl. rewrite Hq. reflexivity. }
  split; [|split; [exact Ht0|]].
  - unfold RunTask, TakeTimerTask. rewrite Ht.
    rewrite list_lookup_middle by done. cbn [mbind option_bind].
    rewrite delete_middle, app_nil_r.
    destruct (threadpool.stopped_ (threadpool.Threadpool_queue_ tp)) eqn:Hstop.
    + rewrite Post_stopped by done. eexists. split; [reflexivity|].
      split; [reflexivity|]. split; [reflexivity|]. split; [reflexivity|].
      split; [done|]. intros _. done.
    + rewrite Post_accepted by done. eexists. split; [reflexivity|].
      split; [reflexivity|]. split; [reflexivity|]. split; [reflexivity|].
      split; [|done]. intros _. split; [reflexivity|].
      cbn [threadpool.heap]. by apply list_lookup_middle.
  - intros i. unfold RunTask, TakeTimerTask. rewrite Ht0. by rewrite lookup_nil.
Qed.

End Worker_runner_facts.

(** *** Worker tasks *)

Section Worker_task_facts.
Import platform platform_spec spec.

(** X14. A task posted through [WorkerThreadsTaskRunner::PostTask] to a
    running pool is queued as a [V8Task] behind the tasks already there,
    and the workers run it: there is a run of worker steps after which
    it ran, is COMPLETED and the pool is drained.  The runner's own
    [BlockingDrain] does not wait for it: it returns while the pool's
    [BlockingDrain] would still wait. *)
Theorem worker_task_is_run_by_the_pool (w : WorkerThreadsTaskRunner) (task : Task) :
  reachable (tp_ w) →
  threadpool.stopped_ (threadpool.Threadpool_queue_ (tp_ w)) = false →
  ∃ w1,
    WorkerThreadsTaskRunner_PostTask task w = Ok w1
    ∧ delayed_task_scheduler_ w1 = delayed_task_scheduler_ w
    ∧ WorkerThreadsTaskRunner_NumberOfWorkerThreads w1
      = WorkerThreadsTaskRunner_NumberOfWorkerThreads w
    ∧ threadpool.queue_ (threadpool.Threadpool_queue_ (tp_ w1))
      = threadpool.queue_ (threadpool.Threadpool_queue_ (tp_ w))
        ++ [{| threadpool.Run_ := Task_id task;
               threadpool.task_state_ := Some (length (threadpool.heap (tp_ w))) |}]
    ∧ threadpool.BlockingDrain
        (threadpool.Threadpool_queue_ (tp_ (WorkerThreadsTaskRunner_BlockingDrain w1)))
      = Wait
    ∧ ∃ trace tp',
        worker_steps trace ∧ threadpool.exec trace (tp_ w1) = Ok tp'
        ∧ {| threadpool.Run_ := Task_id task;
             threadpool.task_state_ := Some (length (threadpool.heap (tp_ w))) |}
          ∈ threadpool.ran tp'
        ∧ threadpool.heap tp' !! length (threadpool.heap (tp_ w))
          = Some {| threadpool.state_ := threadpool.COMPLETED |}
        ∧ threadpool.BlockingDrain (threadpool.Threadpool_queue_ tp') = Ok tt.
Proof.
  intros Hr Hstop. destruct w as [tp s]. cbn [tp_ delayed_task_scheduler_] in *.
  pose proof (reachable_Inv tp Hr) as HI.
  pose proof (Post_accepted (V8Task task) tp Hstop) as HP.
  unfold WorkerThreadsTaskRunner_PostTask. cbn [tp_ delayed_task_scheduler_].
  rewrite HP. eexists. split; [reflexivity|].
  cbn [tp_ delayed_task_scheduler_ WorkerThreadsTaskRunner_BlockingDrain
       WorkerThreadsTaskRunner_NumberOfWorkerThreads].
  match goal with
  | |- context [threadpool.exec _ ?t] => set (tp1 := t)
  end.
  assert (threadpool.step (threadpool.CallPost (V8Task task)) tp = Ok tp1) as Hs.
  { cbn [threadpool.step]. by rewrite HP. }
  pose proof (reachable_Inv tp1 (reachable_step _ _ _ Hr Hs)) as HI1.
  split; [reflexivity|]. split; [reflexivity|]. split; [reflexivity|].
  split.
  { unfold threadpool.BlockingDrain. rewrite bool_decide_false; [done|].
    pose proof (inv_outstanding _ HI1) as Ho. rewrite Ho.
    subst tp1. cbn [threadpool.Threadpool_queue_ threadpool.queue_].
    rewrite length_app. simpl. lia. }
  destruct (drain_reachable (drain_cost tp1) tp1 HI1) as (trace & tp' & Hw & He & Hd);
    [lia|].
  destruct (drain_cost_0 tp' Hd) as [Hq' Hidle].
  pose proof (exec_Inv_Ok trace tp1 tp' HI1 He) as HI'.
  destruct (drained_task_completed tp1 tp' trace
              (threadpool.SetTaskState (length (threadpool.heap tp)) (V8Task task))
              HI1 He Hq' Hidle) as (h & Ht & Hdone & Hran).
  { subst tp1. cbn [threadpool.Threadpool_queue_ threadpool.queue_].
    apply elem_of_app. right. by apply list_elem_of_singleton. }
  simpl in Ht. injection Ht as <-.
  exists trace, tp'. split; [done|]. split; [done|]. split; [|split; [done|]].
  - apply Hran; [|by apply worker_steps_not_cancel].
    subst tp1. cbn [threadpool.heap]. by apply list_lookup_middle.
  - unfold threadpool.BlockingDrain. rewrite bool_decide_true; [done|].
    rewrite (inv_outstanding _ HI'), Hq'. simpl. by rewrite (sum_idle busy).
Qed.

End Worker_task_facts.

(** *** Timers of delayed foreground tasks *)

Section Timer_facts.
Import platform platform_spec.

Lemma PostDelayedTask_view (t : Task) (delay : spec_float) (r : PerIsolatePlatformData) :
  flush_tasks_ r = true →
  ∃ r', PostDelayedTask t delay r = Some r'
    ∧ runner_view r'
      = (ref_count_ r, loop_ r, true,
         task_queue_ (foreground_tasks_ r),
         task_queue_ (foreground_delayed_tasks_ r)
         ++ [{| task := t; timeout := delay; timer := None |}],
         scheduled_delayed_tasks_ r, executed r).
Proof.
  intros Hlive. unfold PostDelayedTask. rewrite Hlive. eexists. split; [done|].
  reflexivity.
Qed.

Lemma RunForegroundTask_timer_view (i : nat) (x : DelayedTask)
    (r : PerIsolatePlatformData) :
  flush_tasks_ r = true → scheduled_delayed_tasks_ r !! i = Some x →
  ∃ r', RunForegroundTask_timer Registered i r = Ok r'
    ∧ runner_view r'
      = (ref_count_ r, loop_ r, true,
         task_queue_ (foreground_tasks_ r) ++ Task_posts (task x),
         task_queue_ (foreground_delayed_tasks_ r)
         ++ map delayed_post (Task_delayed_posts (task x)),
         delete i (scheduled_delayed_tasks_ r), executed r ++ [Task_id (task x)]).
Proof.
  intros Hlive Hi. unfold RunForegroundTask_timer. rewrite Hi.
  destruct (RunForegroundTask_view (task x) r Hlive) as (r1 & -> & Hv).
  cbn [mbind Result_bind]. unfold runner_view in Hv.
  injection Hv as Href Hloop Hflush Hfq Hdq Hsched Hex.
  unfold DeleteFromScheduledTasks. rewrite Hsched.
  rewrite decide_True by (by eapply lookup_lt_Some).
  eexists. split; [reflexivity|]. unfold runner_view. simpl.
  by rewrite Href, Hloop, Hflush, Hfq, Hdq, Hex.
Qed.

(** A task that has run, wherever it was, has done what it does where
    the isolate is registered. *)
Lemma RunForegroundTask_Ok (c : Situation) (t : Task) (d d' : PerIsolatePlatformData) :
  RunForegroundTask c t d = Ok d' → RunForegroundTask Registered t d = Ok d'.
Proof.
  rewrite RunForegroundTask_anywhere.
  destruct (posts_through_platform t); [|done]. by destruct c.
Qed.

Lemma RunForegroundTask_timer_Ok (c : Situation) (i : nat)
    (d d' : PerIsolatePlatformData) :
  RunForegroundTask_timer c i d = Ok d' →
  ∃ x, scheduled_delayed_tasks_ d !! i = Some x
       ∧ RunForegroundTask_timer Registered i d = Ok d'.
Proof.
  unfold RunForegroundTask_timer.
  destruct (scheduled_delayed_tasks_ d !! i) as [x|]; [|done].
  intros H. exists x. split; [done|].
  destruct (RunForegroundTask c (task x) d) as [d1| |] eqn:HR; [|done|done].
  by rewrite (RunForegroundTask_Ok c _ d d1 HR).
Qed.

(** X15. A delayed foreground task runs when its timer fires, once.
    On a runner that is not shut down, whose isolate is registered,
    [PostDelayedTask] followed by a flush starts the task's timer with
    the timeout computed from the delay, behind the timers started
    before, and does not run the task.  When the timer fires the task is
    run, what it posts is queued, and its entry is erased from
    [scheduled_delayed_tasks_], the other entries staying in order; the
    timer cannot fire a second time.  After [CancelPendingDelayedTasks]
    it cannot fire at all. *)
Theorem delayed_foreground_task_runs_when_its_timer_fires
    (r : PerIsolatePlatformData) (t : Task) (delay_in_seconds : spec_float) :
  flush_tasks_ r = true →
  ∃ r1 r2 r3,
    PostDelayedTask t delay_in_seconds r = Some r1
    ∧ FlushForegroundTasksInternal Registered r1 = Ok (true, r2)
    ∧ scheduled_delayed_tasks_ r2
      = scheduled_delayed_tasks_ r
        ++ map started (task_queue_ (foreground_delayed_tasks_ r))
        ++ [{| task := t; timeout := delay_in_seconds;
               timer := Some {| timer_timeout := delay_millis delay_in_seconds;
                                timer_repeat := 0 |} |}]
    ∧ executed r2 = executed r ++ map Task_id (task_queue_ (foreground_tasks_ r))
    ∧ RunForegroundTask_timer Registered
        (length (scheduled_delayed_tasks_ r)
         + length (task_queue_ (foreground_delayed_tasks_ r))) r2 = Ok r3
    ∧ executed r3 = executed r2 ++ [Task_id t]
    ∧ scheduled_delayed_tasks_ r3
      = scheduled_delayed_tasks_ r
        ++ map started (task_queue_ (foreground_delayed_tasks_ r))
    ∧ task_queue_ (foreground_tasks_ r3)
      = task_queue_ (foreground_tasks_ r2) ++ Task_posts t
    ∧ (∀ c, RunForegroundTask_timer c
              (length (scheduled_delayed_tasks_ r)
               + length (task_queue_ (foreground_delayed_tasks_ r))) r3 = Wait)
    ∧ (∀ c, RunForegroundTask_timer c
              (length (scheduled_delayed_tasks_ r)
               + length (task_queue_ (foreground_delayed_tasks_ r)))
              (CancelPendingDelayedTasks r2) = Wait).
Proof.
  intros Hlive.
  destruct (PostDelayedTask_view t delay_in_seconds r Hlive) as (r1 & HP & Hv1).
  unfold runner_view in Hv1. injection Hv1 as Href1 Hloop1 Hflush1 Hfq1 Hdq1 Hsched1 Hex1.
  destruct (FlushForegroundTasksInternal_view r1 (or_introl Hflush1)) as (r2 & HF & Hv2).
  unfold runner_view in Hv2. injection Hv2 as Href2 Hloop2 Hflush2 Hfq2 Hdq2 Hsched2 Hex2.
  rewrite Hdq1 in HF, Hsched2. rewrite Hsched1 in Hsched2.
  rewrite map_app in Hsched2. cbn [map started task timeout] in Hsched2.
  assert (nonempty (task_queue_ (foreground_delayed_tasks_ r)
                    ++ [{| task := t; timeout := delay_in_seconds; timer := None |}])
          = true) as Hne.
  { by destruct (task_queue_ (foreground_delayed_tasks_ r)). }
  rewrite Hne in HF. cbn [orb] in HF.
  set (i := length (scheduled_delayed_tasks_ r)
            + length (task_queue_ (foreground_delayed_tasks_ r))).
  assert (scheduled_delayed_tasks_ r2 !! i
          = Some {| task := t; timeout := delay_in_seconds;
                    timer := Some {| timer_timeout := delay_millis delay_in_seconds;
                                     timer_repeat := 0 |} |}) as Hi.
  { rewrite Hsched2, app_assoc. apply list_lookup_middle.
    subst i. by rewrite length_app, length_map. }
  assert (flush_tasks_ r2 = true) as Hlive2 by congruence.
  destruct (RunForegroundTask_timer_view i _ r2 Hlive2 Hi) as (r3 & HR & Hv3).
  unfold runner_view in Hv3. injection Hv3 as Href3 Hloop3 Hflush3 Hfq3 Hdq3 Hsched3 Hex3.
  exists r1, r2, r3. split; [exact HP|]. split; [exact HF|].
  split; [exact Hsched2|]. split; [by rewrite Hex2, Hex1, Hfq1|].
  assert (scheduled_delayed_tasks_ r3
          = scheduled_delayed_tasks_ r
            ++ map started (task_queue_ (foreground_delayed_tasks_ r))) as Hleft.
  { rewrite Hsched3, Hsched2, app_assoc.
    replace i with (length (scheduled_delayed_tasks_ r
                            ++ map started (task_queue_ (foreground_delayed_tasks_ r))))
      by (subst i; by rewrite length_app, length_map).
    by rewrite delete_middle, app_nil_r. }
  split; [exact HR|]. split; [exact Hex3|]. split; [exact Hleft|].
  split; [exact Hfq3|]. split.
  - intros c. unfold RunForegroundTask_timer. rewrite Hleft.
    rewrite lookup_ge_None_2; [done|].
    subst i. by rewrite length_app, length_map.
  - intros c. unfold RunForegroundTask_timer, CancelPendingDelayedTasks.
    cbn [scheduled_delayed_tasks_]. by rewrite lookup_nil.
Qed.

End Timer_facts.

(** *** What Shutdown runs *)

Section Shutdown_facts.
Import platform platform_spec.

(** [while (FlushForegroundTasksInternal()) {}]: what it leaves. *)
Lemma Flush_until_idle_view (fuel : nat) :
  ∀ r, flush_tasks_ r = true → pending_weight r < fuel →
    ∃ r', Flush_until_idle Registered fuel r = Ok r'
      ∧ runner_view r'
        = (ref_count_ r, loop_ r, true, [], [],
           scheduled_delayed_tasks_ r
           ++ map started (task_queue_ (foreground_delayed_tasks_ r)
                           ++ delayed_generations fuel
                                (task_queue_ (foreground_tasks_ r))),
           executed r
           ++ map Task_id (generations fuel (task_queue_ (foreground_tasks_ r)))).
Proof.
  induction fuel as [|fuel IH]; intros r Hf Hfuel; [lia|]. cbn [Flush_until_idle].
  destruct (FlushForegroundTasksInternal_view r (or_introl Hf)) as (r1 & -> & Hv).
  injection Hv as Hrc Hl Hf1 Hq Hd Hs He.
  destruct (nonempty (task_queue_ (foreground_delayed_tasks_ r))
            || nonempty (task_queue_ (foreground_tasks_ r))) eqn:Hb.
  - destruct (IH r1) as (r' & -> & Hv'); [congruence| |].
    + unfold pending_weight in *. rewrite Hq, Hd.
      pose proof (weight_of_tasks (task_queue_ (foreground_tasks_ r))) as Hw.
      pose proof (weight_of_delayed (task_queue_ (foreground_delayed_tasks_ r))) as Hwd.
      apply orb_true_iff in Hb as [Hb | Hb]; apply nonempty_length in Hb; lia.
    + exists r'. split; [done|]. rewrite Hv', Hrc, Hl, Hq, Hd, Hs, He.
      cbn [generations delayed_generations].
      by rewrite !map_app, <- !app_assoc.
  - apply orb_false_iff in Hb as [Hb1 Hb2].
    exists r1. split; [done|].
    destruct (task_queue_ (foreground_tasks_ r)) eqn:Eq; [|discriminate].
    destruct (task_queue_ (foreground_delayed_tasks_ r)) eqn:Ed; [|discriminate].
    unfold runner_view. rewrite Hrc, Hl, Hf1, Hf, Hq, Hd, Hs, He.
    by rewrite generations_nil, delayed_generations_nil.
Qed.

(** [Shutdown] of a runner that has its handle: what it leaves. *)
Lemma Shutdown_view (r : PerIsolatePlatformData) :
  flush_tasks_ r = true →
  ∃ r', Shutdown Registered r = Ok r'
    ∧ runner_view r'
      = (ref_count_ r, loop_ r, false, [], [], [],
         executed r
         ++ map Task_id (generations (S (pending_weight r))
                           (task_queue_ (foreground_tasks_ r)))).
Proof.
  intros Hf. unfold Shutdown. rewrite Hf.
  destruct (Flush_until_idle_view (S (pending_weight r)) r Hf) as (r1 & -> & Hv);
    [lia|].
  unfold runner_view in Hv. injection Hv as Hrc Hl Hf1 Hq Hd Hs He.
  eexists. split; [reflexivity|]. unfold runner_view. cbn.
  by rewrite Hrc, Hl, Hq, Hd, He.
Qed.

Lemma generations_enough (r : PerIsolatePlatformData) (fuel : nat) :
  list_sum (map Task_weight (task_queue_ (foreground_tasks_ r))) ≤ fuel →
  generations (S (pending_weight r)) (task_queue_ (foreground_tasks_ r))
  = generations fuel (task_queue_ (foreground_tasks_ r))
  ∧ delayed_generations (S (pending_weight r)) (task_queue_ (foreground_tasks_ r))
    = delayed_generations fuel (task_queue_ (foreground_tasks_ r)).
Proof.
  intros Hfuel. apply generations_stable; [|done]. unfold pending_weight. lia.
Qed.

(** X16. [Shutdown] of a runner that has its handle returns, where the
    isolate is registered and the mutex of the platform free, and
    anywhere if none of the tasks it runs posts through the platform.
    It runs the queued tasks, then what these posted, and so on until
    nothing is queued, each task once and in the order of posting;
    delayed tasks, queued or already scheduled, are dropped without
    being run.  The runner is left with empty queues, no scheduled task
    and no handle: a second [Shutdown] does nothing, and a later
    [PostTask] or [PostDelayedTask] fails its [CHECK].  If one of the
    tasks posts through the platform, [Shutdown] never returns where
    the mutex is held, and fails a [CHECK] where the isolate is not
    registered. *)
Theorem Shutdown_runs_what_is_queued (c : Situation) (r : PerIsolatePlatformData) :
  flush_tasks_ r = true →
  (c = Registered ∨ Shutdown_reaches_the_platform r = false →
   ∃ r', Shutdown c r = Ok r'
     ∧ flush_tasks_ r' = false
     ∧ ref_count_ r' = ref_count_ r ∧ loop_ r' = loop_ r
     ∧ task_queue_ (foreground_tasks_ r') = []
     ∧ task_queue_ (foreground_delayed_tasks_ r') = []
     ∧ scheduled_delayed_tasks_ r' = []
     ∧ (∀ fuel, list_sum (map Task_weight (task_queue_ (foreground_tasks_ r))) ≤ fuel →
          executed r'
          = executed r
            ++ map Task_id (generations fuel (task_queue_ (foreground_tasks_ r))))
     ∧ Shutdown c r' = Ok r'
     ∧ (∀ t, PostTask t r' = None)
     ∧ (∀ t delay_in_seconds, PostDelayedTask t delay_in_seconds r' = None))
  ∧ (Shutdown_reaches_the_platform r = true →
     Shutdown MutexHeld r = Wait ∧ Shutdown NotRegistered r = Abort).
Proof.
  intros Hf. split.
  - intros Hc. destruct (Shutdown_view r Hf) as (r' & HS & Hv).
    unfold runner_view in Hv. injection Hv as Hrc Hl Hf' Hq Hd Hs He.
    exists r'. split.
    { destruct Hc as [-> | Hno]; [exact HS|]. by rewrite Shutdown_anywhere. }
    split; [done|]. split; [done|]. split; [done|].
    split; [done|]. split; [done|]. split; [done|]. split; [|split; [|split]].
    + intros fuel Hfuel. rewrite He. do 2 f_equal.
      exact (proj1 (generations_enough r fuel Hfuel)).
    + unfold Shutdown. by rewrite Hf'.
    + intros t. unfold PostTask. by rewrite Hf'.
    + intros t delay. unfold PostDelayedTask. by rewrite Hf'.
  - intros Hyes.
    by rewrite (Shutdown_blocked MutexHeld r Hyes), (Shutdown_blocked NotRegistered r Hyes).
Qed.

End Shutdown_facts.

(** *** The invariant of the platform *)

Section Platform_invariant.
Import platform platform_spec.

Lemma on_runner_registered (isolate a : nat) (d : PerIsolatePlatformData)
    (f : PerIsolatePlatformData → Result PerIsolatePlatformData) (p : NodePlatform) :
  per_isolate_ p !! isolate = Some (Some a) → runners p !! a = Some d →
  on_runner isolate f p
  = match f d with
    | Ok d' => Ok {| runners := <[a := d']> (runners p);
                     per_isolate_ := per_isolate_ p |}
    | Abort => Abort
    | Wait => Wait
    end.
Proof.
  intros Hm Ha. unfold on_runner, ForIsolate, per_isolate_index.
  rewrite Hm. simpl. by rewrite Ha.
Qed.

Lemma on_runner_unregistered (isolate : nat)
    (f : PerIsolatePlatformData → Result PerIsolatePlatformData) (p : NodePlatform) :
  default None (per_isolate_ p !! isolate) = None →
  on_runner isolate f p = Abort.
Proof.
  intros Hm. unfold on_runner, ForIsolate, per_isolate_index.
  destruct (per_isolate_ p !! isolate) as [[a|]|]; simpl in *; done.
Qed.

Lemma FlushForegroundTasks_on_runner (isolate : nat) (p : NodePlatform) :
  match FlushForegroundTasks isolate p with
  | Ok (p', _) => Ok p'
  | Abort => Abort
  | Wait => Wait
  end
  = on_runner isolate
      (λ d, match FlushForegroundTasksInternal Registered d with
            | Ok (_, d') => Ok d'
            | Abort => Abort
            | Wait => Wait
            end) p.
Proof.
  unfold FlushForegroundTasks, on_runner.
  destruct (ForIsolate isolate p) as [[p1 a]| |]; [|done|done].
  destruct (runners p1 !! a) as [d|]; [|done].
  by destruct (FlushForegroundTasksInternal Registered d) as [[b d']| |].
Qed.

(** A step of a runner that keeps its handle and its reference count
    keeps the invariant. *)
Lemma platform_ok_insert (p : NodePlatform) (a : nat) (d d' : PerIsolatePlatformData) :
  platform_ok p → runners p !! a = Some d →
  (flush_tasks_ d = true → flush_tasks_ d' = true) →
  (flush_tasks_ d = true → 0 < ref_count_ d → 0 < ref_count_ d')%Z →
  platform_ok {| runners := <[a := d']> (runners p); per_isolate_ := per_isolate_ p |}.
Proof.
  intros [Hreg Hdis] Ha Hlive Hrc. split; simpl; [|exact Hdis].
  intros isolate v Hv. destruct (Hreg isolate v Hv) as (a0 & d0 & -> & Ha0 & Hl0 & Hr0).
  destruct (decide (a0 = a)) as [->|Hne].
  - exists a, d'. rewrite Ha in Ha0. injection Ha0 as <-.
    split; [done|]. split; [|split; [auto|auto]].
    apply list_lookup_insert_eq. by eapply lookup_lt_Some.
  - exists a0, d0. split; [done|]. split; [|done].
    by rewrite list_lookup_insert_ne.
Qed.

Lemma platform_ok_on_runner (isolate : nat)
    (f : PerIsolatePlatformData → Result PerIsolatePlatformData)
    (p p' : NodePlatform) :
  platform_ok p →
  (∀ d d', f d = Ok d' → flush_tasks_ d = true →
           flush_tasks_ d' = true ∧ ref_count_ d' = ref_count_ d) →
  on_runner isolate f p = Ok p' → platform_ok p'.
Proof.
  intros Hok Hf Hrun.
  destruct (per_isolate_ p !! isolate) as [v|] eqn:Hm.
  - destruct (ok_registered p Hok isolate v Hm) as (a & d & -> & Ha & Hl & Hr).
    rewrite (on_runner_registered isolate a d f p Hm Ha) in Hrun.
    destruct (f d) as [d'| |] eqn:Hfd; [|done|done]. injection Hrun as <-.
    destruct (Hf d d' Hfd Hl) as [Hl' Hr'].
    apply (platform_ok_insert p a d d' Hok Ha); [done|]. intros _. by rewrite Hr'.
  - rewrite on_runner_unregistered in Hrun; [done|]. by rewrite Hm.
Qed.

Lemma platform_ok_new : platform_ok NodePlatform_new.
Proof. split; simpl; intros *; by rewrite lookup_empty. Qed.

Lemma platform_ok_Register (isolate loop : nat) (p p' : NodePlatform) :
  platform_ok p → RegisterIsolate isolate loop p = Ok p' → platform_ok p'.
Proof.
  intros Hok Hreg.
  destruct (per_isolate_ p !! isolate) as [v|] eqn:Hm.
  - destruct (ok_registered p Hok isolate v Hm) as (a & d & -> & Ha & Hl & Hr).
    unfold RegisterIsolate, per_isolate_index in Hreg. rewrite Hm in Hreg.
    simpl in Hreg. rewrite Ha in Hreg.
    case_bool_decide; [|done]. injection Hreg as <-.
    apply (platform_ok_insert p a d (ref d) Hok Ha); simpl; [done|]. lia.
  - rewrite RegisterIsolate_new in Hreg by (by rewrite Hm). injection Hreg as <-.
    destruct Hok as [Hreg Hdis]. split; simpl.
    + intros isolate' v Hv. apply lookup_insert_Some in Hv as [[<- <-] | [Hne Hv]].
      * exists (length (runners p)), (PerIsolatePlatformData_new loop).
        split; [done|]. split; [by apply list_lookup_middle|]. done.
      * destruct (Hreg isolate' v Hv) as (a & d & -> & Ha & Hl & Hr).
        exists a, d. split; [done|]. split; [by apply lookup_app_l_Some|done].
    + intros i1 i2 a H1 H2.
      apply lookup_insert_Some in H1 as [[<- H1] | [Hne1 H1]];
        apply lookup_insert_Some in H2 as [[<- H2] | [Hne2 H2]].
      * done.
      * injection H1 as <-.
        destruct (Hreg i2 _ H2) as (a & d & [= <-] & Ha & _).
        apply lookup_lt_Some in Ha. lia.
      * injection H2 as <-.
        destruct (Hreg i1 _ H1) as (a & d & [= <-] & Ha & _).
        apply lookup_lt_Some in Ha. lia.
      * by eapply Hdis.
Qed.

Lemma platform_ok_Unregister (isolate : nat) (p p' : NodePlatform) :
  platform_ok p → UnregisterIsolate isolate p = Ok p' → platform_ok p'.
Proof.
  intros Hok Hun.
  destruct (per_isolate_ p !! isolate) as [v|] eqn:Hm.
  - destruct (ok_registered p Hok isolate v Hm) as (a & d & -> & Ha & Hl & Hr).
    pose proof (UnregisterIsolate_cases isolate a d p Hm Ha) as Hc.
    destruct (decide (ref_count_ d - 1 = 0)%Z) as [H0|H0].
    + destruct (Shutdown_reaches_the_platform d); [congruence|].
      destruct Hc as (d' & _ & Hc). rewrite Hc in Hun. injection Hun as <-.
      destruct Hok as [Hreg Hdis]. split; simpl.
      * intros isolate' v Hv. apply lookup_delete_Some in Hv as [Hne Hv].
        destruct (Hreg isolate' v Hv) as (a' & d0 & -> & Ha' & Hl' & Hr').
        exists a', d0. split; [done|]. split; [|done].
        rewrite list_lookup_insert_ne; [done|]. intros <-.
        apply Hne. by eapply Hdis.
      * intros i1 i2 a' H1 H2.
        apply lookup_delete_Some in H1 as [_ H1].
        apply lookup_delete_Some in H2 as [_ H2]. by eapply Hdis.
    + rewrite Hc in Hun. injection Hun as <-.
      apply (platform_ok_insert p a d _ Hok Ha); simpl; [done|]. lia.
  - unfold UnregisterIsolate, per_isolate_index in Hun. rewrite Hm in Hun. done.
Qed.

Lemma platform_ok_call (c : Call) (p p' : NodePlatform) :
  platform_ok p → call c p = Ok p' → platform_ok p'.
Proof.
  intros Hok Hc. destruct c as [isolate loop|isolate|isolate t|isolate t delay
                                |isolate|isolate|isolate|a i]; cbn [call] in Hc.
  - by eapply platform_ok_Register.
  - by eapply platform_ok_Unregister.
  - eapply platform_ok_on_runner; [exact Hok| |exact Hc].
    intros d d' Hd Hl; cbn beta in Hd. unfold PostTask in Hd. rewrite Hl in Hd.
    injection Hd as <-. done.
  - eapply platform_ok_on_runner; [exact Hok| |exact Hc].
    intros d d' Hd Hl; cbn beta in Hd. unfold PostDelayedTask in Hd. rewrite Hl in Hd.
    injection Hd as <-. done.
  - rewrite FlushForegroundTasks_on_runner in Hc.
    eapply platform_ok_on_runner; [exact Hok| |exact Hc].
    intros d d' Hd Hl; cbn beta in Hd.
    destruct (FlushForegroundTasksInternal_view d (or_introl Hl)) as (d1 & HF & Hv).
    rewrite HF in Hd. injection Hd as <-. injection Hv as Hrc _ Hf _ _ _ _.
    split; congruence.
  - eapply platform_ok_on_runner; [exact Hok| |exact Hc].
    intros d d' Hd Hl; cbn beta in Hd.
    destruct (Flush_until_idle_view (S (pending_weight d)) d Hl) as (d1 & HF & Hv);
      [lia|].
    rewrite HF in Hd. injection Hd as <-. injection Hv as Hrc _ Hf _ _ _ _.
    done.
  - eapply platform_ok_on_runner; [exact Hok| |exact Hc].
    intros d d' Hd Hl; cbn beta in Hd. injection Hd as <-. done.
  - destruct (runners p !! a) as [d|] eqn:Ha; [|done].
    destruct (RunForegroundTask_timer (Situation_of a p) i d) as [d'| |] eqn:HR;
      [|done|done].
    injection Hc as <-.
    apply RunForegroundTask_timer_Ok in HR as (x & Hi & HR).
    apply (platform_ok_insert p a d d' Hok Ha).
    + intros Hl. destruct (RunForegroundTask_timer_view i x d Hl Hi) as (d1 & HR1 & Hv).
      rewrite HR1 in HR. injection HR as <-. by injection Hv as _ _ Hf _ _ _ _.
    + intros Hl Hr. destruct (RunForegroundTask_timer_view i x d Hl Hi) as (d1 & HR1 & Hv).
      rewrite HR1 in HR. injection HR as <-. injection Hv as Hrc _ _ _ _ _ _.
      by rewrite Hrc.
Qed.

Lemma platform_ok_calls (cs : list Call) :
  ∀ p p', platform_ok p → calls cs p = Ok p' → platform_ok p'.
Proof.
  induction cs as [|c cs IH]; intros p p' Hok Hc; simpl in Hc.
  - by injection Hc as <-.
  - destruct (call c p) as [p1| |] eqn:Hc1; [|done|done].
    eapply IH; [|exact Hc]. exact (platform_ok_call c p p1 Hok Hc1).
Qed.

End Platform_invariant.

(** *** Calls of the platform *)

Section Platform_calls.
Import platform platform_spec.

Lemma RegisterIsolate_unregistered (isolate loop : nat) (p : NodePlatform) :
  per_isolate_ p !! isolate = None →
  ∃ p', RegisterIsolate isolate loop p = Ok p'.
Proof.
  intros Hm. rewrite RegisterIsolate_new by (by rewrite Hm). eauto.
Qed.

Lemma UnregisterIsolate_unregistered (isolate : nat) (p : NodePlatform) :
  per_isolate_ p !! isolate = None → UnregisterIsolate isolate p = Abort.
Proof.
  intros Hm. unfold UnregisterIsolate, per_isolate_index. by rewrite Hm.
Qed.

Lemma FlushForegroundTasks_unregistered (isolate : nat) (p : NodePlatform) :
  per_isolate_ p !! isolate = None → FlushForegroundTasks isolate p = Abort.
Proof.
  intros Hm. unfold FlushForegroundTasks, ForIsolate, per_isolate_index.
  by rewrite Hm.
Qed.

(** X17. Calls for a registered isolate fail no [CHECK].  In every
    state the platform reaches from its construction through
    registrations, unregistrations, posts, flushes, drains,
    cancellations and timers, an isolate that is registered has a runner
    with its handle and a positive reference count, so that posting to
    it, flushing it, draining it, cancelling its delayed tasks and
    registering it again with the same loop all return.  Unregistering
    it returns as well, with one exception: the unregistration that
    brings the count to zero never returns if one of the tasks that
    [Shutdown] then runs posts through the platform, for that task waits
    for the mutex that [UnregisterIsolate] holds.  For an isolate that
    is not registered every one of these calls fails its [CHECK], except
    the registration. *)
Theorem calls_on_a_registered_isolate_do_not_abort (cs : list Call)
    (p : NodePlatform) (isolate : nat) :
  calls cs NodePlatform_new = Ok p →
  (is_Some (per_isolate_ p !! isolate) →
   ∃ a d, per_isolate_ p !! isolate = Some (Some a) ∧ runners p !! a = Some d
     ∧ flush_tasks_ d = true ∧ (0 < ref_count_ d)%Z
     ∧ (∀ task, ∃ p', CallOnForegroundThread isolate task p = Ok p')
     ∧ (∀ task delay_in_seconds,
          ∃ p', CallDelayedOnForegroundThread isolate task delay_in_seconds p = Ok p')
     ∧ (∃ p' did_work, FlushForegroundTasks isolate p = Ok (p', did_work))
     ∧ (∃ p', DrainTasks isolate p = Ok p')
     ∧ (∃ p', NodePlatform_CancelPendingDelayedTasks isolate p = Ok p')
     ∧ (∃ p', RegisterIsolate isolate (loop_ d) p = Ok p')
     ∧ (ref_count_ d ≠ 1%Z ∨ Shutdown_reaches_the_platform d = false →
        ∃ p', UnregisterIsolate isolate p = Ok p')
     ∧ (ref_count_ d = 1%Z → Shutdown_reaches_the_platform d = true →
        UnregisterIsolate isolate p = Wait))
  ∧ (per_isolate_ p !! isolate = None →
     (∀ task, CallOnForegroundThread isolate task p = Abort)
     ∧ (∀ task delay_in_seconds,
          CallDelayedOnForegroundThread isolate task delay_in_seconds p = Abort)
     ∧ FlushForegroundTasks isolate p = Abort
     ∧ DrainTasks isolate p = Abort
     ∧ NodePlatform_CancelPendingDelayedTasks isolate p = Abort
     ∧ UnregisterIsolate isolate p = Abort
     ∧ (∀ loop, ∃ p', RegisterIsolate isolate loop p = Ok p')).
Proof.
  intros Hcs.
  pose proof (platform_ok_calls cs _ p platform_ok_new Hcs) as Hok.
  split.
  - intros [v Hm].
    destruct (ok_registered p Hok isolate v Hm) as (a & d & -> & Ha & Hl & Hr).
    exists a, d. split; [done|]. split; [done|]. split; [done|]. split; [done|].
    split; [|split; [|split; [|split; [|split; [|split; [|split]]]]]].
    + intros task. unfold CallOnForegroundThread.
      rewrite (on_runner_registered isolate a d _ p Hm Ha).
      unfold PostTask. rewrite Hl. simpl. eauto.
    + intros task delay. unfold CallDelayedOnForegroundThread.
      rewrite (on_runner_registered isolate a d _ p Hm Ha).
      unfold PostDelayedTask. rewrite Hl. simpl. eauto.
    + unfold FlushForegroundTasks, ForIsolate, per_isolate_index.
      rewrite Hm. simpl. rewrite Ha.
      destruct (FlushForegroundTasksInternal_view d (or_introl Hl)) as (d1 & -> & _).
      eauto.
    + unfold DrainTasks. rewrite (on_runner_registered isolate a d _ p Hm Ha).
      destruct (Flush_until_idle_view (S (pending_weight d)) d Hl) as (d1 & -> & _);
        [lia|]. eauto.
    + unfold NodePlatform_CancelPendingDelayedTasks.
      rewrite (on_runner_registered isolate a d _ p Hm Ha). eauto.
    + rewrite (RegisterIsolate_again isolate (loop_ d) a d p Hm Ha eq_refl). eauto.
    + intros Hreturns.
      pose proof (UnregisterIsolate_cases isolate a d p Hm Ha) as Hc.
      destruct (decide (ref_count_ d - 1 = 0)%Z).
      * destruct Hreturns as [? | Hno]; [lia|]. rewrite Hno in Hc.
        destruct Hc as (d' & _ & ->). eauto.
      * rewrite Hc. eauto.
    + intros Hlast Hyes.
      pose proof (UnregisterIsolate_cases isolate a d p Hm Ha) as Hc.
      rewrite decide_True, Hyes in Hc by lia. exact Hc.
  - intros Hm.
    assert (default None (per_isolate_ p !! isolate) = None) as Hm' by (by rewrite Hm).
    split; [intros; by apply on_runner_unregistered|].
    split; [intros; by apply on_runner_unregistered|].
    split; [by apply FlushForegroundTasks_unregistered|].
    split; [by apply on_runner_unregistered|].
    split; [by apply on_runner_unregistered|].
    split; [by apply UnregisterIsolate_unregistered|].
    intros loop. by apply RegisterIsolate_unregistered.
Qed.

Lemma on_runner_Ok (isolate : nat)
    (f : PerIsolatePlatformData → Result PerIsolatePlatformData)
    (p p' : NodePlatform) :
  on_runner isolate f p = Ok p' →
  ∃ a d', per_isolate_ p !! isolate = Some (Some a)
          ∧ runners p' = <[a := d']> (runners p)
          ∧ per_isolate_ p' = per_isolate_ p.
Proof.
  unfold on_runner, ForIsolate, per_isolate_index.
  destruct (per_isolate_ p !! isolate) as [[a|]|]; simpl; [|done|done].
  destruct (runners p !! a) as [d|]; [|done].
  destruct (f d) as [d'| |]; [|done|done]. intros [= <-]. by exists a, d'.
Qed.

(** X18. A call for one isolate leaves the other isolates alone.  In
    every state the platform reaches, a call that names an isolate
    changes neither the entry nor the runner of any other registered
    isolate; and a timer of one runner that fires leaves the other
    runners as they are. *)
Theorem calls_leave_other_isolates_alone (cs : list Call) (p : NodePlatform)
    (other b : nat) :
  calls cs NodePlatform_new = Ok p →
  per_isolate_ p !! other = Some (Some b) →
  (∀ c isolate p', isolate_of c = Some isolate → isolate ≠ other →
     call c p = Ok p' →
     per_isolate_ p' !! other = Some (Some b)
     ∧ runners p' !! b = runners p !! b)
  ∧ (∀ a i p', a ≠ b → call (TimerFires a i) p = Ok p' →
       per_isolate_ p' !! other = Some (Some b)
       ∧ runners p' !! b = runners p !! b).
Proof.
  intros Hcs Hother.
  pose proof (platform_ok_calls cs _ p platform_ok_new Hcs) as Hok.
  assert (∀ isolate a, isolate ≠ other →
            per_isolate_ p !! isolate = Some (Some a) → a ≠ b) as Hab.
  { intros isolate a Hne Hm ->. apply Hne. by eapply (ok_distinct p Hok). }
  assert (∀ isolate f p', isolate ≠ other → on_runner isolate f p = Ok p' →
            per_isolate_ p' !! other = Some (Some b)
            ∧ runners p' !! b = runners p !! b) as Hrun.
  { intros isolate f p' Hne Hf.
    destruct (on_runner_Ok isolate f p p' Hf) as (a & d' & Hm & -> & ->).
    split; [done|]. rewrite list_lookup_insert_ne; [done|]. by eapply Hab. }
  split.
  - intros c isolate p' Hc Hne Hcall.
    destruct c as [isolate0 loop|isolate0|isolate0 t|isolate0 t delay
                  |isolate0|isolate0|isolate0|a i];
      cbn [isolate_of] in Hc; try discriminate; injection Hc as ->;
      cbn [call] in Hcall.
    + destruct (per_isolate_ p !! isolate) as [v|] eqn:Hm.
      * destruct (ok_registered p Hok isolate v Hm) as (a & d & -> & Ha & Hl & Hr).
        unfold RegisterIsolate, per_isolate_index in Hcall. rewrite Hm in Hcall.
        simpl in Hcall. rewrite Ha in Hcall.
        case_bool_decide; [|done]. injection Hcall as <-. simpl.
        split; [done|]. rewrite list_lookup_insert_ne; [done|]. by eapply Hab.
      * rewrite RegisterIsolate_new in Hcall by (by rewrite Hm).
        injection Hcall as <-. simpl.
        split; [by rewrite lookup_insert_ne|].
        destruct (ok_registered p Hok other _ Hother) as (b' & d & [= <-] & Hb & _).
        rewrite Hb. by apply lookup_app_l_Some.
    + destruct (per_isolate_ p !! isolate) as [v|] eqn:Hm.
      * destruct (ok_registered p Hok isolate v Hm) as (a & d & -> & Ha & Hl & Hr).
        pose proof (UnregisterIsolate_cases isolate a d p Hm Ha) as Hcase.
        pose proof (Hab isolate a Hne Hm) as Hneq.
        destruct (decide (ref_count_ d - 1 = 0)%Z).
        -- destruct (Shutdown_reaches_the_platform d); [congruence|].
           destruct Hcase as (d' & _ & Hcase). rewrite Hcase in Hcall.
           injection Hcall as <-. simpl.
           split; [by rewrite lookup_delete_ne|by rewrite list_lookup_insert_ne].
        -- rewrite Hcase in Hcall. injection Hcall as <-. simpl.
           split; [done|by rewrite list_lookup_insert_ne].
      * by rewrite UnregisterIsolate_unregistered in Hcall.
    + by eapply Hrun.
    + by eapply Hrun.
    + rewrite FlushForegroundTasks_on_runner in Hcall. by eapply Hrun.
    + by eapply Hrun.
    + by eapply Hrun.
  - intros a i p' Hne Hcall. cbn [call] in Hcall.
    destruct (runners p !! a) as [d|]; [|done].
    destruct (RunForegroundTask_timer (Situation_of a p) i d); [|done|done].
    injection Hcall as <-. simpl. split; [done|by rewrite list_lookup_insert_ne].
Qed.

(** X19. [DrainTasks] for a registered isolate flushes until nothing is
    queued, and returns.  The runner has then run the queued tasks and,
    in rounds, everything they posted; every delayed task that was
    queued or posted on the way has its timer started and is kept in
    [scheduled_delayed_tasks_] (none is run, none is dropped); the
    queues are empty, the handle is kept, and the flush that follows
    finds nothing to do. *)
Theorem DrainTasks_flushes_until_idle (p : NodePlatform) (isolate a : nat)
    (d : PerIsolatePlatformData) :
  per_isolate_ p !! isolate = Some (Some a) → runners p !! a = Some d →
  flush_tasks_ d = true →
  ∃ d',
    DrainTasks isolate p
    = Ok {| runners := <[a := d']> (runners p); per_isolate_ := per_isolate_ p |}
    ∧ flush_tasks_ d' = true ∧ ref_count_ d' = ref_count_ d
    ∧ task_queue_ (foreground_tasks_ d') = []
    ∧ task_queue_ (foreground_delayed_tasks_ d') = []
    ∧ (∀ fuel, list_sum (map Task_weight (task_queue_ (foreground_tasks_ d))) ≤ fuel →
         executed d'
         = executed d
           ++ map Task_id (generations fuel (task_queue_ (foreground_tasks_ d)))
         ∧ scheduled_delayed_tasks_ d'
           = scheduled_delayed_tasks_ d
             ++ map started (task_queue_ (foreground_delayed_tasks_ d)
                             ++ delayed_generations fuel
                                  (task_queue_ (foreground_tasks_ d))))
    ∧ (fst <$> FlushForegroundTasksInternal Registered d') = Ok false.
Proof.
  intros Hm Ha Hl. unfold DrainTasks.
  rewrite (on_runner_registered isolate a d _ p Hm Ha).
  destruct (Flush_until_idle_view (S (pending_weight d)) d Hl) as (d' & -> & Hv);
    [lia|].
  injection Hv as Hrc _ Hf Hq Hd Hs He.
  exists d'. split; [done|]. split; [done|]. split; [done|]. split; [done|].
  split; [done|]. split.
  - intros fuel Hfuel.
    destruct (generations_stable (S (pending_weight d)) fuel
                (task_queue_ (foreground_tasks_ d))) as [Hg Hdg];
      [unfold pending_weight; lia|done|].
    rewrite He, Hs. cbn [generations delayed_generations] in Hg, Hdg.
    by rewrite Hg, Hdg.
  - destruct (FlushForegroundTasksInternal_view d' (or_introl Hf)) as (d2 & -> & _).
    by rewrite Hq, Hd.
Qed.

Lemma PostTask_view (t : Task) (r : PerIsolatePlatformData) :
  flush_tasks_ r = true →
  ∃ r', PostTask t r = Some r'
    ∧ runner_view r'
      = (ref_count_ r, loop_ r, true,
         task_queue_ (foreground_tasks_ r) ++ [t],
         task_queue_ (foreground_delayed_tasks_ r),
         scheduled_delayed_tasks_ r, executed r).
Proof.
  intros Hlive. unfold PostTask. rewrite Hlive. eexists. split; [done|].
  reflexivity.
Qed.

Lemma FlushForegroundTasks_registered (isolate a : nat) (d : PerIsolatePlatformData)
    (p : NodePlatform) :
  per_isolate_ p !! isolate = Some (Some a) → runners p !! a = Some d →
  FlushForegroundTasks isolate p
  = match FlushForegroundTasksInternal Registered d with
    | Ok (did_work, d') =>
        Ok ({| runners := <[a := d']> (runners p); per_isolate_ := per_isolate_ p |},
            did_work)
    | Abort => Abort
    | Wait => Wait
    end.
Proof.
  intros Hm Ha. unfold FlushForegroundTasks, ForIsolate, per_isolate_index.
  rewrite Hm. simpl. by rewrite Ha.
Qed.

(** X20. A task posted for a registered isolate runs on the next flush.
    [CallOnForegroundThread] followed by [FlushForegroundTasks] returns
    true; the runner of the isolate has then run the tasks queued
    before and the new task behind them, and holds what they posted;
    the entries of [per_isolate_] are as before.  If nothing was posted
    on the way, the flush that follows returns false. *)
Theorem posted_foreground_task_runs_on_the_next_flush (p : NodePlatform)
    (isolate a : nat) (d : PerIsolatePlatformData) (t : Task) :
  per_isolate_ p !! isolate = Some (Some a) → runners p !! a = Some d →
  flush_tasks_ d = true →
  ∃ p1 p2 d2,
    CallOnForegroundThread isolate t p = Ok p1
    ∧ FlushForegroundTasks isolate p1 = Ok (p2, true)
    ∧ per_isolate_ p2 = per_isolate_ p
    ∧ runners p2 = <[a := d2]> (runners p)
    ∧ executed d2
      = executed d ++ map Task_id (task_queue_ (foreground_tasks_ d)) ++ [Task_id t]
    ∧ task_queue_ (foreground_tasks_ d2)
      = concat (map Task_posts (task_queue_ (foreground_tasks_ d))) ++ Task_posts t
    ∧ (task_queue_ (foreground_tasks_ d2) = [] →
       task_queue_ (foreground_delayed_tasks_ d2) = [] →
       ∃ p3, FlushForegroundTasks isolate p2 = Ok (p3, false)).
Proof.
  intros Hm Ha Hl.
  destruct (PostTask_view t d Hl) as (d1 & HP & Hv1).
  unfold runner_view in Hv1. injection Hv1 as Hrc1 Hl1 Hf1 Hq1 Hd1 Hs1 He1.
  destruct (FlushForegroundTasksInternal_view d1 (or_introl Hf1)) as (d2 & HF & Hv2).
  unfold runner_view in Hv2. injection Hv2 as Hrc2 Hl2 Hf2 Hq2 Hd2 Hs2 He2.
  assert (nonempty (task_queue_ (foreground_tasks_ d1)) = true) as Hne.
  { rewrite Hq1. by destruct (task_queue_ (foreground_tasks_ d)). }
  rewrite Hne, orb_true_r in HF.
  assert (a < length (runners p)) as Hlt by (by eapply lookup_lt_Some).
  eexists _, _, d2. split.
  { unfold CallOnForegroundThread.
    rewrite (on_runner_registered isolate a d _ p Hm Ha), HP. reflexivity. }
  split.
  { rewrite (FlushForegroundTasks_registered isolate a d1); cbn [per_isolate_ runners].
    - rewrite HF. reflexivity.
    - exact Hm.
    - by apply list_lookup_insert_eq. }
  cbn [per_isolate_ runners].
  split; [done|]. split; [by rewrite list_insert_insert_eq|].
  split; [by rewrite He2, He1, Hq1, map_app|].
  split; [by rewrite Hq2, Hq1, map_app, concat_app; simpl; rewrite app_nil_r|].
  intros Hq0 Hd0.
  rewrite (FlushForegroundTasks_registered isolate a d2); cbn [per_isolate_ runners].
  - rewrite list_insert_insert_eq.
    destruct (FlushForegroundTasksInternal_view d2 (or_introl (eq_trans Hf2 Hf1)))
      as (d3 & -> & _).
    rewrite Hq0, Hd0. eauto.
  - exact Hm.
  - rewrite list_insert_insert_eq. by apply list_lookup_insert_eq.
Qed.

(** X21. The last unregistration of an isolate shuts its runner down.
    When the reference count is one and none of the tasks that
    [Shutdown] runs posts through the platform, [UnregisterIsolate] runs
    what is queued on the runner (round by round, as [Shutdown] does),
    drops its delayed tasks, leaves it without handle and with count
    zero, and erases the isolate from [per_isolate_]: posting, flushing
    or unregistering for that isolate then fails its [CHECK].
    Registering the isolate again makes a new runner; the old one stays
    shut down.  When one of these tasks posts through the platform the
    call never returns: the task waits for the mutex that
    [UnregisterIsolate] holds.  After [DrainTasks], which runs the same
    tasks without the mutex, the unregistration returns. *)
Theorem last_unregistration_shuts_the_runner_down (p : NodePlatform)
    (isolate a loop : nat) (d : PerIsolatePlatformData) :
  per_isolate_ p !! isolate = Some (Some a) → runners p !! a = Some d →
  flush_tasks_ d = true → ref_count_ d = 1%Z →
  (Shutdown_reaches_the_platform d = false →
   ∃ d' p2,
     UnregisterIsolate isolate p
     = Ok {| runners := <[a := d']> (runners p);
             per_isolate_ := delete isolate (per_isolate_ p) |}
     ∧ flush_tasks_ d' = false ∧ ref_count_ d' = 0%Z
     ∧ task_queue_ (foreground_tasks_ d') = []
     ∧ task_queue_ (foreground_delayed_tasks_ d') = []
     ∧ scheduled_delayed_tasks_ d' = []
     ∧ (∀ fuel, list_sum (map Task_weight (task_queue_ (foreground_tasks_ d))) ≤ fuel →
          executed d'
          = executed d
            ++ map Task_id (generations fuel (task_queue_ (foreground_tasks_ d))))
     ∧ (∀ t, CallOnForegroundThread isolate t
               {| runners := <[a := d']> (runners p);
                  per_isolate_ := delete isolate (per_isolate_ p) |} = Abort)
     ∧ FlushForegroundTasks isolate
         {| runners := <[a := d']> (runners p);
            per_isolate_ := delete isolate (per_isolate_ p) |} = Abort
     ∧ UnregisterIsolate isolate
         {| runners := <[a := d']> (runners p);
            per_isolate_ := delete isolate (per_isolate_ p) |} = Abort
     ∧ RegisterIsolate isolate loop
         {| runners := <[a := d']> (runners p);
            per_isolate_ := delete isolate (per_isolate_ p) |} = Ok p2
     ∧ per_isolate_ p2 !! isolate = Some (Some (length (runners p)))
     ∧ runners p2 !! length (runners p) = Some (PerIsolatePlatformData_new loop)
     ∧ runners p2 !! a = Some d')
  ∧ (Shutdown_reaches_the_platform d = true → UnregisterIsolate isolate p = Wait)
  ∧ (∃ p1 p2 d2,
       DrainTasks isolate p = Ok p1
       ∧ UnregisterIsolate isolate p1 = Ok p2
       ∧ per_isolate_ p2 !! isolate = None
       ∧ runners p2 !! a = Some d2 ∧ flush_tasks_ d2 = false
       ∧ (∀ fuel, list_sum (map Task_weight (task_queue_ (foreground_tasks_ d))) ≤ fuel →
            executed d2
            = executed d
              ++ map Task_id (generations fuel (task_queue_ (foreground_tasks_ d))))).
Proof.
  intros Hm Ha Hl Hrc.
  pose proof (UnregisterIsolate_cases isolate a d p Hm Ha) as Hc.
  rewrite decide_True in Hc by lia.
  assert (a < length (runners p)) as Hlt by (by eapply lookup_lt_Some).
  split; [|split].
  - intros Hno. rewrite Hno in Hc.
    destruct Hc as (d' & HS & HU).
    destruct (Shutdown_view (unref d).1 Hl) as (d'' & HS' & Hv).
    rewrite HS in HS'. injection HS' as <-.
    unfold runner_view in Hv. injection Hv as Hrc' Hl' Hf' Hq' Hd' Hs' He'.
    simpl in Hrc', He'.
    set (p1 := {| runners := <[a := d']> (runners p);
                  per_isolate_ := delete isolate (per_isolate_ p) |}).
    assert (per_isolate_ p1 !! isolate = None) as Hm1.
    { subst p1. cbn [per_isolate_]. by rewrite lookup_delete_eq. }
    assert (default None (per_isolate_ p1 !! isolate) = None) as Hm1'
      by (by rewrite Hm1).
    exists d'. eexists. split; [exact HU|].
    split; [done|]. split; [lia|]. split; [done|]. split; [done|]. split; [done|].
    split.
    { intros fuel Hfuel. rewrite He'. do 2 f_equal.
      exact (proj1 (generations_enough d fuel Hfuel)). }
    split.
    { intros t. exact (on_runner_unregistered isolate _ p1 Hm1'). }
    split; [exact (FlushForegroundTasks_unregistered isolate p1 Hm1)|].
    split; [exact (UnregisterIsolate_unregistered isolate p1 Hm1)|].
    split; [exact (RegisterIsolate_new isolate loop p1 Hm1')|].
    subst p1. cbn [per_isolate_ runners].
    rewrite length_insert.
    split; [by rewrite lookup_insert_eq|].
    split.
    + rewrite <- (length_insert (runners p) a d'). by apply list_lookup_middle.
    + apply lookup_app_l_Some. by apply list_lookup_insert_eq.
  - intros Hyes. by rewrite Hyes in Hc.
  - unfold DrainTasks. rewrite (on_runner_registered isolate a d _ p Hm Ha).
    destruct (Flush_until_idle_view (S (pending_weight d)) d Hl) as (d1 & -> & Hv);
      [lia|].
    unfold runner_view in Hv. injection Hv as Hrc1 Hl1 Hf1 Hq1 Hd1 Hs1 He1.
    set (p1 := {| runners := <[a := d1]> (runners p); per_isolate_ := per_isolate_ p |}).
    assert (runners p1 !! a = Some d1) as Ha1 by (by apply list_lookup_insert_eq).
    pose proof (UnregisterIsolate_cases isolate a d1 p1 Hm Ha1) as Hc1.
    rewrite decide_True in Hc1 by lia.
    assert (Shutdown_reaches_the_platform d1 = false) as Hno.
    { unfold Shutdown_reaches_the_platform. rewrite Hq1. apply andb_false_r. }
    rewrite Hno in Hc1. destruct Hc1 as (d2 & HS & HU).
    destruct (Shutdown_view (unref d1).1 Hf1) as (d2' & HS' & Hv2).
    rewrite HS in HS'. injection HS' as <-.
    unfold runner_view in Hv2. injection Hv2 as _ _ Hf2 _ _ _ He2.
    cbn [unref fst executed foreground_tasks_ pending_weight] in He2.
    rewrite Hq1 in He2. cbn [generations map app] in He2.
    rewrite generations_nil, app_nil_r in He2.
    eexists p1, _, d2. split; [done|]. split; [exact HU|].
    subst p1. cbn [per_isolate_ runners].
    split; [by rewrite lookup_delete_eq|].
    split; [apply list_lookup_insert_eq; by rewrite length_insert|].
    split; [done|].
    intros fuel Hfuel. rewrite He2, He1. do 2 f_equal.
    exact (proj1 (generations_enough d fuel Hfuel)).
Qed.

End Platform_calls.

(** *** More concrete runs of the pool *)

Section More_pool_runs.
Import threadpool spec.

Lemma outstanding_counts_queued_and_busy_witness :
  outstanding_tasks_ (Threadpool_queue_ cancelled_while_running)
  = (QueueLength cancelled_while_running
     + Z.of_nat (sum_list_with busy (workers_ cancelled_while_running)))%Z
  ∧ (BlockingDrain (Threadpool_queue_ cancelled_while_running) = Ok tt ↔
     queue_ (Threadpool_queue_ cancelled_while_running) = []
     ∧ Forall idle (workers_ cancelled_while_running)).
Proof.
  destruct (outstanding_counts_queued_and_busy cancelled_while_running)
    as (Hcount & _ & Hdrain).
  - exists 1, [CallPost (Task_new 7); WorkerStep 0; WorkerStep 0; CallCancel 0;
               WorkerStep 0].
    split; [lia | reflexivity].
  - split; [exact Hcount | exact Hdrain].
Defined.

Lemma a_task_runs_at_most_once_witness :
  NoDup (ran cancelled_while_running).
Proof.
  destruct (a_task_runs_at_most_once cancelled_while_running) as (Hnodup & _).
  - exists 1, [CallPost (Task_new 7); WorkerStep 0; WorkerStep 0; CallCancel 0;
               WorkerStep 0].
    split; [lia | reflexivity].
  - exact Hnodup.
Defined.

Lemma cancelled_before_assignment_never_runs_witness :
  ∃ ts, heap one_queued !! 0 = Some ts ∧ (Cancel ts).2 = true.
Proof.
  destruct (cancelled_before_assignment_never_runs one_queued
              {| Run_ := 7; task_state_ := Some 0 |} 0) as (Hcancel & _).
  - exists 1, [CallPost (Task_new 7)]. split; [lia | reflexivity].
  - reflexivity.
  - left. simpl. apply list_elem_of_singleton. reflexivity.
  - exact Hcancel.
Defined.

Lemma workers_can_always_drain_witness :
  ∃ trace tp',
    worker_steps trace ∧ exec trace one_queued = Ok tp'
    ∧ BlockingDrain (Threadpool_queue_ tp') = Ok tt.
Proof.
  destruct (workers_can_always_drain one_queued)
    as (trace & tp' & Hw & He & Hd & _).
  - exists 1, [CallPost (Task_new 7)]. split; [lia | reflexivity].
  - exists trace, tp'. split; [exact Hw|]. split; [exact He | exact Hd].
Defined.

Lemma workers_stop_only_when_drained_witness :
  length [WorkerStep 0; WorkerStep 0; WorkerStep 0]
  + pool_cost {| heap := [{| state_ := ASSIGNED |}];
                 Threadpool_queue_ := (Pop (Threadpool_queue_ one_queued)).2;
                 workers_ := [AtTryComplete {| Run_ := 7; task_state_ := Some 0 |}];
                 ran := [{| Run_ := 7; task_state_ := Some 0 |}] |}
  ≤ pool_cost one_queued.
Proof.
  destruct (workers_stop_only_when_drained one_queued) as (Hbound & _).
  - exists 1, [CallPost (Task_new 7)]. split; [lia | reflexivity].
  - apply Hbound.
    + repeat constructor; eexists; reflexivity.
    + reflexivity.
Defined.

Lemma tasks_are_popped_in_post_order_witness : fifo one_taken_one_queued.
Proof.
  destruct (tasks_are_popped_in_post_order one_taken_one_queued)
    as (Hqueue & Htaken & _).
  - exists 1, [CallPost (Task_new 7); CallPost (Task_new 8); WorkerStep 0].
    split; [lia | reflexivity].
  - split; [exact Hqueue | exact Htaken].
Defined.

Lemma submit_then_cancel_prevents_the_run_witness :
  ∃ tp1 req1 tp2,
    uv_executor_submit {| work_cb := 9; reserved0 := None |} one_queued
    = Ok (tp1, req1)
    ∧ uv_executor_cancel (-22) (-16) (Some req1) (heap tp1) = Some (heap tp2, 0%Z)
    ∧ heap tp2 !! 1 = Some {| state_ := CANCELLED |}.
Proof.
  destruct (submit_then_cancel_prevents_the_run (-22) (-16) one_queued
              {| work_cb := 9; reserved0 := None |})
    as (tp1 & req1 & tp2 & Hsubmit & _ & _ & _ & Hcancel & _ & Hstate & _).
  - exists 1, [CallPost (Task_new 7)]. split; [lia | reflexivity].
  - reflexivity.
  - exists tp1, req1, tp2. split; [exact Hsubmit|]. split; [exact Hcancel | exact Hstate].
Defined.

End More_pool_runs.

(** *** A concrete run of the executor *)

Section Submitted_request_runs.
Import threadpool spec.

Lemma submitted_request_is_run_once_witness :
  ∃ tp1 req1 trace tp2,
    uv_executor_submit {| work_cb := 9; reserved0 := None |} one_queued
    = Ok (tp1, req1)
    ∧ exec trace tp1 = Ok tp2
    ∧ {| Run_ := 9; task_state_ := Some 1 |} ∈ ran tp2
    ∧ heap tp2 !! 1 = Some {| state_ := COMPLETED |}.
Proof.
  destruct (submitted_request_is_run_once one_queued
              {| work_cb := 9; reserved0 := None |})
    as (tp1 & req1 & trace & tp2 & Hsubmit & _ & Hexec & _ & Hran & _ & _ & Hdone).
  - exists 1, [CallPost (Task_new 7)]. split; [lia | reflexivity].
  - reflexivity.
  - exists tp1, req1, trace, tp2. split; [exact Hsubmit|]. split; [exact Hexec|].
    split; [exact Hran | exact Hdone].
Defined.

End Submitted_request_runs.

(** *** More concrete runs of the platform *)

Section More_platform_runs.
Import platform platform_spec.

Lemma delayed_worker_task_reaches_the_pool_witness :
  ∃ w3,
    WorkerThreadsTaskRunner_RunTask
      (length (timers_ (delayed_task_scheduler_ new_worker_runner)))
      (WorkerThreadsTaskRunner_FlushTasks
         (WorkerThreadsTaskRunner_PostDelayedTask (MkTask 1 [] []) double_1_5
            new_worker_runner))
    = Ok w3
    ∧ timers_ (delayed_task_scheduler_ w3)
      = timers_ (delayed_task_scheduler_ new_worker_runner).
Proof.
  destruct (delayed_worker_task_reaches_the_pool new_worker_runner
              (MkTask 1 [] []) double_1_5) as ((w3 & _ & _ & Hrun & Htimers & _) & _).
  - reflexivity.
  - exists w3. split; [exact Hrun | exact Htimers].
Defined.

Lemma worker_task_is_run_by_the_pool_witness :
  ∃ w1,
    WorkerThreadsTaskRunner_PostTask (MkTask 1 [] []) new_worker_runner = Ok w1
    ∧ threadpool.BlockingDrain
        (threadpool.Threadpool_queue_ (tp_ (WorkerThreadsTaskRunner_BlockingDrain w1)))
      = Wait.
Proof.
  destruct (worker_task_is_run_by_the_pool new_worker_runner (MkTask 1 [] []))
    as (w1 & Hpost & _ & _ & _ & Hdrain & _).
  - exists 1, []. split; [lia | reflexivity].
  - reflexivity.
  - exists w1. split; [exact Hpost | exact Hdrain].
Defined.

Lemma delayed_foreground_task_runs_when_its_timer_fires_witness :
  ∃ r1 r2 r3,
    PostDelayedTask (MkTask 9 [] []) double_1_5 busy_runner = Some r1
    ∧ FlushForegroundTasksInternal Registered r1 = Ok (true, r2)
    ∧ RunForegroundTask_timer Registered
        (length (scheduled_delayed_tasks_ busy_runner)
         + length (task_queue_ (foreground_delayed_tasks_ busy_runner))) r2
      = Ok r3
    ∧ executed r3 = executed r2 ++ [Task_id (MkTask 9 [] [])].
Proof.
  destruct (delayed_foreground_task_runs_when_its_timer_fires busy_runner
              (MkTask 9 [] []) double_1_5)
    as (r1 & r2 & r3 & Hpost & Hflush & _ & _ & Hfire & Hexecuted & _).
  - reflexivity.
  - exists r1, r2, r3. split; [exact Hpost|]. split; [exact Hflush|].
    split; [exact Hfire | exact Hexecuted].
Defined.

Lemma Shutdown_runs_what_is_queued_witness :
  ∃ r', Shutdown MutexHeld busy_runner = Ok r'
    ∧ scheduled_delayed_tasks_ r' = []
    ∧ executed r'
      = executed busy_runner
        ++ map Task_id (generations 4 (task_queue_ (foreground_tasks_ busy_runner))).
Proof.
  destruct (Shutdown_runs_what_is_queued MutexHeld busy_runner) as (Hreturns & _).
  - reflexivity.
  - destruct Hreturns
      as (r' & Hshutdown & _ & _ & _ & _ & _ & Hscheduled & Hexecuted & _).
    + right. reflexivity.
    + exists r'. split; [exact Hshutdown|]. split; [exact Hscheduled|].
      apply Hexecuted. simpl. lia.
Defined.

Lemma calls_on_a_registered_isolate_do_not_abort_witness :
  (∃ p', CallOnForegroundThread 5 (MkTask 3 [] []) (platform_after platform_post_calls)
         = Ok p')
  ∧ (∃ p' did_work,
       FlushForegroundTasks 5 (platform_after platform_post_calls) = Ok (p', did_work))
  ∧ UnregisterIsolate 5 (platform_after platform_post_calls) = Wait.
Proof.
  destruct (calls_on_a_registered_isolate_do_not_abort platform_post_calls
              (platform_after platform_post_calls) 5) as (Hregistered & _).
  - reflexivity.
  - destruct Hregistered
      as (a & d & Hentry & Hrunner & _ & _ & Hpost & _ & Hflush & _ & _ & _ & _ & Hblocks).
    + exists (Some 0). reflexivity.
    + vm_compute in Hentry. injection Hentry as <-.
      vm_compute in Hrunner. injection Hrunner as <-.
      split; [apply Hpost|]. split; [exact Hflush|].
      apply Hblocks; reflexivity.
Defined.

Lemma calls_leave_other_isolates_alone_witness :
  per_isolate_
    (platform_after (sample_calls ++ [CallForeground 5 (MkTask 3 [] [])])) !! 6
  = Some (Some 1)
  ∧ runners
      (platform_after (sample_calls ++ [CallForeground 5 (MkTask 3 [] [])])) !! 1
    = runners (platform_after sample_calls) !! 1.
Proof.
  destruct (calls_leave_other_isolates_alone sample_calls
              (platform_after sample_calls) 6 1) as (Hcalls & _).
  - reflexivity.
  - reflexivity.
  - apply (Hcalls (CallForeground 5 (MkTask 3 [] [])) 5).
    + reflexivity.
    + lia.
    + reflexivity.
Defined.

Lemma DrainTasks_flushes_until_idle_witness :
  ∃ d',
    DrainTasks 5 (platform_after sample_calls)
    = Ok {| runners := <[0 := d']> (runners (platform_after sample_calls));
            per_isolate_ := per_isolate_ (platform_after sample_calls) |}
    ∧ task_queue_ (foreground_tasks_ d') = []
    ∧ (fst <$> FlushForegroundTasksInternal Registered d') = Ok false.
Proof.
  destruct (DrainTasks_flushes_until_idle (platform_after sample_calls) 5 0
              (default (PerIsolatePlatformData_new 1)
                 (runners (platform_after sample_calls) !! 0)))
    as (d' & Hdrain & _ & _ & Hqueue & _ & _ & Hflush).
  - reflexivity.
  - reflexivity.
  - reflexivity.
  - exists d'. split; [exact Hdrain|]. split; [exact Hqueue | exact Hflush].
Defined.

Lemma posted_foreground_task_runs_on_the_next_flush_witness :
  ∃ p1 p2,
    CallOnForegroundThread 5 (MkTask 3 [] []) (platform_after sample_calls) = Ok p1
    ∧ FlushForegroundTasks 5 p1 = Ok (p2, true)
    ∧ per_isolate_ p2 = per_isolate_ (platform_after sample_calls).
Proof.
  destruct (posted_foreground_task_runs_on_the_next_flush
              (platform_after sample_calls) 5 0
              (default (PerIsolatePlatformData_new 1)
                 (runners (platform_after sample_calls) !! 0))
              (MkTask 3 [] []))
    as (p1 & p2 & d2 & Hpost & Hflush & Hentries & _).
  - reflexivity.
  - reflexivity.
  - reflexivity.
  - exists p1, p2. split; [exact Hpost|]. split; [exact Hflush | exact Hentries].
Defined.

Lemma last_unregistration_shuts_the_runner_down_witness :
  ∃ d' p2,
    UnregisterIsolate 5 (platform_after one_isolate_calls)
    = Ok {| runners := <[0 := d']> (runners (platform_after one_isolate_calls));
            per_isolate_ := delete 5 (per_isolate_ (platform_after one_isolate_calls)) |}
    ∧ flush_tasks_ d' = false
    ∧ RegisterIsolate 5 7
        {| runners := <[0 := d']> (runners (platform_after one_isolate_calls));
           per_isolate_ := delete 5 (per_isolate_ (platform_after one_isolate_calls)) |}
      = Ok p2
    ∧ runners p2 !! 1 = Some (PerIsolatePlatformData_new 7).
Proof.
  destruct (last_unregistration_shuts_the_runner_down
              (platform_after one_isolate_calls) 5 0 7
              (default (PerIsolatePlatformData_new 1)
                 (runners (platform_after one_isolate_calls) !! 0)))
    as (Hreturns & _).
  - reflexivity.
  - reflexivity.
  - reflexivity.
  - reflexivity.
  - destruct Hreturns
      as (d' & p2 & Hunregister & Hhandle & _ & _ & _ & _ & _ & _ & _ & _
          & Hregister & _ & Hnew & _).
    + reflexivity.
    + exists d', p2. split; [exact Hunregister|]. split; [exact Hhandle|].
      split; [exact Hregister | exact Hnew].
Defined.

(** The run in which the task posted posts through the platform: the
    unregistration never returns, a flush and a drain do, and after the
    drain the unregistration returns. *)
Lemma unregistration_with_a_platform_task :
  UnregisterIsolate 5 (platform_after platform_post_calls) = Wait
  ∧ (executed <$>
       (platform_after (platform_post_calls ++ [CallFlush 5; CallFlush 5]))
       .(runners) !! 0) = Some [1; 2]
  ∧ (executed <$>
       (platform_after (platform_post_calls ++ [CallDrain 5; CallUnregister 5]))
       .(runners) !! 0) = Some [1; 2]
  ∧ per_isolate_ (platform_after (platform_post_calls ++ [CallDrain 5; CallUnregister 5]))
      !! 5 = None.
Proof. repeat split; vm_compute; reflexivity. Qed.

End More_platform_runs.
